(** * Twine Workshop: story model and conversion engine

    A shallow embedding of the conversion core of the editor
    (js/utils.js, js/import-export.js, js/renderer.js, js/app.js) and the
    properties of its specification that were checked against it.

    Conventions.
    - A JavaScript string is the list of its UTF-16 code units ([list N]).
    - A JavaScript object used as a map is the association list of its
      own properties, in the order in which [Object.keys] enumerates
      them. Its prototype is [Object.prototype]. [assign] is the
      assignment [o[k] = v] for any name, and [obj_set] the assignment
      of a name that is neither an array index nor [__proto__]: such a
      property, when it is new, goes last. [JSON.parse] keeps the
      members in the order of the text, which is the order of
      enumeration for a text that [JSON.stringify] wrote.
    - A number is a finite decimal, see [Num].
    - [Math.random] is an explicit stream of draws, [rand].
    - A function that returns [null] for "no result" returns [None]; a
      step that can throw returns [None] where the exception is caught.
    - [parseTwine], which goes through the document parser of the
      browser, is a parameter of [parseFile]. *)

From Stdlib Require Import List NArith ZArith Bool Ascii String Lia Arith.
Import ListNotations.

Local Open Scope N_scope.
Local Open Scope list_scope.

(* ===================================================================== *)
(** ** Strings *)
(* ===================================================================== *)

Module Str.

Abbreviation str := (list N).

(** [lit] turns a literal into its code units. *)
Definition lit (s : string) : str :=
  List.map N_of_ascii (list_ascii_of_string s).

(** [litq] is [lit] for text that contains double quotes: a backquote in
    the literal stands for the double quote character. *)
Definition litq (s : string) : str :=
  List.map (fun c => if c =? 96 then 34 else c) (lit s).

Definition nl : str := [10].
Definition dq : str := [34].

Fixpoint eqb (a b : str) : bool :=
  match a, b with
  | [], [] => true
  | x :: a', y :: b' => (x =? y) && eqb a' b'
  | _, _ => false
  end.

(** WhiteSpace and LineTerminator code units: what [trim] strips and
    what [\s] matches. *)
Definition is_ws (c : N) : bool :=
  (c =? 9) || (c =? 10) || (c =? 11) || (c =? 12) || (c =? 13) ||
  (c =? 32) || (c =? 160) || (c =? 5760) ||
  ((8192 <=? c) && (c <=? 8202)) ||
  (c =? 8232) || (c =? 8233) || (c =? 8239) || (c =? 8287) ||
  (c =? 12288) || (c =? 65279).

Fixpoint trimStart (s : str) : str :=
  match s with
  | c :: s' => if is_ws c then trimStart s' else s
  | [] => []
  end.

Definition trimEnd (s : str) : str := rev (trimStart (rev s)).

Definition trim (s : str) : str := trimEnd (trimStart s).

Fixpoint startsWith (p s : str) : bool :=
  match p, s with
  | [], _ => true
  | x :: p', y :: s' => (x =? y) && startsWith p' s'
  | _ :: _, [] => false
  end.

(** [s.includes(p)] *)
Fixpoint includes (p s : str) : bool :=
  startsWith p s ||
  match s with
  | [] => false
  | _ :: s' => includes p s'
  end.

(** [cut sep s]: the text before and after the first occurrence of
    [sep] in [s]. *)
Fixpoint cut (sep s : str) : option (str * str) :=
  if startsWith sep s then Some ([], skipn (List.length sep) s)
  else match s with
       | [] => None
       | c :: s' =>
           match cut sep s' with
           | Some (b, a) => Some (c :: b, a)
           | None => None
           end
       end.

(** [s.split(sep)] for a non-empty separator. *)
Fixpoint split_fuel (n : nat) (sep s : str) : list str :=
  match n with
  | O => [s]
  | S n' =>
      match cut sep s with
      | Some (b, a) => b :: split_fuel n' sep a
      | None => [s]
      end
  end.

Definition split (sep s : str) : list str :=
  split_fuel (List.length s) sep s.

(** [parts.join(sep)] *)
Fixpoint join (sep : str) (parts : list str) : str :=
  match parts with
  | [] => []
  | [p] => p
  | p :: rest => p ++ sep ++ join sep rest
  end.

(** [toLowerCase] on the letters A-Z; other code units are kept. *)
Definition lower (c : N) : N :=
  if (65 <=? c) && (c <=? 90) then c + 32 else c.

Definition toLowerCase (s : str) : str := List.map lower s.

(** [list.includes(x)] for a list of strings. *)
Definition mem (x : str) (l : list str) : bool := existsb (eqb x) l.

End Str.

Import Str.


(* ===================================================================== *)
(** ** Regular expressions *)
(* ===================================================================== *)

(** The fragment of the JavaScript regular expressions that the sources
    use: single code units and classes, concatenation, greedy and lazy
    repetition of a class, an optional group, capture groups and the end
    anchor. The matcher is the backtracking matcher of the language: the
    first alternative that lets the rest of the pattern succeed wins. *)

Module Regex.

Inductive regex :=
| Eps
| Chr (p : N -> bool)                 (* one code unit of a class *)
| Cat (a b : regex)
| Star (greedy : bool) (p : N -> bool) (* [p*] and [p*?] *)
| Opt (a : regex)                     (* [(?:a)?] *)
| Grp (i : nat) (a : regex)           (* capture group number [i] *)
| Eol.                                (* [$] *)

(** Classes. *)
Definition oneof (c : string) : N -> bool :=
  fun x => existsb (N.eqb x) (lit c).
Definition noneof (c : string) : N -> bool :=
  fun x => negb (existsb (N.eqb x) (lit c)).
(** [.] matches everything but the line terminators. *)
Definition dot : N -> bool :=
  fun x => negb ((x =? 10) || (x =? 13) || (x =? 8232) || (x =? 8233)).

(** A literal text. *)
Fixpoint Lit_ (s : str) : regex :=
  match s with
  | [] => Eps
  | c :: s' => Cat (Chr (N.eqb c)) (Lit_ s')
  end.
Definition Lit (s : string) : regex := Lit_ (lit s).

(** [p+] and [p+?] *)
Definition Plus (greedy : bool) (p : N -> bool) : regex :=
  Cat (Chr p) (Star greedy p).

Fixpoint Cats (l : list regex) : regex :=
  match l with
  | [] => Eps
  | [a] => a
  | a :: l' => Cat a (Cats l')
  end.

Definition caps := list (nat * str).

Fixpoint cap (i : nat) (cs : caps) : option str :=
  match cs with
  | [] => None
  | (j, s) :: cs' => if Nat.eqb i j then Some s else cap i cs'
  end.

Section Matcher.
Context {R : Type}.

Fixpoint star_greedy (p : N -> bool) (s : str) (k : str -> option R)
  : option R :=
  match s with
  | c :: s' =>
      if p c then
        match star_greedy p s' k with
        | Some r => Some r
        | None => k s
        end
      else k s
  | [] => k s
  end.

Fixpoint star_lazy (p : N -> bool) (s : str) (k : str -> option R)
  : option R :=
  match k s with
  | Some r => Some r
  | None =>
      match s with
      | c :: s' => if p c then star_lazy p s' k else None
      | [] => None
      end
  end.

(** [run r s cs k]: match [r] at the head of [s], then continue with [k]
    on what is left and on the captures made so far. *)
Fixpoint run (r : regex) (s : str) (cs : caps)
  (k : str -> caps -> option R) : option R :=
  match r with
  | Eps => k s cs
  | Chr p =>
      match s with
      | c :: s' => if p c then k s' cs else None
      | [] => None
      end
  | Cat a b => run a s cs (fun s1 c1 => run b s1 c1 k)
  | Star g p =>
      if g then star_greedy p s (fun s1 => k s1 cs)
      else star_lazy p s (fun s1 => k s1 cs)
  | Opt a =>
      match run a s cs k with
      | Some r => Some r
      | None => k s cs
      end
  | Grp i a =>
      run a s cs
        (fun s1 c1 =>
           k s1 ((i, firstn (List.length s - List.length s1) s) :: c1))
  | Eol => match s with [] => k s cs | _ :: _ => None end
  end.

End Matcher.

(** A match: the text matched, its captures, and the text after it. *)
Record found := { m_text : str; m_caps : caps; m_rest : str }.

(** Match at the head of [s]. *)
Definition match_here (r : regex) (s : str) : option found :=
  run r s []
    (fun s1 cs =>
       Some {| m_text := firstn (List.length s - List.length s1) s;
               m_caps := cs; m_rest := s1 |}).

(** Leftmost match in [s]: the text skipped before it, and the match. *)
Fixpoint search (r : regex) (s : str) : option (str * found) :=
  match match_here r s with
  | Some m => Some ([], m)
  | None =>
      match s with
      | [] => None
      | c :: s' =>
          match search r s' with
          | Some (skipped, m) => Some (c :: skipped, m)
          | None => None
          end
      end
  end.

(** [re.test(s)] *)
Definition test (r : regex) (s : str) : bool :=
  match search r s with Some _ => true | None => false end.

(** [s.replace(re, f)] with the [g] flag: every match, left to right,
    is replaced by what the callback returns for it. After an empty
    match the scan moves on by one code unit. *)
Fixpoint replace_fuel (n : nat) (r : regex) (f : found -> str) (s : str)
  : str :=
  match n with
  | O => s
  | S n' =>
      match search r s with
      | None => s
      | Some (skipped, m) =>
          skipped ++ f m ++
          match m_text m, m_rest m with
          | [], c :: rest => c :: replace_fuel n' r f rest
          | [], [] => []
          | _ :: _, rest => replace_fuel n' r f rest
          end
      end
  end.

Definition replace (r : regex) (f : found -> str) (s : str) : str :=
  replace_fuel (Datatypes.S (List.length s)) r f s.

(** [s.match(re)] with the [g] flag: the texts matched ([null] when there
    is none is the empty list here, as every caller writes [|| []]). *)
Fixpoint match_all_fuel (n : nat) (r : regex) (s : str) : list str :=
  match n with
  | O => []
  | S n' =>
      match search r s with
      | None => []
      | Some (_, m) =>
          m_text m ::
          match m_text m, m_rest m with
          | [], _ :: rest => match_all_fuel n' r rest
          | [], [] => []
          | _ :: _, rest => match_all_fuel n' r rest
          end
      end
  end.

Definition match_all (r : regex) (s : str) : list str :=
  match_all_fuel (Datatypes.S (List.length s)) r s.

(** A capture that took part in the match; a group that did not is
    [undefined], which the callers here only meet as the empty text. *)
Definition group (i : nat) (m : found) : str :=
  match cap i (m_caps m) with Some s => s | None => [] end.

End Regex.

Import Regex.

(* ===================================================================== *)
(** ** js/utils.js: validatePassageName *)
(* ===================================================================== *)

Definition reserved : list str :=
  [lit "__proto__"; lit "constructor"; lit "prototype";
   lit "hasOwnProperty"; lit "toString"; lit "valueOf"].

(** [/[[\]{}#$\/]/] *)
Definition invalid_chars : regex := Chr (oneof "[]{}#$/").

(** Returns an error text, or [None] for [null] when the name is valid. *)
Definition validatePassageName (name : str) : option str :=
  if match name with [] => true | _ => false end
     || match trim name with [] => true | _ => false end
  then Some (lit "Passage name cannot be empty")
  else if (200 <? List.length name)%nat
  then Some (lit "Passage name is too long (max 200 characters)")
  else if includes (lit ".") name
  then Some (lit "Passage name cannot contain dots")
  else if test invalid_chars name
  then Some (lit "Passage name contains invalid characters")
  else if mem name reserved
  then Some (lit "Passage name is reserved")
  else None.

(* ===================================================================== *)
(** ** js/renderer.js: extractLinks *)
(* ===================================================================== *)

(** [/\[\[([^\]]+)\]\]/g] *)
Definition link_marker : regex :=
  Cats [Lit "[["; Grp 1 (Plus true (noneof "]")); Lit "]]"].

(** [m.slice(2, -2)] *)
Definition slice_2_m2 (m : str) : str :=
  firstn (List.length m - 4) (skipn 2 m).

(** The callback of [matches.map]: the target named by one marker. *)
Definition link_target (m : str) : str :=
  let inner := slice_2_m2 m in
  if includes (lit "->") inner
  then trim (nth 1 (split (lit "->") inner) [])
  else
    let parts := split (lit "|") inner in
    trim (nth (List.length parts - 1) parts []).

Definition extractLinks (content : str) : list str :=
  match content with
  | [] => []
  | _ => List.map link_target (match_all link_marker content)
  end.

(** The target of a marker as the specification words it: after the
    first arrow when there is one, else after the last bar, else the
    whole marker text; trimmed. *)
Fixpoint after_last (sep s : str) (fuel : nat) : str :=
  match fuel with
  | O => s
  | S n =>
      match cut sep s with
      | Some (_, a) => after_last sep a n
      | None => s
      end
  end.

Definition link_target_spec (m : str) : str :=
  let inner := slice_2_m2 m in
  match cut (lit "->") inner with
  | Some (_, a) => trim a
  | None => trim (after_last (lit "|") inner (List.length inner))
  end.

Definition extractLinks_spec (content : str) : list str :=
  List.map link_target_spec (match_all link_marker content).

(* ===================================================================== *)
(** ** Numbers *)
(* ===================================================================== *)

(** A finite JavaScript number is kept as the decimal that
    [Number.prototype.toString] prints for it, the shortest decimal that
    reads back as the same number: a sign, the significant digits
    [d1 ... dk] and the position [pt] of the decimal point, for the value
    [0.d1...dk * 10^pt]. Zero has no digit; [-0] and [0], which [===]
    does not tell apart, are the same zero. [NaN] and the infinities,
    which no JSON text denotes, are not represented. *)

Module Num.

Record num := mk { neg : bool; digs : list N; pt : Z }.

Definition zero : num := {| neg := false; digs := []; pt := 0 |}.

Definition is_zero (n : num) : bool :=
  match digs n with [] => true | _ => false end.

Fixpoint last_nonzero (l : list N) : bool :=
  match l with
  | [] => true
  | [d] => negb (d =? 0)
  | _ :: l' => last_nonzero l'
  end.

(** The normal form: digits below ten, no leading and no trailing zero,
    and one zero only. *)
Definition wf (n : num) : bool :=
  forallb (fun d => d <=? 9) (digs n) &&
  match digs n with
  | [] => negb (neg n) && (pt n =? 0)%Z
  | d :: _ => negb (d =? 0) && last_nonzero (digs n)
  end.

Fixpoint drop_zeros (l : list N) : list N :=
  match l with
  | 0 :: l' => drop_zeros l'
  | _ => l
  end.

Fixpoint strip_lead (l : list N) (p : Z) : list N * Z :=
  match l with
  | 0 :: l' => strip_lead l' (p - 1)%Z
  | _ => (l, p)
  end.

(** The number [0.l * 10^p] with the sign [sg], in normal form. *)
Definition normalize (sg : bool) (l : list N) (p : Z) : num :=
  let (l1, p1) := strip_lead l p in
  match rev (drop_zeros (rev l1)) with
  | [] => zero
  | l2 => {| neg := sg; digs := l2; pt := p1 |}
  end.

(** Decimal digits of a natural number, most significant first. *)
Fixpoint to_digits_fuel (f : nat) (n : N) (acc : list N) : list N :=
  match f with
  | O => n :: acc
  | S f' =>
      if n <? 10 then n :: acc
      else to_digits_fuel f' (n / 10) (n mod 10 :: acc)
  end.

Definition to_digits (n : N) : list N :=
  to_digits_fuel (N.to_nat (N.log2 n)) n [].

Definition of_digits (l : list N) : N :=
  fold_left (fun a d => 10 * a + d) l 0.

Definition dchars (l : list N) : str := List.map (fun d => 48 + d) l.

Definition zeros (k : nat) : str := repeat 48 k.

(** The decimal text of a natural number. *)
Definition dec_str (n : N) : str := dchars (to_digits n).

Definition of_Z (z : Z) : num :=
  let l := to_digits (Z.abs_N z) in
  normalize (z <? 0)%Z l (Z.of_nat (List.length l)).

Definition of_nat (n : nat) : num := of_Z (Z.of_nat n).

(** [Number::toString] (radix ten). *)
Definition to_str (n : num) : str :=
  match digs n with
  | [] => lit "0"
  | d :: ds =>
      let k := Z.of_nat (List.length (digs n)) in
      let e := pt n in
      (if neg n then lit "-" else []) ++
      if ((k <=? e) && (e <=? 21))%Z then
        dchars (digs n) ++ zeros (Z.to_nat (e - k))
      else if ((0 <? e) && (e <=? 21))%Z then
        dchars (firstn (Z.to_nat e) (digs n)) ++ lit "." ++
        dchars (skipn (Z.to_nat e) (digs n))
      else if ((-6 <? e) && (e <=? 0))%Z then
        lit "0." ++ zeros (Z.to_nat (- e)) ++ dchars (digs n)
      else
        dchars [d] ++
        match ds with [] => [] | _ :: _ => lit "." ++ dchars ds end ++
        lit "e" ++ (if (e - 1 <? 0)%Z then lit "-" else lit "+") ++
        dec_str (Z.abs_N (e - 1))
  end.

Definition is_digit (c : N) : bool := (48 <=? c) && (c <=? 57).

(** The longest run of decimal digits at the head of [s]. *)
Fixpoint take_digits (s : str) : list N * str :=
  match s with
  | c :: s' =>
      if is_digit c then
        let (l, r) := take_digits s' in (c - 48 :: l, r)
      else ([], s)
  | [] => ([], [])
  end.

(** A number of the JSON grammar at the head of [s]: an optional minus
    sign; the integer part, a lone zero or digits that do not start with
    zero; an optional fraction, a point and digits; an optional exponent,
    [e] or [E], an optional sign and digits. *)
Definition parse_sign (s : str) : bool * str :=
  match s with
  | c :: r => if c =? 45 then (true, r) else (false, s)
  | [] => (false, s)
  end.

Definition parse_fraction (s : str) : option (list N * str) :=
  match s with
  | c :: r =>
      if c =? 46 then
        let (fp, s3) := take_digits r in
        match fp with
        | [] => None
        | _ :: _ => Some (fp, s3)
        end
      else Some ([], s)
  | [] => Some ([], s)
  end.

Definition parse_exponent (s : str) : option (Z * str) :=
  match s with
  | c :: r =>
      if (c =? 101) || (c =? 69) then
        let (esg, r1) :=
          match r with
          | x :: r' =>
              if x =? 45 then (true, r')
              else if x =? 43 then (false, r')
              else (false, r)
          | [] => (false, r)
          end in
        let (ep, s4) := take_digits r1 in
        match ep with
        | [] => None
        | _ :: _ =>
            let v := Z.of_N (of_digits ep) in
            Some ((if esg then - v else v)%Z, s4)
        end
      else Some (0%Z, s)
  | [] => Some (0%Z, s)
  end.

Definition parse (s : str) : option (num * str) :=
  let (sg, s1) := parse_sign s in
  let (ip, s2) := take_digits s1 in
  match ip with
  | [] => None
  | d :: ip' =>
      if (d =? 0) && negb (match ip' with [] => true | _ => false end)
      then None
      else
        match parse_fraction s2 with
        | None => None
        | Some (fp, s3) =>
            match parse_exponent s3 with
            | None => None
            | Some (e, s4) =>
                Some (normalize sg (ip ++ fp)
                        (Z.of_nat (List.length ip) + e), s4)
            end
        end
  end.

(** The digits of [n] as a signed integer: [n] is
    [signed_digits n * 10 ^ (pt n - length (digs n))]. *)
Definition signed_digits (n : num) : Z :=
  let d := Z.of_N (of_digits (digs n)) in
  if neg n then (- d)%Z else d.

(** [Math.round]: the integer nearest to [n], a half going up, which is
    the floor of [n + 1/2]. *)
Definition round (n : num) : Z :=
  let k := Z.of_nat (List.length (digs n)) in
  if (k <=? pt n)%Z then (signed_digits n * 10 ^ (pt n - k))%Z
  else
    let s := (10 ^ (k - pt n))%Z in
    ((2 * signed_digits n + s) / (2 * s))%Z.

Definition eqb (a b : num) : bool :=
  Bool.eqb (neg a) (neg b) && Str.eqb (digs a) (digs b) && (pt a =? pt b)%Z.

End Num.

Abbreviation num := Num.num.

(** [parseInt(s)]: leading white space, a sign, a [0x] prefix for
    hexadecimal digits, then the longest run of digits. [None] is [NaN].
    The result is the integer that the digits write, which is what the
    builtin returns for an integer that a number holds exactly, one
    below [2^53]; it rounds a larger one. *)
Definition hex_val (c : N) : option N :=
  if (48 <=? c) && (c <=? 57) then Some (c - 48)
  else if (97 <=? c) && (c <=? 102) then Some (c - 87)
  else if (65 <=? c) && (c <=? 70) then Some (c - 55)
  else None.

Fixpoint take_hex (s : str) : list N :=
  match s with
  | c :: s' =>
      match hex_val c with
      | Some d => d :: take_hex s'
      | None => []
      end
  | [] => []
  end.

Definition parseInt (s : str) : option Z :=
  let s0 := trimStart s in
  let (sg, s1) :=
    match s0 with
    | 45 :: r => (true, r)
    | 43 :: r => (false, r)
    | _ => (false, s0)
    end in
  let mag :=
    match s1 with
    | 48 :: x :: r =>
        if (x =? 120) || (x =? 88) then
          match take_hex r with
          | [] => None
          | l => Some (fold_left (fun a d => 16 * a + d) l 0)
          end
        else
          match fst (Num.take_digits s1) with
          | [] => None
          | l => Some (Num.of_digits l)
          end
    | _ =>
        match fst (Num.take_digits s1) with
        | [] => None
        | l => Some (Num.of_digits l)
        end
    end in
  match mag with
  | None => None
  | Some m => Some (if sg then (- Z.of_N m)%Z else Z.of_N m)
  end.

(* ===================================================================== *)
(** ** Values and JSON *)
(* ===================================================================== *)

(** The values the conversion code handles: what [JSON.parse] returns,
    and [undefined] for a property that is not there. An object lists its
    own properties in enumeration order. *)
#[warnings="-register-all"]
Inductive value :=
| VUndef
| VNull
| VBool (b : bool)
| VNum (n : num)
| VStr (s : str)
| VArr (l : list value)
| VObj (o : list (str * value)).

Abbreviation obj := (list (str * value)).

(** [o[k]] on the own properties; [None] is [undefined]. *)
Fixpoint obj_get (k : str) (o : obj) : option value :=
  match o with
  | [] => None
  | (k', v) :: o' => if Str.eqb k k' then Some v else obj_get k o'
  end.

(** [o[k] = v]: an existing property keeps its place, a new one goes
    last. *)
Fixpoint obj_set (k : str) (v : value) (o : obj) : obj :=
  match o with
  | [] => [(k, v)]
  | (k', v') :: o' =>
      if Str.eqb k k' then (k, v) :: o' else (k', v') :: obj_set k v o'
  end.

(** [delete o[k]] *)
Fixpoint obj_delete (k : str) (o : obj) : obj :=
  match o with
  | [] => []
  | (k', v) :: o' =>
      if Str.eqb k k' then obj_delete k o' else (k', v) :: obj_delete k o'
  end.

(** [Object.keys(o)] and [Object.values(o)] *)
Definition obj_keys (o : obj) : list str := List.map fst o.
Definition obj_values (o : obj) : list value := List.map snd o.

(** An array index as a property name: the decimal text, with no sign
    and no zero in front, of an integer below [2^32 - 1]. *)
Definition array_index (k : str) : option N :=
  match k with
  | [] => None
  | c :: r =>
      if forallb Num.is_digit k &&
         negb ((c =? 48) && match r with [] => false | _ :: _ => true end)
      then
        let i := Num.of_digits (List.map (fun d => d - 48) k) in
        if i <? 2 ^ 32 - 1 then Some i else None
      else None
  end.

(** [o[k] = v] in full, on an object that inherits from
    [Object.prototype], with properties of any type. An own property
    keeps its place. The name [__proto__], when it is not an own
    property, reaches the setter of [Object.prototype]: the assignment
    replaces the prototype, which is not part of the value, and adds no
    property. A new property whose name is an array index goes among
    the array indices, which are enumerated first and in ascending
    order; any other new property goes last. [obj_set] above is the
    assignment of a name that is neither. *)
Fixpoint put_own {A} (k : str) (v : A) (o : list (str * A))
  : list (str * A) :=
  match o with
  | [] => []
  | (k', v') :: o' =>
      if Str.eqb k k' then (k, v) :: o' else (k', v') :: put_own k v o'
  end.

Fixpoint put_index {A} (i : N) (k : str) (v : A) (o : list (str * A))
  : list (str * A) :=
  match o with
  | [] => [(k, v)]
  | (k', v') :: o' =>
      match array_index k' with
      | Some j =>
          if j <? i then (k', v') :: put_index i k v o' else (k, v) :: o
      | None => (k, v) :: o
      end
  end.

Definition assign {A} (k : str) (v : A) (o : list (str * A))
  : list (str * A) :=
  if mem k (List.map fst o) then put_own k v o
  else if Str.eqb k (lit "__proto__") then o
  else
    match array_index k with
    | Some i => put_index i k v o
    | None => o ++ [(k, v)]
    end.

(** The names that an object literal, or an object that [JSON.parse] or
    the database returns, inherits from [Object.prototype]. Each of them
    reads as a function, and [__proto__] as the prototype itself: all
    are truthy. *)
Definition object_prototype : list str :=
  [lit "constructor"; lit "__defineGetter__"; lit "__defineSetter__";
   lit "hasOwnProperty"; lit "__lookupGetter__"; lit "__lookupSetter__";
   lit "isPrototypeOf"; lit "propertyIsEnumerable"; lit "toString";
   lit "valueOf"; lit "__proto__"; lit "toLocaleString"].

(** [v.k]: reading a property of [null] or [undefined] throws, which is
    [None]; a property that is not there reads as [undefined]. The
    properties read by the code are never inherited ones. *)
Definition getp (v : value) (k : string) : option value :=
  match v with
  | VUndef | VNull => None
  | VObj o =>
      match obj_get (lit k) o with
      | Some x => Some x
      | None => Some VUndef
      end
  | _ => Some VUndef
  end.

(** ToBoolean *)
Definition truthy (v : value) : bool :=
  match v with
  | VUndef | VNull => false
  | VBool b => b
  | VNum n => negb (Num.is_zero n)
  | VStr s => match s with [] => false | _ => true end
  | VArr _ | VObj _ => true
  end.

(** [a || b] *)
Definition or_else (a b : value) : value := if truthy a then a else b.

(** [o[name]] as a condition: an own property counts by its value, a
    name that is not an own property by what is inherited. *)
Definition has_truthy (o : obj) (name : str) : bool :=
  match obj_get name o with
  | Some v => truthy v
  | None => mem name object_prototype
  end.

Module JSON.

Definition is_space (c : N) : bool :=
  (c =? 32) || (c =? 9) || (c =? 10) || (c =? 13).

Fixpoint skip_ws (s : str) : str :=
  match s with
  | c :: s' => if is_space c then skip_ws s' else s
  | [] => []
  end.

Definition hex4 (a b c d : N) : option N :=
  match hex_val a, hex_val b, hex_val c, hex_val d with
  | Some x, Some y, Some z, Some w => Some (((x * 16 + y) * 16 + z) * 16 + w)
  | _, _, _, _ => None
  end.

(** The character that an escape letter denotes. *)
Definition unescape (e : N) : option N :=
  if e =? 34 then Some 34
  else if e =? 92 then Some 92
  else if e =? 47 then Some 47
  else if e =? 98 then Some 8
  else if e =? 102 then Some 12
  else if e =? 110 then Some 10
  else if e =? 114 then Some 13
  else if e =? 116 then Some 9
  else None.

(** The characters of a string literal after its opening quote, up to
    the closing quote. *)
Fixpoint parse_chars (s : str) : option (str * str) :=
  match s with
  | [] => None
  | c :: r =>
      if c =? 34 then Some ([], r)
      else if c =? 92 then
        match r with
        | [] => None
        | e :: r1 =>
            if e =? 117 then
              match r1 with
              | a :: b :: c :: d :: r2 =>
                  match hex4 a b c d with
                  | Some u =>
                      match parse_chars r2 with
                      | Some (t, r3) => Some (u :: t, r3)
                      | None => None
                      end
                  | None => None
                  end
              | _ => None
              end
            else
              match unescape e with
              | Some u =>
                  match parse_chars r1 with
                  | Some (t, r2) => Some (u :: t, r2)
                  | None => None
                  end
              | None => None
              end
        end
      else if c <? 32 then None
      else
        match parse_chars r with
        | Some (t, r1) => Some (c :: t, r1)
        | None => None
        end
  end.

(** A value at the head of the text, after optional white space. The
    fuel bounds the number of nested and chained calls; [parse] gives
    more than the text can use. *)
Fixpoint parse_value (n : nat) (s : str) : option (value * str) :=
  match n with
  | O => None
  | S n' =>
      match skip_ws s with
      | [] => None
      | c :: r =>
          if c =? 123 then
            match skip_ws r with
            | [] => None
            | c1 :: r1 =>
                if c1 =? 125 then Some (VObj [], r1)
                else parse_members n' r []
            end
          else if c =? 91 then
            match skip_ws r with
            | [] => None
            | c1 :: r1 =>
                if c1 =? 93 then Some (VArr [], r1)
                else parse_elements n' r []
            end
          else if c =? 34 then
            match parse_chars r with
            | Some (t, r1) => Some (VStr t, r1)
            | None => None
            end
          else if startsWith (lit "true") (c :: r) then
            Some (VBool true, skipn 4 (c :: r))
          else if startsWith (lit "false") (c :: r) then
            Some (VBool false, skipn 5 (c :: r))
          else if startsWith (lit "null") (c :: r) then
            Some (VNull, skipn 4 (c :: r))
          else
            match Num.parse (c :: r) with
            | Some (x, r1) => Some (VNum x, r1)
            | None => None
            end
      end
  end

with parse_members (n : nat) (s : str) (acc : obj) : option (value * str) :=
  match n with
  | O => None
  | S n' =>
      match skip_ws s with
      | [] => None
      | q :: r =>
          if q =? 34 then
            match parse_chars r with
            | Some (k, r1) =>
                match skip_ws r1 with
                | [] => None
                | c :: r2 =>
                    if c =? 58 then
                      match parse_value n' r2 with
                      | Some (v, r3) =>
                          match skip_ws r3 with
                          | [] => None
                          | c1 :: r4 =>
                              if c1 =? 44 then
                                parse_members n' r4 (obj_set k v acc)
                              else if c1 =? 125 then
                                Some (VObj (obj_set k v acc), r4)
                              else None
                          end
                      | None => None
                      end
                    else None
                end
            | None => None
            end
          else None
      end
  end

with parse_elements (n : nat) (s : str) (acc : list value)
  : option (value * str) :=
  match n with
  | O => None
  | S n' =>
      match parse_value n' s with
      | Some (v, r) =>
          match skip_ws r with
          | [] => None
          | c :: r1 =>
              if c =? 44 then parse_elements n' r1 (acc ++ [v])
              else if c =? 93 then Some (VArr (acc ++ [v]), r1)
              else None
          end
      | None => None
      end
  end.

(** [JSON.parse(text)]; [None] when it throws a [SyntaxError]. *)
Definition parse (s : str) : option value :=
  match parse_value (S (S (List.length s))) s with
  | Some (v, r) => match skip_ws r with [] => Some v | _ :: _ => None end
  | None => None
  end.

Definition hex_digit (d : N) : N := if d <? 10 then 48 + d else 87 + d.

(** [\uXXXX] with lower-case digits. *)
Definition uesc (c : N) : str :=
  [92; 117; hex_digit (c / 4096); hex_digit ((c / 256) mod 16);
   hex_digit ((c / 16) mod 16); hex_digit (c mod 16)].

Definition is_high (c : N) : bool := (55296 <=? c) && (c <=? 56319).
Definition is_low (c : N) : bool := (56320 <=? c) && (c <=? 57343).

(** One code unit that is not a surrogate. *)
Definition esc1 (c : N) : str :=
  if c =? 34 then [92; 34]
  else if c =? 92 then [92; 92]
  else if c =? 8 then [92; 98]
  else if c =? 12 then [92; 102]
  else if c =? 10 then [92; 110]
  else if c =? 13 then [92; 114]
  else if c =? 9 then [92; 116]
  else if c <? 32 then uesc c
  else [c].

(** The text between the quotes of [JSON.stringify(s)]: a surrogate is
    written as it is in a pair and escaped when it stands alone.
    [after_high] tells that the code unit before was the high half of a
    pair. *)
Fixpoint escape (after_high : bool) (s : str) : str :=
  match s with
  | [] => []
  | c :: s' =>
      if is_high c && match s' with d :: _ => is_low d | [] => false end
      then c :: escape true s'
      else if is_low c && after_high then c :: escape false s'
      else if is_high c || is_low c then uesc c ++ escape false s'
      else esc1 c ++ escape false s'
  end.

Definition quote (s : str) : str := dq ++ escape false s ++ dq.

(** [JSON.stringify(v, null, 2)] below the indentation [ind]; [None]
    when the result is [undefined]. A property whose value is
    [undefined] is left out, an element that is [undefined] is written
    [null]. *)
Fixpoint stringify_at (ind : str) (v : value) : option str :=
  match v with
  | VUndef => None
  | VNull => Some (lit "null")
  | VBool true => Some (lit "true")
  | VBool false => Some (lit "false")
  | VNum n => Some (Num.to_str n)
  | VStr s => Some (quote s)
  | VArr l =>
      let ind' := ind ++ lit "  " in
      let items :=
        (fix go (l : list value) : list str :=
           match l with
           | [] => []
           | x :: l' =>
               match stringify_at ind' x with
               | Some t => t
               | None => lit "null"
               end :: go l'
           end) l in
      match items with
      | [] => Some (lit "[]")
      | _ =>
          Some (lit "[" ++ nl ++ ind' ++
                join (lit "," ++ nl ++ ind') items ++
                nl ++ ind ++ lit "]")
      end
  | VObj o =>
      let ind' := ind ++ lit "  " in
      let items :=
        (fix go (o : obj) : list str :=
           match o with
           | [] => []
           | (k, x) :: o' =>
               match stringify_at ind' x with
               | Some t => (quote k ++ lit ": " ++ t) :: go o'
               | None => go o'
               end
           end) o in
      match items with
      | [] => Some (lit "{}")
      | _ =>
          Some (lit "{" ++ nl ++ ind' ++
                join (lit "," ++ nl ++ ind') items ++
                nl ++ ind ++ lit "}")
      end
  end.

Definition stringify2 (v : value) : option str := stringify_at [] v.

(** [JSON.stringify(v)], without indentation. *)
Fixpoint stringify (v : value) : option str :=
  match v with
  | VUndef => None
  | VNull => Some (lit "null")
  | VBool true => Some (lit "true")
  | VBool false => Some (lit "false")
  | VNum n => Some (Num.to_str n)
  | VStr s => Some (quote s)
  | VArr l =>
      let items :=
        (fix go (l : list value) : list str :=
           match l with
           | [] => []
           | x :: l' =>
               match stringify x with
               | Some t => t
               | None => lit "null"
               end :: go l'
           end) l in
      Some (lit "[" ++ join (lit ",") items ++ lit "]")
  | VObj o =>
      let items :=
        (fix go (o : obj) : list str :=
           match o with
           | [] => []
           | (k, x) :: o' =>
               match stringify x with
               | Some t => (quote k ++ lit ":" ++ t) :: go o'
               | None => go o'
               end
           end) o in
      Some (lit "{" ++ join (lit ",") items ++ lit "}")
  end.

End JSON.

(* ===================================================================== *)
(** ** The story model *)
(* ===================================================================== *)

(** A passage and a story as the code holds them: the coordinates and
    the sizes of a passage are numbers of any kind. (The data model asks
    for sizes that are integers; the code stores, and writes back, the
    number that it is given.) *)
Record Passage := {
  p_name : str;
  p_content : str;
  p_tags : list str;
  p_x : num;
  p_y : num;
  p_width : num;
  p_height : num
}.

Record Story := {
  s_title : str;
  s_startPassage : str;
  s_passages : list (str * Passage);
  s_ifid : str;
  s_format : str;
  s_formatVersion : str;
  s_zoom : num;
  s_tags : str;
  s_stylesheet : str;
  s_javascript : str;
  s_tagColors : list (str * str)
}.

(** The object that holds a passage, and the one that holds a story. *)
Definition passage_value (p : Passage) : value :=
  VObj [(lit "name", VStr (p_name p));
        (lit "content", VStr (p_content p));
        (lit "tags", VArr (List.map VStr (p_tags p)));
        (lit "x", VNum (p_x p));
        (lit "y", VNum (p_y p));
        (lit "width", VNum (p_width p));
        (lit "height", VNum (p_height p))].

Definition passages_value (ps : list (str * Passage)) : value :=
  VObj (List.map (fun kp => (fst kp, passage_value (snd kp))) ps).

Definition tagColors_value (tc : list (str * str)) : value :=
  VObj (List.map (fun kc => (fst kc, VStr (snd kc))) tc).

Definition story_value (s : Story) : value :=
  VObj [(lit "title", VStr (s_title s));
        (lit "startPassage", VStr (s_startPassage s));
        (lit "passages", passages_value (s_passages s));
        (lit "ifid", VStr (s_ifid s));
        (lit "format", VStr (s_format s));
        (lit "formatVersion", VStr (s_formatVersion s));
        (lit "zoom", VNum (s_zoom s));
        (lit "tags", VStr (s_tags s));
        (lit "stylesheet", VStr (s_stylesheet s));
        (lit "javascript", VStr (s_javascript s));
        (lit "tagColors", tagColors_value (s_tagColors s))].

(** The invariants of the data model that the JSON round trip relies on:
    a title, an identifier, a start passage that is there, names that are
    not empty, one entry per name, a zoom that is not zero, and numbers
    in normal form. *)
Fixpoint distinct (l : list str) : bool :=
  match l with
  | [] => true
  | x :: l' => negb (mem x l') && distinct l'
  end.

Definition passage_ok (kp : str * Passage) : bool :=
  negb (Str.eqb (fst kp) []) &&
  Num.wf (p_x (snd kp)) && Num.wf (p_y (snd kp)) &&
  Num.wf (p_width (snd kp)) && Num.wf (p_height (snd kp)).

Definition story_ok (s : Story) : bool :=
  negb (Str.eqb (s_title s) []) &&
  negb (Str.eqb (s_ifid s) []) &&
  mem (s_startPassage s) (List.map fst (s_passages s)) &&
  forallb passage_ok (s_passages s) &&
  distinct (List.map fst (s_passages s)) &&
  distinct (List.map fst (s_tagColors s)) &&
  Num.wf (s_zoom s) && negb (Num.is_zero (s_zoom s)).

(* ===================================================================== *)
(** ** js/import-export.js: generateIFID, escapeHtml *)
(* ===================================================================== *)

Definition hex_upper (v : N) : N := if v <? 10 then 48 + v else 55 + v.

(** [rand i] is the value of the [i]-th [Math.random() * 16 | 0], a
    number below sixteen. *)
Fixpoint ifid_fill (t : str) (rand : nat -> N) (i : nat) : str :=
  match t with
  | [] => []
  | c :: t' =>
      if c =? 120 then hex_upper (rand i) :: ifid_fill t' rand (S i)
      else if c =? 121 then
        hex_upper (N.lor (N.land (rand i) 3) 8) :: ifid_fill t' rand (S i)
      else c :: ifid_fill t' rand i
  end.

Definition generateIFID (rand : nat -> N) : str :=
  ifid_fill (lit "xxxxxxxx-xxxx-4xxx-yxxx-xxxxxxxxxxxx") rand 0.

Definition escapeHtml (s : str) : str :=
  flat_map (fun c =>
    if c =? 38 then lit "&amp;"
    else if c =? 60 then lit "&lt;"
    else if c =? 62 then lit "&gt;"
    else if c =? 34 then lit "&quot;"
    else if c =? 39 then lit "&#39;"
    else [c]) s.

(** js/utils.js, [esc]: the text is made the content of a fresh element
    and the markup of that element is read back, which writes [&], [<],
    [>] and the no-break space as entities. *)
Definition esc (s : str) : str :=
  flat_map (fun c =>
    if c =? 38 then lit "&amp;"
    else if c =? 60 then lit "&lt;"
    else if c =? 62 then lit "&gt;"
    else if c =? 160 then lit "&nbsp;"
    else [c]) s.

(* ===================================================================== *)
(** ** js/import-export.js: exportAsJson, parseJson *)
(* ===================================================================== *)

(** What is handed to [download]. *)
Record download := { d_filename : str; d_content : str; d_type : str }.

Definition exportAsJson (story : Story) : option download :=
  match JSON.stringify2 (story_value story) with
  | Some json =>
      Some {| d_filename := s_title story ++ lit ".json";
              d_content := json;
              d_type := lit "application/json" |}
  | None => None
  end.

(** [data.k || d] *)
Definition getp_or (data : value) (k : string) (d : value) : value :=
  match getp data k with
  | Some x => or_else x d
  | None => d
  end.

Definition parseJson (rand : nat -> N) (content : str) : option value :=
  match JSON.parse content with
  | None => None                        (* SyntaxError, caught *)
  | Some data =>
      match getp data "title", getp data "passages" with
      | Some t, Some ps =>
          if negb (truthy t) || negb (truthy ps) then None
          else
            Some (VObj
              [(lit "title", t);
               (lit "startPassage", getp_or data "startPassage" (VStr (lit "Start")));
               (lit "passages", ps);
               (lit "ifid", getp_or data "ifid" (VStr (generateIFID rand)));
               (lit "format", getp_or data "format" (VStr []));
               (lit "formatVersion", getp_or data "formatVersion" (VStr []));
               (lit "zoom", getp_or data "zoom" (VNum (Num.of_Z 1)));
               (lit "tags", getp_or data "tags" (VStr []));
               (lit "stylesheet", getp_or data "stylesheet" (VStr []));
               (lit "javascript", getp_or data "javascript" (VStr []));
               (lit "tagColors", getp_or data "tagColors" (VObj []))])
      | _, _ => None                    (* TypeError, caught *)
      end
  end.

(* ===================================================================== *)
(** ** js/import-export.js: generateTwee *)
(* ===================================================================== *)

(** [n || d] on numbers. *)
Definition num_or (n d : num) : num := if Num.is_zero n then d else n.
Definition str_or (s d : str) : str := match s with [] => d | _ => s end.

(** The [StoryData] object. *)
Definition twee_storyData (rand : nat -> N) (story : Story) : value :=
  let storyData :=
    [(lit "ifid", VStr (str_or (s_ifid story) (generateIFID rand)));
     (lit "format", VStr (str_or (s_format story) (lit "Harlowe")));
     (lit "format-version", VStr (str_or (s_formatVersion story) (lit "3.3.9")));
     (lit "start", VStr (str_or (s_startPassage story) (lit "Start")));
     (lit "zoom", VNum (num_or (s_zoom story) (Num.of_Z 1)))] in
  match s_tagColors story with
  | [] => VObj storyData
  | _ :: _ =>
      VObj (obj_set (lit "tag-colors") (tagColors_value (s_tagColors story))
              storyData)
  end.

(** The text of an integer in a template literal. *)
Definition int_text (z : Z) : str := Num.to_str (Num.of_Z z).

(** [Math.round(v || 100)], and the text of [v || 100] in a template
    literal. *)
Definition round_or_100 (v : num) : Z := Num.round (num_or v (Num.of_Z 100)).
Definition size_text (v : num) : str := Num.to_str (num_or v (Num.of_Z 100)).

(** The text that the loop over [Object.values(passages)] appends for
    one passage. *)
Definition twee_block (p : Passage) : str :=
  let tags :=
    match p_tags p with
    | [] => []
    | _ :: _ => lit " [" ++ join (lit " ") (p_tags p) ++ lit "]"
    end in
  let position :=
    litq "{`position`:`" ++
    int_text (round_or_100 (p_x p)) ++ lit "," ++
    int_text (round_or_100 (p_y p)) ++
    litq "`,`size`:`" ++
    size_text (p_width p) ++ lit "," ++
    size_text (p_height p) ++
    litq "`}" in
  lit ":: " ++ p_name p ++ tags ++ lit " " ++ position ++ nl ++
  p_content p ++ nl ++ nl.

Definition generateTwee (rand : nat -> N) (story : Story) : str :=
  let output := [] in
  let output := output ++ lit ":: StoryTitle" ++ nl ++ s_title story ++ nl ++ nl in
  let output :=
    output ++ lit ":: StoryData" ++ nl ++
    match JSON.stringify2 (twee_storyData rand story) with
    | Some t => t
    | None => lit "undefined"
    end ++ nl ++ nl in
  let output :=
    match s_stylesheet story with
    | [] => output
    | _ :: _ =>
        output ++ lit ":: UserStylesheet [stylesheet]" ++ nl ++
        s_stylesheet story ++ nl ++ nl
    end in
  let output :=
    match s_javascript story with
    | [] => output
    | _ :: _ =>
        output ++ lit ":: UserScript [script]" ++ nl ++
        s_javascript story ++ nl ++ nl
    end in
  let output :=
    fold_left (fun out p => out ++ twee_block p)
      (List.map snd (s_passages story)) output in
  trim output.

(* ===================================================================== *)
(** ** js/import-export.js: parseTwee *)
(* ===================================================================== *)

Module Twee.

(** [currentPassage]: [null], or an object whose [type] is one of
    [title], [storydata], [stylesheet], [script] and [passage]. *)
Inductive current :=
| CNull
| CTitle
| CStoryData (jsonContent : str)
| CStylesheet
| CScript
| CPassage (name : str) (tags : list str) (x y width height : Z)
    (content : str).

(** The variables of [parseTwee]. *)
Record state := {
  passages : obj;
  currentPassage : current;
  title : str;
  startPassage : value;
  ifid : value;
  format : value;
  formatVersion : value;
  zoom : value;
  tagColors : value;
  stylesheet : str;
  javascript : str;
  passageIndex : nat
}.

Definition init (rand : nat -> N) : state :=
  {| passages := []; currentPassage := CNull;
     title := lit "Imported Story";
     startPassage := VStr (lit "Start");
     ifid := VStr (generateIFID rand);
     format := VStr []; formatVersion := VStr [];
     zoom := VNum (Num.of_Z 1); tagColors := VObj [];
     stylesheet := []; javascript := []; passageIndex := 0 |}.

Definition set_passages (st : state) (ps : obj) : state :=
  {| passages := ps; currentPassage := currentPassage st;
     title := title st; startPassage := startPassage st; ifid := ifid st;
     format := format st; formatVersion := formatVersion st;
     zoom := zoom st; tagColors := tagColors st;
     stylesheet := stylesheet st; javascript := javascript st;
     passageIndex := passageIndex st |}.

Definition set_current (st : state) (c : current) : state :=
  {| passages := passages st; currentPassage := c;
     title := title st; startPassage := startPassage st; ifid := ifid st;
     format := format st; formatVersion := formatVersion st;
     zoom := zoom st; tagColors := tagColors st;
     stylesheet := stylesheet st; javascript := javascript st;
     passageIndex := passageIndex st |}.

Definition saved_passage (name : str) (tags : list str)
  (x y width height : Z) (content : str) : value :=
  VObj [(lit "name", VStr name);
        (lit "content", VStr (trim content));
        (lit "tags", VArr (List.map VStr tags));
        (lit "x", VNum (Num.of_Z x));
        (lit "y", VNum (Num.of_Z y));
        (lit "width", VNum (Num.of_Z width));
        (lit "height", VNum (Num.of_Z height))].

(** [passages[currentPassage.name] = {...}]: an assignment to any name,
    which adds no property for the name [__proto__]. *)
Definition saveCurrentPassage (st : state) : state :=
  match currentPassage st with
  | CPassage name tags x y width height content =>
      set_passages st
        (assign name (saved_passage name tags x y width height content)
           (passages st))
  | _ => st
  end.

(** The pattern of a header line. Its anchor at the head is the match
    being tried at the head of the line only. *)
Definition header : regex :=
  Cats [Lit "::";                                   (* ^:: *)
        Star true is_ws;                            (* \s* *)
        Grp 1 (Plus false dot);                     (* (.+?) *)
        Star true is_ws;                            (* \s* *)
        Opt (Cats [Lit "[";                         (* (?:\[ *)
                   Grp 2 (Star true (noneof "]"));  (* ([^\]]* ) *)
                   Lit "]"]);                       (* \])? *)
        Star true is_ws;                            (* \s* *)
        Opt (Grp 3 (Cats [Lit "{";                  (* (\{ *)
                          Star true dot;            (* .* *)
                          Lit "}"]));               (* \})? *)
        Star true is_ws;                            (* \s* *)
        Eol].                                       (* $ *)

Definition headerMatch (line : str) : option found := match_here header line.

(** [parseInt(t) || d], for a piece [t] of a split text that may be
    missing. *)
Definition int_or (t : option str) (d : Z) : Z :=
  match t with
  | Some t' =>
      match parseInt t' with
      | Some z => if (z =? 0)%Z then d else z
      | None => d
      end
  | None => d
  end.

(** The grid position of the passage number [i]. *)
Definition grid_x (i : nat) : Z := 100 + Z.of_nat (i mod 5) * 200.
Definition grid_y (i : nat) : Z := 100 + Z.of_nat (i / 5) * 150.

(** The [try] block that reads the metadata: the coordinates and the
    size after it, starting from [(x, y, width, height)]. A [position]
    or [size] that is there but is no text makes [split] throw, and what
    was assigned before stays. *)
Definition read_metadata (metadataStr : str) (x y width height : Z)
  : Z * Z * Z * Z :=
  match JSON.parse metadataStr with
  | None => (x, y, width, height)
  | Some metadata =>
      match getp metadata "position" with
      | None => (x, y, width, height)
      | Some pos =>
          let after_position :=
            if truthy pos then
              match pos with
              | VStr t =>
                  let parts := split (lit ",") t in
                  Some (int_or (nth_error parts 0) x,
                        int_or (nth_error parts 1) y)
              | _ => None
              end
            else Some (x, y) in
          match after_position with
          | None => (x, y, width, height)
          | Some (x1, y1) =>
              match getp metadata "size" with
              | None => (x1, y1, width, height)
              | Some sz =>
                  if truthy sz then
                    match sz with
                    | VStr t =>
                        let parts := split (lit ",") t in
                        (x1, y1, int_or (nth_error parts 0) width,
                         int_or (nth_error parts 1) height)
                    | _ => (x1, y1, width, height)
                    end
                  else (x1, y1, width, height)
              end
          end
      end
  end.

Definition nonempty (t : str) : bool :=
  match t with [] => false | _ :: _ => true end.

(** What a header line gives: the name, the tags, and the coordinates
    of the passage number [i]. *)
Definition header_name (m : found) : str := trim (group 1 m).

Definition header_tags (m : found) : list str :=
  match cap 2 (m_caps m) with
  | Some ((_ :: _) as t) => filter nonempty (split (lit " ") t)
  | _ => []
  end.

Definition header_coords (i : nat) (m : found) : Z * Z * Z * Z :=
  match cap 3 (m_caps m) with
  | Some ((_ :: _) as metadataStr) =>
      read_metadata metadataStr (grid_x i) (grid_y i) 100 100
  | _ => (grid_x i, grid_y i, 100%Z, 100%Z)
  end.

(** The branch of the loop for a line that is a header. *)
Definition on_header (st : state) (m : found) : state :=
  let st := saveCurrentPassage st in
  let passageName := header_name m in
  let tags := header_tags m in
  let '(x, y, width, height) := header_coords (passageIndex st) m in
  if Str.eqb passageName (lit "StoryTitle") then set_current st CTitle
  else if Str.eqb passageName (lit "StoryData") then
    set_current st (CStoryData [])
  else if mem (lit "stylesheet") tags then set_current st CStylesheet
  else if mem (lit "script") tags then set_current st CScript
  else
    {| passages := passages st;
       currentPassage := CPassage passageName tags x y width height [];
       title := title st; startPassage := startPassage st; ifid := ifid st;
       format := format st; formatVersion := formatVersion st;
       zoom := zoom st; tagColors := tagColors st;
       stylesheet := stylesheet st; javascript := javascript st;
       passageIndex := S (passageIndex st) |}.

(** A header that starts an ordinary passage: not [StoryTitle], not
    [StoryData], and no [stylesheet] or [script] tag. *)
Definition ordinary (m : found) : bool :=
  negb (Str.eqb (header_name m) (lit "StoryTitle")) &&
  negb (Str.eqb (header_name m) (lit "StoryData")) &&
  negb (mem (lit "stylesheet") (header_tags m)) &&
  negb (mem (lit "script") (header_tags m)).

Definition ordinary_line (line : str) : bool :=
  match headerMatch line with
  | Some m => ordinary m
  | None => false
  end.

Definition is_header (line : str) : bool :=
  match headerMatch line with Some _ => true | None => false end.

(** The branch of the loop for any other line. *)
Definition on_content (st : state) (line : str) : state :=
  match currentPassage st with
  | CNull => st
  | CTitle =>
      match trim line with
      | [] => st
      | t =>
          {| passages := passages st; currentPassage := currentPassage st;
             title := t; startPassage := startPassage st; ifid := ifid st;
             format := format st; formatVersion := formatVersion st;
             zoom := zoom st; tagColors := tagColors st;
             stylesheet := stylesheet st; javascript := javascript st;
             passageIndex := passageIndex st |}
      end
  | CStoryData jsonContent =>
      let jsonContent := jsonContent ++ line ++ nl in
      let st := set_current st (CStoryData jsonContent) in
      match JSON.parse jsonContent with
      | None => st
      | Some data =>
          match getp data "ifid" with
          | None => st
          | Some _ =>
              {| passages := passages st;
                 currentPassage := currentPassage st;
                 title := title st;
                 startPassage := getp_or data "start" (startPassage st);
                 ifid := getp_or data "ifid" (ifid st);
                 format := getp_or data "format" (format st);
                 formatVersion :=
                   getp_or data "format-version" (formatVersion st);
                 zoom := getp_or data "zoom" (zoom st);
                 tagColors := getp_or data "tag-colors" (tagColors st);
                 stylesheet := stylesheet st; javascript := javascript st;
                 passageIndex := passageIndex st |}
          end
      end
  | CStylesheet =>
      {| passages := passages st; currentPassage := currentPassage st;
         title := title st; startPassage := startPassage st;
         ifid := ifid st; format := format st;
         formatVersion := formatVersion st; zoom := zoom st;
         tagColors := tagColors st;
         stylesheet := stylesheet st ++ line ++ nl;
         javascript := javascript st; passageIndex := passageIndex st |}
  | CScript =>
      {| passages := passages st; currentPassage := currentPassage st;
         title := title st; startPassage := startPassage st;
         ifid := ifid st; format := format st;
         formatVersion := formatVersion st; zoom := zoom st;
         tagColors := tagColors st; stylesheet := stylesheet st;
         javascript := javascript st ++ line ++ nl;
         passageIndex := passageIndex st |}
  | CPassage name tags x y width height content =>
      set_current st
        (CPassage name tags x y width height
           (content ++ match content with [] => [] | _ :: _ => nl end ++ line))
  end.

(** One turn of the loop. *)
Definition step (st : state) (line : str) : state :=
  match headerMatch line with
  | Some m => on_header st m
  | None => on_content st line
  end.

Definition run_lines (st : state) (lines : list str) : state :=
  fold_left step lines st.

Definition result (st : state) : option value :=
  let st := saveCurrentPassage st in
  match passages st with
  | [] => None
  | _ :: _ =>
      Some (VObj
        [(lit "title", VStr (title st));
         (lit "startPassage", startPassage st);
         (lit "passages", VObj (passages st));
         (lit "ifid", ifid st);
         (lit "format", format st);
         (lit "formatVersion", formatVersion st);
         (lit "zoom", zoom st);
         (lit "tags", VStr []);
         (lit "stylesheet", VStr (trim (stylesheet st)));
         (lit "javascript", VStr (trim (javascript st)));
         (lit "tagColors", tagColors st)])
  end.

End Twee.

Definition parseTwee (rand : nat -> N) (content : str) : option value :=
  let lines := split nl content in
  Twee.result (Twee.run_lines (Twee.init rand) lines).

(* ===================================================================== *)
(** ** js/import-export.js: parseFile *)
(* ===================================================================== *)

Section Detect.

(** [parseTwine] reads the archive format through the document parser
    of the browser; [parseFile] is studied for any such reader. *)
Variable parseTwine : str -> option value.
Variable rand : nat -> N.

(** [filename.toLowerCase().split('.').pop()] *)
Definition file_ext (filename : str) : str :=
  last (split (lit ".") (toLowerCase filename)) [].

(** The second half of [parseFile]: detection from the content. *)
Definition sniff (content : str) : option value :=
  if startsWith (lit "{") (trim content) then parseJson rand content
  else if includes (lit "<tw-storydata") content then parseTwine content
  else if includes (lit "::") content then parseTwee rand content
  else None.

Definition parseFile (content filename : str) : option value :=
  let ext := file_ext filename in
  if Str.eqb ext (lit "json") then parseJson rand content
  else if Str.eqb ext (lit "twee") || Str.eqb ext (lit "tw") then
    parseTwee rand content
  else if Str.eqb ext (lit "html") || Str.eqb ext (lit "htm") then
    match parseTwine content with
    | Some twineResult => Some twineResult
    | None => None
    end
  else sniff content.

(** The dispatch as the specification words it: the parser that the
    extension hints at, and the detection from the content when there is
    no hint or when the hinted parser gives no result. *)
Definition hinted (filename : str) : option (str -> option value) :=
  let ext := file_ext filename in
  if Str.eqb ext (lit "json") then Some (parseJson rand)
  else if Str.eqb ext (lit "twee") || Str.eqb ext (lit "tw") then
    Some (parseTwee rand)
  else if Str.eqb ext (lit "html") || Str.eqb ext (lit "htm") then
    Some parseTwine
  else None.

Definition parseFile_spec (content filename : str) : option value :=
  match hinted filename with
  | Some parser =>
      match parser content with
      | Some story => Some story
      | None => sniff content
      end
  | None => sniff content
  end.

End Detect.

(* ===================================================================== *)
(** ** js/app.js: the passage editor *)
(* ===================================================================== *)

Module App.

(** The fields of [currentStory] that the handlers read and write. *)
Record story := { passages : obj; startPassage : value }.

(** [v === s] for a text [s]. *)
Definition is_str (v : value) (s : str) : bool :=
  match v with VStr t => Str.eqb t s | _ => false end.

(** *** The click handler of [deletePassageBtn] *)

Inductive delete_result :=
| DeleteIgnored        (* not the owner, or no passage selected *)
| LastPassage          (* the toast "Cannot delete the only passage" *)
| DeleteCancelled      (* the confirmation was declined *)
| Deleted (newStart : option str)
                       (* [StoryDB.deletePassage(id, selected, newStart)] *)
| DeleteError.         (* the database call was rejected *)

Definition deletePassageClick (owner : bool) (selectedPassage : option str)
  (confirmed db_ok : bool) (currentStory : story) : story * delete_result :=
  if negb owner then (currentStory, DeleteIgnored)
  else
    match selectedPassage with
    | None | Some [] => (currentStory, DeleteIgnored)
    | Some selected =>
        if (List.length (obj_keys (passages currentStory)) <=? 1)%nat
        then (currentStory, LastPassage)
        else if negb confirmed then (currentStory, DeleteCancelled)
        else
          let newStart :=
            if is_str (startPassage currentStory) selected
            then find (fun n => negb (Str.eqb n selected))
                   (obj_keys (passages currentStory))
            else None in
          if negb db_ok then (currentStory, DeleteError)
          else
            ({| passages := obj_delete selected (passages currentStory);
                startPassage :=
                  match newStart with
                  | Some n => VStr n
                  | None => startPassage currentStory
                  end |},
             Deleted newStart)
    end.

(** *** closePassageEditor *)

(** The three patterns that rewrite the references to a renamed
    passage. *)
Definition rename_bar : regex :=          (* \[\[([^\]]*?)\|([^\]]*?)\]\] *)
  Cats [Lit "[["; Grp 1 (Star false (noneof "]")); Lit "|";
        Grp 2 (Star false (noneof "]")); Lit "]]"].

Definition rename_arrow : regex :=        (* \[\[([^\]]*?)->([^\]]*?)\]\] *)
  Cats [Lit "[["; Grp 1 (Star false (noneof "]")); Lit "->";
        Grp 2 (Star false (noneof "]")); Lit "]]"].

Definition rename_bare : regex :=         (* \[\[([^\]|>]*?)\]\] *)
  Cats [Lit "[["; Grp 1 (Star false (noneof "]|>")); Lit "]]"].

(** The three [replace] calls on the content of one passage. *)
Definition rewrite_links (oldName newName content : str) : str :=
  let content :=
    replace rename_bar
      (fun m =>
         if Str.eqb (trim (group 2 m)) oldName
         then lit "[[" ++ group 1 m ++ lit "|" ++ newName ++ lit "]]"
         else m_text m) content in
  let content :=
    replace rename_arrow
      (fun m =>
         if Str.eqb (trim (group 2 m)) oldName
         then lit "[[" ++ group 1 m ++ lit "->" ++ newName ++ lit "]]"
         else m_text m) content in
  replace rename_bare
    (fun m =>
       if Str.eqb (trim (group 1 m)) oldName
       then lit "[[" ++ newName ++ lit "]]"
       else m_text m) content.

(** The body of the loop over [Object.values(passages)]; [None] when it
    throws. *)
Definition rewrite_passage (oldName newName : str) (p : value)
  : option value :=
  match getp p "name" with
  | None => None
  | Some name =>
      if is_str name newName then Some p
      else
        match getp p "content" with
        | None => None
        | Some c =>
            if negb (truthy c) then Some p
            else
              match c, p with
              | VStr content, VObj o =>
                  Some (VObj (obj_set (lit "content")
                                (VStr (rewrite_links oldName newName content))
                                o))
              | _, _ => None
              end
        end
  end.

Fixpoint rewrite_all (oldName newName : str) (ps : obj) : option obj :=
  match ps with
  | [] => Some []
  | (k, p) :: ps' =>
      match rewrite_passage oldName newName p with
      | None => None
      | Some p' =>
          match rewrite_all oldName newName ps' with
          | None => None
          | Some r => Some ((k, p') :: r)
          end
      end
  end.

(** js/utils.js, [deepClone]; [None] when it throws. *)
Definition deepClone (v : value) : option value :=
  match JSON.stringify v with
  | Some t => JSON.parse t
  | None => None
  end.

(** The own properties that the spread of [v] copies. *)
Definition spread (v : option value) : obj :=
  match v with
  | Some (VObj o) => o
  | _ => []
  end.

Inductive close_result :=
| Closed                (* nothing to save: no selection, or not the owner *)
| InvalidName (message : str)
| NameCollision
| Renamed               (* [StoryDB.setPassages] resolved *)
| ContentSaved          (* [StoryDB.updatePassage] resolved *)
| SaveError.            (* something in the [try] block threw *)

(** [selectedPassage] is the passage that the editor shows. The check
    for a collision, [currentStory.passages[newName]], reads the name
    through the prototype; the passage of the old name is read from the
    copy, where a name that is no own property gives nothing to spread;
    the renamed passage is assigned under the new name, which the check
    of the name has told from [__proto__]. *)
Definition closePassageEditor (owner : bool) (selectedPassage : option str)
  (passageNameInput passageContentInput : str) (db_ok : bool)
  (currentStory : story) : story * close_result :=
  match selectedPassage with
  | None | Some [] => (currentStory, Closed)
  | Some oldName =>
      if negb owner then (currentStory, Closed)
      else
        let newName := str_or (trim passageNameInput) oldName in
        let content := passageContentInput in
        let renaming := negb (Str.eqb newName oldName) in
        match (if renaming then validatePassageName newName else None) with
        | Some nameError => (currentStory, InvalidName nameError)
        | None =>
            if renaming then
              if has_truthy (passages currentStory) newName
              then (currentStory, NameCollision)
              else
                match deepClone (VObj (passages currentStory)) with
                | Some (VObj passages) =>
                    let passage := obj_get oldName passages in
                    let passages := obj_delete oldName passages in
                    let passages :=
                      assign newName
                        (VObj (obj_set (lit "content") (VStr content)
                                 (obj_set (lit "name") (VStr newName)
                                    (spread passage))))
                        passages in
                    match rewrite_all oldName newName passages with
                    | None => (currentStory, SaveError)
                    | Some passages =>
                        let startPassage :=
                          if is_str (startPassage currentStory) oldName
                          then VStr newName
                          else startPassage currentStory in
                        if negb db_ok then (currentStory, SaveError)
                        else ({| passages := passages;
                                 startPassage := startPassage |}, Renamed)
                    end
                | _ => (currentStory, SaveError)
                end
            else
              if negb db_ok then (currentStory, SaveError)
              else
                match obj_get oldName (passages currentStory) with
                | Some (VObj o) =>
                    ({| passages :=
                          obj_set oldName
                            (VObj (obj_set (lit "content") (VStr content) o))
                            (passages currentStory);
                        startPassage := startPassage currentStory |},
                     ContentSaved)
                | _ => (currentStory, SaveError)
                end
        end
  end.

End App.

(* ===================================================================== *)
(** ** js/import-export.js: generatePlayableHtml *)
(* ===================================================================== *)

Module Playable.

(** [/<\/script>/gi] *)
Definition ci (c : N) : N -> bool := fun x => lower x =? lower c.
Definition closing_script : regex :=
  fold_right (fun c r => Cat (Chr (ci c)) r) Eps (lit "</script>").

Definition passagesJson (story : Story) : str :=
  match JSON.stringify (passages_value (s_passages story)) with
  | Some t => replace closing_script (fun _ => lit "<\/script>") t
  | None => lit "undefined"
  end.

(** The text of the document, in the pieces between which the template
    puts the title, the passages, the start passage and the title
    again. *)
Definition head_1 : str := litq
"<!DOCTYPE html>
<html lang=`en`>
<head>
<meta charset=`UTF-8`>
<meta name=`viewport` content=`width=device-width, initial-scale=1.0`>
<title>".

Definition head_2 : str := litq
"</title>
<style>
* { margin: 0; padding: 0; box-sizing: border-box; }
body {
    font-family: Georgia, 'Times New Roman', serif;
    background: linear-gradient(135deg, #1e1e3f 0%, #151529 100%);
    color: #e8e8f0;
    min-height: 100vh;
    display: flex;
    align-items: center;
    justify-content: center;
    padding: 2rem;
}
#story {
    max-width: 650px;
    background: rgba(45, 45, 90, 0.5);
    backdrop-filter: blur(10px);
    padding: 3rem;
    border-radius: 16px;
    border: 1px solid rgba(139, 92, 246, 0.3);
    line-height: 1.9;
    font-size: 1.15rem;
    box-shadow: 0 20px 60px rgba(0, 0, 0, 0.4);
}
#story p { margin-bottom: 1.25rem; }
.link {
    color: #a78bfa;
    cursor: pointer;
    text-decoration: underline;
    text-underline-offset: 3px;
    transition: color 0.15s;
}
.link:hover { color: #c4b5fd; }
h1 {
    font-size: 1.75rem;
    margin-bottom: 2rem;
    color: #a78bfa;
    font-weight: normal;
}
</style>
</head>
<body>
<div id=`story`></div>
<script>
const passages = ".

Definition script_1 : str := litq
";
const startPassage = `".

Definition script_2 : str := litq
"`;

function showPassage(name) {
    const p = passages[name];
    if (!p) {
        document.getElementById('story').innerHTML = '<p>Passage not found: ' + name + '</p>';
        return;
    }

    let content = p.content || '';

    // Handle [[Display Text->Target]] syntax
    content = content.replace(/\[\[([^\]]+)->([^\]]+)\]\]/g, (match, display, target) => {
        return '<span class=`link` onclick=`showPassage(\'' + target.trim().replace(/'/g, `\\'`) + '\')`>' + display.trim() + '</span>';
    });

    // Handle [[Display Text|Target]] syntax
    content = content.replace(/\[\[([^\]|]+)\|([^\]]+)\]\]/g, (match, display, target) => {
        return '<span class=`link` onclick=`showPassage(\'' + target.trim().replace(/'/g, `\\'`) + '\')`>' + display.trim() + '</span>';
    });

    // Handle [[Target]] syntax (simple links)
    content = content.replace(/\[\[([^\]|>]+)\]\]/g, (match, target) => {
        return '<span class=`link` onclick=`showPassage(\'' + target.trim().replace(/'/g, `\\'`) + '\')`>' + target.trim() + '</span>';
    });

    content = content.split('\n\n').map(p => '<p>' + p.replace(/\n/g, '<br>') + '</p>').join('');
    document.getElementById('story').innerHTML = '<h1>".

Definition script_3 : str := litq
"</h1>' + content;
}

showPassage(startPassage);
</script>
</body>
</html>".

Definition generatePlayableHtml (story : Story) : str :=
  head_1 ++ esc (s_title story) ++ head_2 ++
  passagesJson story ++ script_1 ++
  str_or (s_startPassage story) (lit "Start") ++ script_2 ++
  esc (s_title story) ++ script_3.

(** *** The script of the document

    [showPassage] below is the function of that name in the text above,
    run on the value of [passages]; its result is the markup that it
    assigns to the [innerHTML] of the story element, [None] when it
    throws. [heading] is the value of the literal that holds the
    title. *)

Definition rt_arrow : regex :=            (* \[\[([^\]]+)->([^\]]+)\]\] *)
  Cats [Lit "[["; Grp 1 (Plus true (noneof "]")); Lit "->";
        Grp 2 (Plus true (noneof "]")); Lit "]]"].

Definition rt_bar : regex :=              (* \[\[([^\]|]+)\|([^\]]+)\]\] *)
  Cats [Lit "[["; Grp 1 (Plus true (noneof "]|")); Lit "|";
        Grp 2 (Plus true (noneof "]")); Lit "]]"].

Definition rt_bare : regex :=             (* \[\[([^\]|>]+)\]\] *)
  Cats [Lit "[["; Grp 1 (Plus true (noneof "]|>")); Lit "]]"].

Definition span (target display : str) : str :=
  litq "<span class=`link` onclick=`showPassage('" ++
  replace (Lit "'") (fun _ => lit "\'") (trim target) ++
  litq "')`>" ++ trim display ++ lit "</span>".

(** [content.split('\n\n').map(...).join('')] *)
Definition paragraphs (content : str) : str :=
  List.concat
    (List.map
       (fun p => lit "<p>" ++ replace (Lit_ nl) (fun _ => lit "<br>") p ++
                 lit "</p>")
       (split (nl ++ nl) content)).

(** What reading a name of [Object.prototype] gives: a function, or the
    prototype itself, each of them truthy and with no property
    [content]. The object without properties stands for it. *)
Definition inherited (name : str) : value :=
  if mem name object_prototype then VObj [] else VUndef.

(** [passages[name]] in the script, where [passages] is the value of an
    object literal whose members are passage objects. The members are
    its own properties, except a member [__proto__], which the literal
    makes the prototype: reading [__proto__] gives that member, and a
    name that is no member is looked up in it, then in
    [Object.prototype]. *)
Definition read_passage (o : obj) (name : str) : value :=
  match obj_get name o with
  | Some x => x
  | None =>
      match obj_get (lit "__proto__") o with
      | Some (VObj proto) =>
          match obj_get name proto with
          | Some x => x
          | None => inherited name
          end
      | _ => inherited name
      end
  end.

Definition showPassage (passages : value) (heading : str) (name : str)
  : option str :=
  let p :=
    match passages with
    | VObj o => read_passage o name
    | _ => VUndef
    end in
  if negb (truthy p) then
    Some (lit "<p>Passage not found: " ++ name ++ lit "</p>")
  else
    match getp_or p "content" (VStr []) with
    | VStr content =>
        let content :=
          replace rt_arrow (fun m => span (group 2 m) (group 1 m)) content in
        let content :=
          replace rt_bar (fun m => span (group 2 m) (group 1 m)) content in
        let content :=
          replace rt_bare (fun m => span (group 1 m) (group 1 m)) content in
        Some (heading ++ paragraphs content)
    | _ => None
    end.

(** The text that a string literal between the quotes [q] denotes, for
    a text with no quote, no backslash and no line break in it, which
    the literal denotes as it is. *)
Definition literal_value (q : N) (t : str) : option str :=
  if existsb (fun c => (c =? q) || (c =? 92) || (c =? 10) || (c =? 13) ||
                       (c =? 8232) || (c =? 8233)) t
  then None else Some t.

(** What the document shows when it is opened: the script reads back
    the passages, the start passage and the heading from its own text
    and calls [showPassage(startPassage)]. *)
Definition opened (story : Story) : option str :=
  match JSON.parse (passagesJson story),
        literal_value 34 (str_or (s_startPassage story) (lit "Start")),
        literal_value 39 (lit "<h1>" ++ esc (s_title story) ++ lit "</h1>")
  with
  | Some passages, Some startPassage, Some heading =>
      showPassage passages heading startPassage
  | _, _, _ => None
  end.

(** What the specification asks of the document: the content of the
    passage is escaped before the markers are rewritten, and the arrow is
    then looked for in its escaped form. This is [StoryPlayer.play] of
    js/renderer.js, which shows a passage inside the editor. *)
Definition play_link (inner : str) : str :=
  let '(display, target) :=
    if includes (lit "-&gt;") inner then
      let parts := List.map trim (split (lit "-&gt;") inner) in
      (nth 0 parts [], nth 1 parts [])
    else if includes (lit "|") inner then
      let parts := List.map trim (split (lit "|") inner) in
      (nth 0 parts [], nth 1 parts [])
    else (trim inner, trim inner) in
  litq "<span class=`story-link` data-target=`" ++
  replace (Lit_ dq) (fun _ => lit "&quot;") target ++
  litq "`>" ++ display ++ lit "</span>".

(** [passages[passageName]] is a passage of the story, or, for a name of
    [Object.prototype] that is the name of no passage, an inherited
    member, which is truthy and has no [content]. *)
Definition play (story : Story) (passageName : str) : str :=
  let shown (text : str) :=
    let content := esc text in
    let content :=
      replace link_marker (fun m => play_link (group 1 m)) content in
    lit "<h1>" ++ esc (s_title story) ++ lit "</h1>" ++ paragraphs content in
  match find (fun kp => Str.eqb (fst kp) passageName) (s_passages story) with
  | Some (_, passage) => shown (p_content passage)
  | None =>
      if mem passageName object_prototype then shown []
      else lit "<p>Passage not found: " ++ esc passageName ++ lit "</p>"
  end.

End Playable.

(* ===================================================================== *)
(** ** Values that JSON text can hold *)
(* ===================================================================== *)

(** A value with no [undefined] in it, whose numbers are in normal form
    and whose objects have one property per key: what [JSON.parse]
    returns. *)
Fixpoint wf_value (v : value) : bool :=
  match v with
  | VUndef => false
  | VNull | VBool _ | VStr _ => true
  | VNum n => Num.wf n
  | VArr l =>
      (fix all (l : list value) : bool :=
         match l with
         | [] => true
         | x :: l' => wf_value x && all l'
         end) l
  | VObj o =>
      distinct (List.map fst o) &&
      (fix all (o : obj) : bool :=
         match o with
         | [] => true
         | (_, x) :: o' => wf_value x && all o'
         end) o
  end.

(** The induction principle of values, with the hypotheses on the
    elements of an array and on the property values of an object. *)
Fixpoint value_induction (P : value -> Prop)
  (Hundef : P VUndef) (Hnull : P VNull)
  (Hbool : forall b, P (VBool b)) (Hnum : forall n, P (VNum n))
  (Hstr : forall s, P (VStr s))
  (Harr : forall l, Forall P l -> P (VArr l))
  (Hobj : forall o, Forall (fun kv => P (snd kv)) o -> P (VObj o))
  (v : value) {struct v} : P v :=
  let rec := value_induction P Hundef Hnull Hbool Hnum Hstr Harr Hobj in
  match v with
  | VUndef => Hundef
  | VNull => Hnull
  | VBool b => Hbool b
  | VNum n => Hnum n
  | VStr s => Hstr s
  | VArr l =>
      Harr l
        ((fix go (l : list value) : Forall P l :=
            match l with
            | [] => Forall_nil P
            | x :: l' => Forall_cons x (rec x) (go l')
            end) l)
  | VObj o =>
      Hobj o
        ((fix go (o : obj) : Forall (fun kv => P (snd kv)) o :=
            match o with
            | [] => Forall_nil _
            | kv :: o' =>
                Forall_cons (P := fun kv => P (snd kv)) kv (rec (snd kv)) (go o')
            end) o)
  end.

(** The texts of the elements of an array and of the properties of an
    object, as [JSON.stringify(v, null, 2)] writes them one level
    deeper. *)
Fixpoint array_items (ind : str) (l : list value) : list str :=
  match l with
  | [] => []
  | x :: l' =>
      match JSON.stringify_at ind x with
      | Some t => t
      | None => lit "null"
      end :: array_items ind l'
  end.

Fixpoint object_items (ind : str) (o : obj) : list str :=
  match o with
  | [] => []
  | (k, x) :: o' =>
      match JSON.stringify_at ind x with
      | Some t => (JSON.quote k ++ lit ": " ++ t) :: object_items ind o'
      | None => object_items ind o'
      end
  end.

(* ===================================================================== *)
(** ** Notions used in the statements and in the proofs *)
(* ===================================================================== *)

(** The characters that the class of [invalid_chars] holds. *)
Definition invalid_set : str := lit "[]{}#$/".

Definition marker (inner : str) : str := lit "[[" ++ inner ++ lit "]]".

Abbreviation arrow := [45; 62] (only parsing).
Abbreviation bar := [124] (only parsing).

Definition two_passages : App.story :=
  {| App.passages :=
       [(lit "Start", passage_value
           {| p_name := lit "Start"; p_content := lit "Go: [[Cave]]";
              p_tags := []; p_x := Num.of_Z 100; p_y := Num.of_Z 100;
              p_width := Num.of_Z 100; p_height := Num.of_Z 100 |});
        (lit "Cave", passage_value
           {| p_name := lit "Cave"; p_content := lit "Dark.";
              p_tags := []; p_x := Num.of_Z 300; p_y := Num.of_Z 100;
              p_width := Num.of_Z 100; p_height := Num.of_Z 100 |})];
     App.startPassage := VStr (lit "Start") |}.

Definition rename_story : App.story :=
  {| App.passages :=
       [(lit "Old", VObj [(lit "name", VStr (lit "Old"));
                          (lit "content", VStr (lit "An old room."))]);
        (lit "Hall", VObj [(lit "name", VStr (lit "Hall"));
                           (lit "content", VStr (lit "[[a->b|Old]]"))])];
     App.startPassage := VStr (lit "Hall") |}.

Definition markup_story : Story :=
  {| s_title := lit "T"; s_startPassage := lit "Start";
     s_passages :=
       [(lit "Start",
         {| p_name := lit "Start";
            p_content := lit "<img src=x onerror=alert(1)>";
            p_tags := []; p_x := Num.of_Z 100; p_y := Num.of_Z 100;
            p_width := Num.of_Z 100; p_height := Num.of_Z 100 |})];
     s_ifid := lit "0"; s_format := []; s_formatVersion := [];
     s_zoom := Num.of_Z 1; s_tags := []; s_stylesheet := [];
     s_javascript := []; s_tagColors := [] |}.

Definition all_digits (l : list N) : bool := forallb (fun d => d <=? 9) l.

Definition no_digit_head (s : str) : bool :=
  match s with [] => true | c :: _ => negb (Num.is_digit c) end.

(** What may follow the text of a number: not a digit, a point or an
    exponent letter, which would belong to the number. *)
Definition num_follow (s : str) : bool :=
  match s with
  | [] => true
  | c :: _ => negb (Num.is_digit c || (c =? 46) || (c =? 101) || (c =? 69))
  end.

Definition strip_trail (l : list N) : list N := rev (Num.drop_zeros (rev l)).

Definition spaces (ws : str) : bool := forallb JSON.is_space ws.

(** What the round trip asks of one value: its text starts with a
    character that is no white space and no closing bracket, and, after
    any white space and before anything that does not continue a number,
    it parses back to the value with any fuel above its length. *)
Definition roundtrips (v : value) : Prop :=
  wf_value v = true ->
  forall ind, spaces ind = true ->
  exists c t,
    JSON.stringify_at ind v = Some (c :: t) /\
    JSON.is_space c = false /\ c <> 93 /\
    forall n ws rest,
      (List.length (c :: t) < n)%nat -> spaces ws = true ->
      num_follow rest = true ->
      JSON.parse_value n (ws ++ (c :: t) ++ rest) = Some (v, rest).


(** A story of two passages. *)
Definition cave_story : Story :=
  {| s_title := lit "The Cave"; s_startPassage := lit "Start";
     s_passages :=
       [(lit "Start",
         {| p_name := lit "Start"; p_content := lit "Go: [[Cave]]";
            p_tags := [lit "intro"; lit "day"];
            p_x := Num.of_Z 100; p_y := Num.mk false [1; 2; 5] 2;
            p_width := Num.of_Z 100; p_height := Num.of_Z 100 |});
        (lit "Cave",
         {| p_name := lit "Cave"; p_content := lit "Dark.";
            p_tags := []; p_x := Num.of_Z 300; p_y := Num.of_Z 100;
            p_width := Num.of_Z 100; p_height := Num.of_Z 100 |})];
     s_ifid := lit "D674C58C-DEFA-4F70-B7A2-27742230C0FC";
     s_format := lit "Harlowe"; s_formatVersion := lit "3.3.9";
     s_zoom := Num.mk false [5] 0; s_tags := [];
     s_stylesheet := lit "body { color: red; }";
     s_javascript := lit "alert(1 < 2);";
     s_tagColors := [(lit "intro", lit "green")] |}.

(** The blocks that [generateTwee] writes before those of the passages:
    the title, the story data, and the stylesheet and the script when
    there are any. *)
Definition twee_head (rand : nat -> N) (story : Story) : str :=
  let title_and_data :=
    lit ":: StoryTitle" ++ nl ++ s_title story ++ nl ++ nl ++
    lit ":: StoryData" ++ nl ++
    match JSON.stringify2 (twee_storyData rand story) with
    | Some t => t
    | None => lit "undefined"
    end ++ nl ++ nl in
  let with_stylesheet :=
    match s_stylesheet story with
    | [] => title_and_data
    | _ :: _ =>
        title_and_data ++ lit ":: UserStylesheet [stylesheet]" ++ nl ++
        s_stylesheet story ++ nl ++ nl
    end in
  match s_javascript story with
  | [] => with_stylesheet
  | _ :: _ =>
      with_stylesheet ++ lit ":: UserScript [script]" ++ nl ++
      s_javascript story ++ nl ++ nl
  end.

(** The metadata object of a passage header, for four integers. *)
Definition twee_metadata (x y width height : Z) : str :=
  litq "{`position`:`" ++ int_text x ++ lit "," ++ int_text y ++
  litq "`,`size`:`" ++ int_text width ++ lit "," ++ int_text height ++
  litq "`}".

(** The lines that follow a header up to the next one. *)
Definition body_lines (lines : list str) : bool :=
  forallb (fun line => negb (Twee.is_header line)) lines.

(** An integer that a number holds exactly, so that [parseInt] returns
    it as it is written. *)
Definition safe_integer (z : Z) : bool := (Z.abs z <? 2 ^ 53)%Z.

(* ===================================================================== *)
(** ** js/import-export.js: escapeHtml, call by call *)
(* ===================================================================== *)

(** The body of [escapeHtml] as it is written: five [replace] calls with
    the [g] flag, one after the other, on a text that is not empty. *)
Definition escapeHtml_passes (s : str) : str :=
  match s with
  | [] => []
  | _ :: _ =>
      let s := replace (Lit "&") (fun _ => lit "&amp;") s in
      let s := replace (Lit "<") (fun _ => lit "&lt;") s in
      let s := replace (Lit ">") (fun _ => lit "&gt;") s in
      let s := replace (Lit_ dq) (fun _ => lit "&quot;") s in
      replace (Lit "'") (fun _ => lit "&#39;") s
  end.

(** The characters that open or close a tag or an attribute value. *)
Definition is_markup (c : N) : bool :=
  (c =? 60) || (c =? 62) || (c =? 34) || (c =? 39).

(** Reading the five entities back. [skip] is the number of characters
    still to pass over, those of the entity that was just read. *)
Fixpoint read_entities (skip : nat) (s : str) : str :=
  match s with
  | [] => []
  | c :: r =>
      match skip with
      | S k => read_entities k r
      | O =>
          if startsWith (lit "&amp;") s then 38 :: read_entities 4 r
          else if startsWith (lit "&lt;") s then 60 :: read_entities 3 r
          else if startsWith (lit "&gt;") s then 62 :: read_entities 3 r
          else if startsWith (lit "&quot;") s then 34 :: read_entities 5 r
          else if startsWith (lit "&#39;") s then 39 :: read_entities 4 r
          else c :: read_entities 0 r
      end
  end.

(** The shape of an identifier: [t] is the pattern, in which [x] stands
    for any upper-case hexadecimal digit and [y] for one of [8], [9],
    [A] and [B]; any other character stands for itself. *)
Definition is_hex_upper (c : N) : bool :=
  ((48 <=? c) && (c <=? 57)) || ((65 <=? c) && (c <=? 70)).

Fixpoint fits (t s : str) : bool :=
  match t, s with
  | [], [] => true
  | x :: t', c :: s' =>
      (if x =? 120 then is_hex_upper c
       else if x =? 121 then existsb (N.eqb c) (lit "89AB")
       else c =? x) && fits t' s'
  | _, _ => false
  end.

(* ===================================================================== *)
(** ** js/utils.js: generatePassageName *)
(* ===================================================================== *)

(** [passages?.[name]] as a condition; [None] is a [passages] that is
    [null] or [undefined]. *)
Definition has_passage (passages : option obj) (name : str) : bool :=
  match passages with
  | Some o => has_truthy o name
  | None => false
  end.

(** [i++] on a counter: a number holds the integers up to [2^53]
    exactly, and adding one to [2^53] gives [2^53] again. *)
Definition js_succ (i : Z) : Z := if (i <? 2 ^ 53)%Z then (i + 1)%Z else i.

(** The [while] loop, [fuel] turns of it at most: [None] when the fuel
    runs out before the loop ends. [i] is the counter, an integer that
    the template literal writes in decimal. *)
Fixpoint name_loop (fuel : nat) (passages : option obj)
  (baseName name : str) (i : Z) : option str :=
  match fuel with
  | O => None
  | S fuel' =>
      if has_passage passages name
      then name_loop fuel' passages baseName
             (baseName ++ lit " " ++ int_text i) (js_succ i)
      else Some name
  end.

Definition generatePassageName (passages : option obj) (baseName : str)
  : option str :=
  let fuel :=
    match passages with
    | Some o => S (S (List.length o))
    | None => 1%nat
    end in
  name_loop fuel passages baseName baseName 1.

(** The default value of [baseName]. *)
Definition default_baseName : str := lit "New Passage".

(** The candidate number [i] of [generatePassageName]. *)
Definition candidate (baseName : str) (i : Z) : str :=
  baseName ++ lit " " ++ int_text i.

(** The own properties of [passages], none when it is missing. *)
Definition spread_passages (passages : option obj) : obj :=
  match passages with Some o => o | None => [] end.

(** Passages that hold the default name and the next one. *)
Definition taken_names : obj :=
  [(lit "New Passage", VObj [(lit "name", VStr (lit "New Passage"))]);
   (lit "New Passage 1", VObj [(lit "name", VStr (lit "New Passage 1"))])].

(* ===================================================================== *)
(** ** js/app.js: adding a passage, importing a file *)
(* ===================================================================== *)

Module Handlers.

(** *** The click handler of [addPassageBtn] *)

Inductive add_result :=
| AddIgnored                      (* no story, or not the owner *)
| AddInvalidName (message : str)  (* the toast of the name check *)
| Added (name : str)              (* [StoryDB.update] resolved *)
| AddError.                       (* the database call was rejected *)

(** [{ name, content: '', x: pos.x, y: pos.y }] *)
Definition new_passage (name : str) (pos : num * num) : value :=
  VObj [(lit "name", VStr name); (lit "content", VStr []);
        (lit "x", VNum (fst pos)); (lit "y", VNum (snd pos))].

(** [pos] is what [canvas.getCenterPosition()] returns. [None] when the
    loop of [generatePassageName] does not end. *)
Definition addPassageClick (owner : bool) (pos : num * num) (db_ok : bool)
  (currentStory : App.story) : option (App.story * add_result) :=
  if negb owner then Some (currentStory, AddIgnored)
  else
    match generatePassageName (Some (App.passages currentStory))
            default_baseName with
    | None => None
    | Some name =>
        match validatePassageName name with
        | Some nameError => Some (currentStory, AddInvalidName nameError)
        | None =>
            let passage := new_passage name pos in
            if negb db_ok then Some (currentStory, AddError)
            else
              Some ({| App.passages :=
                         obj_set name passage (App.passages currentStory);
                       App.startPassage := App.startPassage currentStory |},
                    Added name)
        end
    end.

(** *** The [onload] handler of the import form *)

(** ToString, which turns a value into the name of a property. *)
Fixpoint to_string (v : value) : str :=
  match v with
  | VUndef => lit "undefined"
  | VNull => lit "null"
  | VBool true => lit "true"
  | VBool false => lit "false"
  | VNum n => Num.to_str n
  | VStr s => s
  | VArr l =>
      join (lit ",")
        ((fix go (l : list value) : list str :=
            match l with
            | [] => []
            | x :: l' =>
                match x with
                | VUndef | VNull => []
                | _ => to_string x
                end :: go l'
            end) l)
  | VObj _ => lit "[object Object]"
  end.

(** The loop that fills [safePassages], over the entries of the passages
    of the story that was read. *)
Definition keep_entry (safePassages : obj) (entry : str * value) : obj :=
  let (name, passage) := entry in
  if mem name reserved then safePassages
  else if match name with [] => true | _ => false end
          || match trim name with [] => true | _ => false end
  then safePassages
  else obj_set name passage safePassages.

Definition safePassages (passages : obj) : obj :=
  fold_left keep_entry passages [].

(** [safePassages[story.startPassage] ? story.startPassage
     : Object.keys(safePassages)[0]] *)
Definition safeStart (startPassage : value) (safePassages : obj) : value :=
  if has_truthy safePassages (to_string startPassage) then startPassage
  else
    match obj_keys safePassages with
    | k :: _ => VStr k
    | [] => VUndef
    end.

Inductive import_result :=
| NoValidPassages                       (* the toast, nothing is stored *)
| Imported (passages : obj) (startPassage : value).
                                        (* what [StoryDB.create] is given *)

(** The part of the handler between [parseFile] and [StoryDB.create],
    for the passages and the start passage of the story that was read. *)
Definition sanitize_import (passages : obj) (startPassage : value)
  : import_result :=
  let safe := safePassages passages in
  match obj_keys safe with
  | [] => NoValidPassages
  | _ :: _ => Imported safe (safeStart startPassage safe)
  end.

End Handlers.

(** The passages of a file with a reserved name among them. *)
Definition import_passages : obj :=
  [(lit "toString", VObj [(lit "name", VStr (lit "toString"));
                          (lit "content", VStr (lit "x"))]);
   (lit "Cave", VObj [(lit "name", VStr (lit "Cave"));
                      (lit "content", VStr (lit "Dark."))])].

(* ===================================================================== *)
(** ** js/import-export.js: generateTwineArchive *)
(* ===================================================================== *)

Module Archive.

(** The variables of the loop that numbers the passages. *)
Record numbering := {
  pid : Z;
  startNodePid : str;
  pidMap : list (str * str)
}.

(** [pidMap[name] = text] on an object literal: the name [__proto__]
    reaches the setter of the prototype, which ignores a text. *)
Fixpoint pid_set (name text : str) (m : list (str * str))
  : list (str * str) :=
  match m with
  | [] => [(name, text)]
  | (k, t) :: m' =>
      if Str.eqb name k then (name, text) :: m'
      else (k, t) :: pid_set name text m'
  end.

Definition pidMap_set (name text : str) (m : list (str * str))
  : list (str * str) :=
  if Str.eqb name (lit "__proto__") then m else pid_set name text m.

(** [pidMap[name]] in a template literal, for a name that the loop has
    numbered: [__proto__] reads the prototype. *)
Fixpoint pid_get (name : str) (m : list (str * str)) : str :=
  match m with
  | [] => lit "undefined"
  | (k, t) :: m' => if Str.eqb name k then t else pid_get name m'
  end.

Definition pidMap_get (name : str) (m : list (str * str)) : str :=
  if Str.eqb name (lit "__proto__") then lit "[object Object]"
  else pid_get name m.

(** One turn of [passageNames.forEach]. *)
Definition number_passage (startPassage : str) (st : numbering)
  (name : str) : numbering :=
  {| pid := pid st + 1;
     startNodePid :=
       if Str.eqb name startPassage then int_text (pid st)
       else startNodePid st;
     pidMap := pidMap_set name (int_text (pid st)) (pidMap st) |}.

Definition number_passages (story : Story) : numbering :=
  fold_left (number_passage (s_startPassage story))
    (List.map fst (s_passages story))
    {| pid := 1; startNodePid := lit "1"; pidMap := [] |}.

(** [passages[name]], for a name that is a key. *)
Definition passage_of (story : Story) (name : str) : option Passage :=
  match find (fun kp => Str.eqb name (fst kp)) (s_passages story) with
  | Some kp => Some (snd kp)
  | None => None
  end.

(** The element of one passage. *)
Definition passage_element (pidText name : str) (p : Passage) : str :=
  let tags := join (lit " ") (p_tags p) in
  let x := round_or_100 (p_x p) in
  let y := round_or_100 (p_y p) in
  let width := size_text (p_width p) in
  let height := size_text (p_height p) in
  litq "<tw-passagedata pid=`" ++ pidText ++
  litq "` name=`" ++ escapeHtml name ++
  litq "` tags=`" ++ escapeHtml tags ++
  litq "` position=`" ++ int_text x ++ lit "," ++ int_text y ++
  litq "` size=`" ++ width ++ lit "," ++ height ++
  litq "`>" ++ escapeHtml (p_content p) ++ lit "</tw-passagedata>".

Definition passageElements (story : Story) : str :=
  let m := pidMap (number_passages story) in
  List.concat
    (List.map
       (fun name =>
          match passage_of story name with
          | Some p => passage_element (pidMap_get name m) name p
          | None => []
          end)
       (List.map fst (s_passages story))).

Definition tagElements (story : Story) : str :=
  List.concat
    (List.map
       (fun nc =>
          litq "<tw-tag name=`" ++ escapeHtml (fst nc) ++
          litq "` color=`" ++ escapeHtml (snd nc) ++ litq "`></tw-tag>")
       (s_tagColors story)).

Definition generateTwineArchive (rand : nat -> N) (story : Story) : str :=
  let ifid := str_or (s_ifid story) (generateIFID rand) in
  let format := str_or (s_format story) (lit "Harlowe") in
  let formatVersion := str_or (s_formatVersion story) (lit "3.3.9") in
  let zoom := num_or (s_zoom story) (Num.of_Z 1) in
  litq "<tw-storydata name=`" ++ escapeHtml (s_title story) ++
  litq "` startnode=`" ++ startNodePid (number_passages story) ++
  litq "` creator=`Twine Workshop` creator-version=`1.0.0` format=`" ++
  escapeHtml format ++
  litq "` format-version=`" ++ escapeHtml formatVersion ++
  litq "` ifid=`" ++ ifid ++
  litq "` options=`` tags=`" ++ escapeHtml (s_tags story) ++
  litq "` zoom=`" ++ Num.to_str zoom ++
  litq "` hidden><style role=`stylesheet` id=`twine-user-stylesheet` type=`text/twine-css`>" ++
  s_stylesheet story ++
  litq "</style><script role=`script` id=`twine-user-script` type=`text/twine-javascript`>" ++
  s_javascript story ++
  lit "</script>" ++ tagElements story ++ passageElements story ++
  lit "</tw-storydata>".

(** [exportAsTwineArchive]: what is handed to [download]. *)
Definition exportAsTwineArchive (rand : nat -> N) (story : Story)
  : download :=
  {| d_filename := s_title story ++ lit ".html";
     d_content := generateTwineArchive rand story;
     d_type := lit "text/html" |}.


End Archive.

(* ===================================================================== *)
(** ** js/import-export.js: exportAsTwee, exportAsHtml *)
(* ===================================================================== *)

(** What the two functions hand to [download]; the type of the playable
    document is the default of [download]. *)
Definition exportAsTwee (rand : nat -> N) (story : Story) : download :=
  {| d_filename := s_title story ++ lit ".twee";
     d_content := generateTwee rand story;
     d_type := lit "text/plain" |}.

Definition exportAsHtml (story : Story) : download :=
  {| d_filename := s_title story ++ lit ".html";
     d_content := Playable.generatePlayableHtml story;
     d_type := lit "text/html" |}.

(* ===================================================================== *)
(** ** JSON text without indentation *)
(* ===================================================================== *)

(** The texts of the elements of an array and of the properties of an
    object, as [JSON.stringify(v)] writes them. *)
Fixpoint compact_array_items (l : list value) : list str :=
  match l with
  | [] => []
  | x :: l' =>
      match JSON.stringify x with
      | Some t => t
      | None => lit "null"
      end :: compact_array_items l'
  end.

Fixpoint compact_object_items (o : obj) : list str :=
  match o with
  | [] => []
  | (k, x) :: o' =>
      match JSON.stringify x with
      | Some t => (JSON.quote k ++ lit ":" ++ t) :: compact_object_items o'
      | None => compact_object_items o'
      end
  end.

(** What the round trip through the text without indentation asks of
    one value; see [roundtrips]. *)
Definition compact_roundtrips (v : value) : Prop :=
  wf_value v = true ->
  exists c t,
    JSON.stringify v = Some (c :: t) /\
    JSON.is_space c = false /\ c <> 93 /\
    forall n ws rest,
      (List.length (c :: t) < n)%nat -> spaces ws = true ->
      num_follow rest = true ->
      JSON.parse_value n (ws ++ (c :: t) ++ rest) = Some (v, rest).

(* ===================================================================== *)
(** ** Renaming, in terms of the passages of the data model *)
(* ===================================================================== *)

(** The passages of the data model as the properties of an object. *)
Definition passages_obj (ps : list (str * Passage)) : obj :=
  List.map (fun kp => (fst kp, passage_value (snd kp))) ps.






(* ===================================================================== *)
(** ** Notions used in the statements on the handlers and the parsers *)
(* ===================================================================== *)

(** A header that starts a passage which [parseTwee] stores: that of an
    ordinary passage with a name other than [__proto__]. *)
Definition stored (m : found) : bool :=
  Twee.ordinary m && negb (Str.eqb (Twee.header_name m) (lit "__proto__")).

Definition stored_line (line : str) : bool :=
  match Twee.headerMatch line with
  | Some m => stored m
  | None => false
  end.

(** The state of [parseTwee] holds no passage: none is stored, and none
    that will be stored is being read. *)
Definition in_passage (st : Twee.state) : bool :=
  match Twee.currentPassage st with
  | Twee.CPassage name _ _ _ _ _ _ => negb (Str.eqb name (lit "__proto__"))
  | _ => false
  end.

Definition empty_handed (st : Twee.state) : bool :=
  match Twee.passages st with
  | [] => negb (in_passage st)
  | _ :: _ => false
  end.

(** [p] stands at the head of [s], letter case apart: what the pattern
    made of the characters of [p] with the [i] flag matches. *)
Fixpoint prefix_ci (p s : str) : bool :=
  match p, s with
  | [], _ => true
  | c :: p', x :: s' => Playable.ci c x && prefix_ci p' s'
  | _ :: _, [] => false
  end.

(** No match of [r] starts inside [skipped], which is followed by
    [t]. *)
Fixpoint leftmost (r : regex) (skipped t : str) : Prop :=
  match skipped with
  | [] => True
  | _ :: skipped' =>
      match_here r (skipped ++ t) = None /\ leftmost r skipped' t
  end.

(** A story whose passage holds a closing script tag written with a
    space before its last character. *)
Definition spaced_story : Story :=
  {| s_title := lit "T"; s_startPassage := lit "Start";
     s_passages :=
       [(lit "Start",
         {| p_name := lit "Start"; p_content := lit "</script >";
            p_tags := []; p_x := Num.of_Z 100; p_y := Num.of_Z 100;
            p_width := Num.of_Z 100; p_height := Num.of_Z 100 |})];
     s_ifid := lit "0"; s_format := []; s_formatVersion := [];
     s_zoom := Num.of_Z 1; s_tags := []; s_stylesheet := [];
     s_javascript := []; s_tagColors := [] |}.

(* ===================================================================== *)
(** ** The header lines that generateTwee writes *)
(* ===================================================================== *)

(** The first line of the block of a passage. *)
Definition twee_tags (p : Passage) : str :=
  match p_tags p with
  | [] => []
  | _ :: _ => lit " [" ++ join (lit " ") (p_tags p) ++ lit "]"
  end.

(** The metadata object of the header. *)
Definition twee_position (p : Passage) : str :=
  litq "{`position`:`" ++
  int_text (round_or_100 (p_x p)) ++ lit "," ++
  int_text (round_or_100 (p_y p)) ++
  litq "`,`size`:`" ++
  size_text (p_width p) ++ lit "," ++ size_text (p_height p) ++
  litq "`}".

Definition twee_header (p : Passage) : str :=
  lit ":: " ++ p_name p ++ twee_tags p ++ lit " " ++ twee_position p.

(** A name with no white space at either end, no line break inside, and
    no opening bracket or brace. *)
Definition plain_name (n : str) : bool :=
  match n with [] => false | c :: _ => negb (is_ws c) end &&
  negb (is_ws (last n 32)) &&
  forallb (fun c => dot c && negb (c =? 91) && negb (c =? 123)) n.

(** A tag that is not empty and holds no space, no closing bracket and
    no line feed. *)
Definition plain_tag (t : str) : bool :=
  Twee.nonempty t &&
  forallb (fun c => negb (c =? 32) && negb (c =? 93) && negb (c =? 10)) t.

(** [v || d] and [v || 100] on an integer. *)
Definition nonzero_or (v d : Z) : Z := if (v =? 0)%Z then d else v.
Definition int_or_100 (v : Z) : Z := if (v =? 0)%Z then 100%Z else v.

(** An integer that a template literal writes with all its digits. *)
Definition small (z : Z) : bool := (Z.abs z <? 10 ^ 21)%Z.

(** The characters that the text of a JSON string holds as they are. *)
Definition json_plain (c : N) : bool :=
  (32 <=? c) && negb (c =? 34) && negb (c =? 92) && (c <? 55296).

(** The characters of the text of a pair of integers: digits, the minus
    sign and the comma. *)
Definition pair_char (c : N) : bool :=
  Num.is_digit c || (c =? 45) || (c =? 44).

(** The object that the metadata of a header holds. *)
Definition metadata_value (x y width height : Z) : value :=
  VObj [(lit "position", VStr (int_text x ++ lit "," ++ int_text y));
        (lit "size", VStr (int_text width ++ lit "," ++ int_text height))].

(** The pattern of a header after the name: the tags, the metadata and
    the end of the line. *)
Definition header_tail : regex :=
  Cats [Star true is_ws;
        Opt (Cats [Lit "["; Grp 2 (Star true (noneof "]")); Lit "]"]);
        Star true is_ws;
        Opt (Grp 3 (Cats [Lit "{"; Star true dot; Lit "}"]));
        Star true is_ws;
        Eol].

(** A text that the pattern after the name cannot match: after white
    space it goes on with a character that opens neither the tags nor
    the metadata. *)
Definition blocked (s : str) : Prop :=
  exists ws c rest,
    s = ws ++ c :: rest /\ forallb is_ws ws = true /\
    is_ws c = false /\ c <> 91 /\ c <> 123.

(** The first passage of [cave_story]. *)
Definition cave_start : Passage :=
  {| p_name := lit "Start"; p_content := lit "Go: [[Cave]]";
     p_tags := [lit "intro"; lit "day"];
     p_x := Num.of_Z 100; p_y := Num.mk false [1; 2; 5] 2;
     p_width := Num.of_Z 100; p_height := Num.of_Z 100 |}.

(* ===================================================================== *)
(** ** The blocks of the passages as the specification words them *)
(* ===================================================================== *)

(** The passages object after the assignments [passages[name] = passage],
    one for each entry of the list in its order: the entries in the
    order of insertion. *)
Definition filled (entries : list (str * Passage)) : list (str * Passage) :=
  fold_left (fun o kp => assign (fst kp) (snd kp) o) entries [].

(** A name that is neither an array index nor [__proto__]. *)
Definition named_key (k : str) : bool :=
  match array_index k with
  | Some _ => false
  | None => negb (Str.eqb k (lit "__proto__"))
  end.

(** An integer: the number of its own rounding. *)
Definition is_integer (n : num) : bool := Num.eqb n (Num.of_Z (Num.round n)).

(** The text of an integer in decimal: a minus sign for a negative one,
    then the digits. *)
Definition decimal (z : Z) : str :=
  (if (z <? 0)%Z then lit "-" else []) ++ Num.dec_str (Z.abs_N z).

(** [z] is the integer nearest to the number [n], a half going up:
    [z - 1/2 <= n < z + 1/2], for [n] the quotient of
    [signed_digits n * 10 ^ max 0 (pt n - k)] by [10 ^ max 0 (k - pt n)],
    where [k] is the number of digits of [n]. *)
Definition nearest (n : num) (z : Z) : Prop :=
  let k := Z.of_nat (List.length (Num.digs n)) in
  let numerator := (Num.signed_digits n * 10 ^ Z.max 0 (Num.pt n - k))%Z in
  let denominator := (10 ^ Z.max 0 (k - Num.pt n))%Z in
  ((2 * z - 1) * denominator <= 2 * numerator /\
   2 * numerator < (2 * z + 1) * denominator)%Z.

(** The block of a passage as the specification words it: the tag
    list, joined by spaces and left out when it is empty, and a metadata
    object that embeds the position and the size as rounded integers. *)
Definition twee_block_spec (p : Passage) : str :=
  lit ":: " ++ p_name p ++
  match p_tags p with
  | [] => []
  | _ :: _ => lit " [" ++ join (lit " ") (p_tags p) ++ lit "]"
  end ++
  lit " " ++
  twee_metadata (round_or_100 (p_x p)) (round_or_100 (p_y p))
    (round_or_100 (p_width p)) (round_or_100 (p_height p)) ++
  nl ++ p_content p ++ nl ++ nl.

(** The text of a story as the specification words it, for passages
    that were inserted as [entries]: after the blocks of the story, one
    block per passage in insertion order. *)
Definition generateTwee_spec (rand : nat -> N) (story : Story)
  (entries : list (str * Passage)) : str :=
  trim (twee_head rand story ++
        List.concat (List.map (fun kp => twee_block_spec (snd kp)) entries)).

(** Two passages, the second one inserted under a name that is an array
    index, and the story that holds them. *)
Definition index_entries : list (str * Passage) :=
  [(lit "b",
    {| p_name := lit "b"; p_content := lit "second"; p_tags := [];
       p_x := Num.of_Z 100; p_y := Num.of_Z 100;
       p_width := Num.of_Z 100; p_height := Num.of_Z 100 |});
   (lit "7",
    {| p_name := lit "7"; p_content := lit "seven"; p_tags := [];
       p_x := Num.of_Z 300; p_y := Num.of_Z 100;
       p_width := Num.of_Z 100; p_height := Num.of_Z 100 |})].

Definition index_story : Story :=
  {| s_title := lit "T"; s_startPassage := lit "b";
     s_passages := filled index_entries;
     s_ifid := lit "0"; s_format := []; s_formatVersion := [];
     s_zoom := Num.of_Z 1; s_tags := []; s_stylesheet := [];
     s_javascript := []; s_tagColors := [] |}.

(** A story with one passage, whose width is 50.5. *)
Definition half_entries : list (str * Passage) :=
  [(lit "Wide",
    {| p_name := lit "Wide"; p_content := lit "w"; p_tags := [];
       p_x := Num.of_Z 100; p_y := Num.of_Z 100;
       p_width := Num.mk false [5; 0; 5] 2; p_height := Num.of_Z 100 |})].

Definition half_story : Story :=
  {| s_title := lit "T"; s_startPassage := lit "Wide";
     s_passages := filled half_entries;
     s_ifid := lit "0"; s_format := []; s_formatVersion := [];
     s_zoom := Num.of_Z 1; s_tags := []; s_stylesheet := [];
     s_javascript := []; s_tagColors := [] |}.

(* ===================================================================== *)
(** * Properties *)
(* ===================================================================== *)

(** ** Strings *)

Lemma str_eqb_spec a b : reflect (a = b) (Str.eqb a b).
Proof.
  revert b; induction a as [|x a IH]; intros [|y b]; simpl;
    try (constructor; congruence).
  destruct (N.eqb_spec x y) as [->|Hne]; simpl.
  - destruct (IH b) as [->|Hne]; constructor; congruence.
  - constructor; congruence.
Qed.

Lemma str_eqb_eq a b : Str.eqb a b = true <-> a = b.
Proof. destruct (str_eqb_spec a b); split; congruence. Qed.

Lemma str_eqb_refl a : Str.eqb a a = true.
Proof. apply str_eqb_eq; reflexivity. Qed.


Lemma str_eqb_sym a b : Str.eqb a b = Str.eqb b a.
Proof.
  destruct (str_eqb_spec a b) as [->|H].
  - symmetry; apply str_eqb_refl.
  - destruct (str_eqb_spec b a); congruence.
Qed.

(** ** Passage names *)

Lemma includes_single c s : includes [c] s = existsb (N.eqb c) s.
Proof.
  induction s as [|y s IH]; simpl; [reflexivity|].
  rewrite IH, andb_true_r; reflexivity.
Qed.

Lemma test_chr p s : test (Chr p) s = existsb p s.
Proof.
  unfold test.
  induction s as [|c s IH]; simpl; [reflexivity|].
  unfold match_here; simpl.
  destruct (p c); simpl; [reflexivity|].
  destruct (search (Chr p) s) as [[sk m]|]; simpl in *; exact IH.
Qed.

Lemma mem_In x l : mem x l = true <-> In x l.
Proof.
  unfold mem. rewrite existsb_exists. split.
  - intros [y [Hy He]]. apply str_eqb_eq in He. subst; assumption.
  - intros H. exists x. split; [assumption | apply str_eqb_refl].
Qed.


Lemma oneof_In c (x : N) : oneof c x = true <-> In x (lit c).
Proof.
  unfold oneof. rewrite existsb_exists. split.
  - intros [y [Hy He]]. apply N.eqb_eq in He. subst; assumption.
  - intros H. exists x. split; [assumption | apply N.eqb_refl].
Qed.

(** C9. Validation rejects (returns an error text for) every name that
    is empty or made of white space only, every name of more than 200
    code units, every name that holds a dot or one of the characters
    [ ] { } # $ /, and each of the six reserved words; so it rejects
    "a.b", "a[b]", "__proto__" and a name of 201 characters, and it
    accepts "Cave 2". *)
Theorem validatePassageName_rejects :
  (forall name : str,
      name = [] \/ trim name = [] \/
      (200 < List.length name)%nat \/
      In 46 name \/
      (exists c, In c name /\ In c invalid_set) \/
      In name reserved ->
      validatePassageName name <> None) /\
  validatePassageName (lit "a.b") <> None /\
  validatePassageName (lit "a[b]") <> None /\
  validatePassageName (lit "__proto__") <> None /\
  validatePassageName (repeat 97 201) <> None /\
  validatePassageName (lit "Cave 2") = None.
Proof.
  split; [|repeat split; vm_compute; congruence].
  intros name H.
  destruct (validatePassageName name) eqn:E; [discriminate|]. exfalso.
  unfold validatePassageName in E.
  destruct (_ || _) eqn:Eempty in E; [discriminate|].
  destruct (200 <? List.length name)%nat eqn:Elen; [discriminate|].
  destruct (includes (lit ".") name) eqn:Edot; [discriminate|].
  destruct (test invalid_chars name) eqn:Einv; [discriminate|].
  destruct (mem name reserved) eqn:Eres; [discriminate|].
  apply orb_false_iff in Eempty. destruct Eempty as [Hne Htr].
  destruct H as [H|[H|[H|[H|[H|H]]]]].
  - subst name. discriminate.
  - rewrite H in Htr. discriminate.
  - apply Nat.ltb_lt in H. congruence.
  - change (lit ".") with [46] in Edot. rewrite includes_single in Edot.
    assert (existsb (N.eqb 46) name = true)
      by (apply existsb_exists; exists 46; split; [assumption|apply N.eqb_refl]).
    congruence.
  - destruct H as [c [Hc Hs]].
    unfold invalid_chars in Einv. rewrite test_chr in Einv.
    assert (existsb (oneof "[]{}#$/") name = true)
      by (apply existsb_exists; exists c; split;
          [assumption | apply oneof_In; exact Hs]).
    congruence.
  - apply mem_In in H. congruence.
Qed.

Lemma validatePassageName_rejects_witness :
  validatePassageName (lit "a/b") <> None.
Proof.
  apply (proj1 validatePassageName_rejects (lit "a/b")).
  right; right; right; right; left.
  exists 47. split; vm_compute; tauto.
Defined.

(** ** Cutting and splitting *)

Lemma startsWith_app p x : startsWith p (p ++ x) = true.
Proof.
  induction p as [|c p IH]; simpl; [reflexivity|].
  rewrite N.eqb_refl, IH; reflexivity.
Qed.

Lemma includes_unfold p s :
  includes p s =
  startsWith p s || match s with [] => false | _ :: s' => includes p s' end.
Proof. destruct s; reflexivity. Qed.

Lemma includes_app p d x : includes p (d ++ p ++ x) = true.
Proof.
  induction d as [|c d IH]; simpl.
  - rewrite includes_unfold, startsWith_app. reflexivity.
  - rewrite IH. apply orb_true_r.
Qed.

Lemma includes_cons p c s : includes p (c :: s) = false -> includes p s = false.
Proof. simpl. intros H. apply orb_false_iff in H. tauto. Qed.

Lemma includes_head p s : includes p s = false -> startsWith p s = false.
Proof.
  destruct s; simpl; intros H; apply orb_false_iff in H; tauto.
Qed.

Lemma cut_spec sep s b a : cut sep s = Some (b, a) -> s = b ++ sep ++ a.
Proof.
  revert b a. induction s as [|c s IH]; intros b a; simpl.
  - destruct sep; simpl; [|discriminate].
    intros H; inversion H; reflexivity.
  - destruct (startsWith sep (c :: s)) eqn:E.
    + intros H; inversion H; subst; simpl. clear H.
      revert E. generalize (c :: s). clear.
      induction sep as [|x sep IH]; intros l; simpl; [reflexivity|].
      destruct l as [|y l]; [discriminate|].
      intros H. apply andb_true_iff in H. destruct H as [H1 H2].
      apply N.eqb_eq in H1. subst. f_equal. apply IH; assumption.
    + destruct (cut sep s) as [[b' a']|]; [|discriminate].
      intros H; inversion H; subst. simpl. f_equal. apply IH; reflexivity.
Qed.

Lemma cut_length sep s b a :
  sep <> [] -> cut sep s = Some (b, a) ->
  (List.length a < List.length s)%nat.
Proof.
  intros Hs H. apply cut_spec in H. subst s.
  rewrite !length_app. destruct sep; [congruence|]. simpl. lia.
Qed.

Lemma cut_none_includes sep s : includes sep s = false -> cut sep s = None.
Proof.
  induction s as [|c s IH]; simpl; intros H.
  - rewrite orb_false_r in H. rewrite H. reflexivity.
  - apply orb_false_iff in H. destruct H as [H1 H2].
    rewrite H1, (IH H2). reflexivity.
Qed.

(** The first occurrence of a separator of one code unit. *)
Lemma cut_first_1 a d x :
  includes [a] d = false -> cut [a] (d ++ a :: x) = Some (d, x).
Proof.
  induction d as [|c d IH]; simpl; intros H.
  - rewrite N.eqb_refl. reflexivity.
  - apply orb_false_iff in H. destruct H as [H1 H2].
    rewrite andb_true_r in H1. rewrite H1. simpl.
    change (match d ++ a :: x with
            | [] => false
            | y :: _ => (a =? y) && true
            end) with (startsWith [a] (d ++ a :: x)).
    change (if startsWith [a] (d ++ a :: x)
            then Some ([], skipn 1 (d ++ a :: x))
            else match d ++ a :: x with
                 | [] => None
                 | c0 :: s' =>
                     match cut [a] s' with
                     | Some (b, a0) => Some (c0 :: b, a0)
                     | None => None
                     end
                 end) with (cut [a] (d ++ a :: x)).
    rewrite (IH H2). reflexivity.
Qed.

(** The first occurrence of a separator of two distinct code units. *)
Lemma cut_first_2 a b d x :
  a <> b -> includes [a; b] d = false ->
  cut [a; b] (d ++ a :: b :: x) = Some (d, x).
Proof.
  intros Hab. induction d as [|c d IH]; intros H.
  - simpl. rewrite !N.eqb_refl. reflexivity.
  - pose proof (includes_cons _ _ _ H) as H2.
    pose proof (includes_head _ _ H) as H1.
    specialize (IH H2).
    assert (E : startsWith [a; b] ((c :: d) ++ a :: b :: x) = false).
    { simpl. simpl in H1.
      destruct (a =? c) eqn:Eac; [|reflexivity]. simpl in *.
      destruct d as [|c' d]; simpl in *.
      - destruct (N.eqb_spec b a); [congruence|reflexivity].
      - rewrite andb_true_r in *. exact H1. }
    change ((c :: d) ++ a :: b :: x) with (c :: (d ++ a :: b :: x)) in *.
    cbn [cut]. rewrite E, IH. reflexivity.
Qed.

Lemma split_fuel_enough sep n m s :
  sep <> [] -> (List.length s <= n)%nat -> (List.length s <= m)%nat ->
  split_fuel n sep s = split_fuel m sep s.
Proof.
  intros Hs. revert m s.
  assert (Hnil : cut sep [] = None).
  { destruct sep; [congruence|reflexivity]. }
  induction n as [|n IH]; intros m s Hn Hm.
  - destruct s; [|simpl in Hn; lia].
    destruct m; cbn [split_fuel]; [reflexivity|]. rewrite Hnil. reflexivity.
  - destruct m as [|m].
    + destruct s; [|simpl in Hm; lia]. cbn [split_fuel].
      rewrite Hnil. reflexivity.
    + cbn [split_fuel]. destruct (cut sep s) as [[b a]|] eqn:E; [|reflexivity].
      pose proof (cut_length _ _ _ _ Hs E).
      f_equal. apply IH; lia.
Qed.

Lemma split_cut sep s b a :
  sep <> [] -> cut sep s = Some (b, a) -> split sep s = b :: split sep a.
Proof.
  intros Hs E. unfold split.
  pose proof (cut_length _ _ _ _ Hs E).
  destruct (List.length s) as [|n] eqn:El; [lia|].
  cbn [split_fuel]. rewrite E. f_equal. apply split_fuel_enough; [assumption|lia|lia].
Qed.

Lemma split_none sep s : cut sep s = None -> split sep s = [s].
Proof.
  intros E. unfold split. destruct (List.length s); cbn [split_fuel];
    [reflexivity | rewrite E; reflexivity].
Qed.

Lemma split_not_nil sep s : split sep s <> [].
Proof.
  unfold split. destruct (List.length s); cbn [split_fuel]; [discriminate|].
  destruct (cut sep s) as [[b a]|]; discriminate.
Qed.

Lemma nth_last (l : list str) : nth (List.length l - 1) l [] = last l [].
Proof.
  induction l as [|x l IH]; [reflexivity|].
  destruct l as [|y l]; [reflexivity|].
  replace (List.length (x :: y :: l) - 1)%nat
    with (S (List.length (y :: l) - 1)) by (simpl; lia).
  change (nth (S (List.length (y :: l) - 1)) (x :: y :: l) [])
    with (nth (List.length (y :: l) - 1) (y :: l) []).
  rewrite IH. reflexivity.
Qed.

(** The last piece of a text cut at a separator of one code unit is
    what follows its last occurrence. *)
Lemma split_last_1 a d t :
  includes [a] t = false -> last (split [a] (d ++ a :: t)) [] = t.
Proof.
  intros Ht.
  assert (Hs : [a] <> []) by discriminate.
  remember (List.length d) as n eqn:En.
  revert d En. induction n as [n IH] using lt_wf_ind. intros d En.
  destruct (includes [a] d) eqn:Ed.
  - (* an earlier occurrence inside d *)
    assert (exists d1 d2, d = d1 ++ a :: d2 /\ includes [a] d1 = false)
      as [d1 [d2 [-> Hd1]]].
    { clear - Ed. induction d as [|c d IHd]; [discriminate|].
      simpl in Ed. rewrite andb_true_r in Ed.
      destruct (a =? c) eqn:Eac.
      - apply N.eqb_eq in Eac. subst c. exists [], d. split; reflexivity.
      - simpl in Ed. destruct (IHd Ed) as [d1 [d2 [-> H]]].
        exists (c :: d1), d2. split; [reflexivity|].
        simpl. rewrite Eac, andb_false_l. exact H. }
    rewrite <- app_assoc. simpl.
    rewrite (split_cut [a] _ d1 (d2 ++ a :: t) Hs (cut_first_1 _ _ _ Hd1)).
    assert (Hl : (List.length d2 < n)%nat)
      by (subst n; rewrite length_app; simpl; lia).
    specialize (IH _ Hl d2 eq_refl).
    destruct (split [a] (d2 ++ a :: t)) eqn:E;
      [exfalso; eapply split_not_nil; eassumption|].
    exact IH.
  - rewrite (split_cut [a] _ d t Hs (cut_first_1 _ _ _ Ed)).
    rewrite (split_none _ _ (cut_none_includes _ _ Ht)). reflexivity.
Qed.

(** ** Link extraction *)


Lemma slice_marker inner : slice_2_m2 (marker inner) = inner.
Proof.
  unfold slice_2_m2, marker. simpl.
  rewrite length_app. simpl.
  replace (List.length inner + 2 - 2)%nat with (List.length inner + 0)%nat by lia.
  rewrite firstn_app_2. simpl. apply app_nil_r.
Qed.


(** What [extractLinks] takes for the target of a marker, case by
    case. *)
Lemma link_target_cases :
  (forall content,
      extractLinks content =
      List.map link_target (match_all link_marker content)) /\
  (forall d t,
      includes arrow d = false -> includes arrow t = false ->
      link_target (marker (d ++ arrow ++ t)) = trim t) /\
  (forall d t rest,
      includes arrow d = false -> includes arrow t = false ->
      link_target (marker (d ++ arrow ++ t ++ arrow ++ rest)) = trim t) /\
  (forall d t,
      includes arrow (d ++ bar ++ t) = false -> includes bar t = false ->
      link_target (marker (d ++ bar ++ t)) = trim t) /\
  (forall inner,
      includes arrow inner = false -> includes bar inner = false ->
      link_target (marker inner) = trim inner).
Proof.
  assert (Ha : arrow <> []) by discriminate.
  assert (Hab : (45 : N) <> 62) by discriminate.
  repeat split.
  - intros [|c s]; reflexivity.
  - intros d t Hd Ht. unfold link_target. rewrite slice_marker.
    change (lit "->") with arrow.
    rewrite (includes_app arrow d t). cbn [app].
    rewrite (split_cut arrow _ d t Ha (cut_first_2 _ _ _ _ Hab Hd)).
    rewrite (split_none _ _ (cut_none_includes _ _ Ht)). reflexivity.
  - intros d t rest Hd Ht. unfold link_target. rewrite slice_marker.
    change (lit "->") with arrow.
    rewrite (includes_app arrow d (t ++ arrow ++ rest)). cbn [app].
    rewrite (split_cut arrow _ d (t ++ 45 :: 62 :: rest) Ha
               (cut_first_2 _ _ _ _ Hab Hd)).
    rewrite (split_cut arrow _ t rest Ha (cut_first_2 _ _ _ _ Hab Ht)).
    reflexivity.
  - intros d t Hn Ht. unfold link_target. rewrite slice_marker.
    change (lit "->") with arrow. rewrite Hn.
    cbv zeta. rewrite nth_last. change (lit "|") with bar. cbn [app].
    rewrite (split_last_1 124 d t Ht). reflexivity.
  - intros inner Hn Hb. unfold link_target. rewrite slice_marker.
    change (lit "->") with arrow. rewrite Hn.
    cbv zeta. change (lit "|") with bar.
    rewrite (split_none _ _ (cut_none_includes _ _ Hb)). reflexivity.
Qed.

(** C3 at a failing input. The marker [[a->b->c]] holds two arrows.
    [extractLinks] gives the piece between them, [b], where the
    specification asks for all that follows the first arrow, [b->c];
    the four examples of the specification, with one arrow at most,
    hold. The code that reads markers elsewhere does not take the
    middle piece: for the bar, [extractLinks] itself takes the last
    piece; the rename pass of [closePassageEditor] reads the marker as
    a link to [b->c], as the specification does, and not as a link to
    [b]; the script of the playable document takes the last piece,
    [c]. *)
Theorem extractLinks_middle_piece :
  extractLinks (lit "[[a->b->c]]") = [lit "b"] /\
  extractLinks_spec (lit "[[a->b->c]]") = [lit "b->c"] /\
  extractLinks (lit "[[a|b|c]]") = [lit "c"] /\
  App.rewrite_links (lit "b->c") (lit "N") (lit "[[a->b->c]]")
  = lit "[[a->N]]" /\
  App.rewrite_links (lit "b") (lit "N") (lit "[[a->b->c]]")
  = lit "[[a->b->c]]" /\
  Playable.showPassage
    (VObj [(lit "P", VObj [(lit "content", VStr (lit "[[a->b->c]]"))])])
    [] (lit "P")
  = Some (litq "<p><span class=`link` onclick=`showPassage('c')`>a->b</span></p>")
  /\
  extractLinks (lit "[[Go->Cave]]") = [lit "Cave"] /\
  extractLinks (lit "[[Cave|Enter]]") = [lit "Enter"] /\
  extractLinks (lit "[[Cave]]") = [lit "Cave"] /\
  extractLinks (lit "no links here") = [].
Proof. repeat split; vm_compute; reflexivity. Qed.

(** ** parseJson *)

(** C10. When the text deserializes to an object that has both a
    [title] and a [passages] key, [parseJson] still gives no result if
    the title is falsy (the empty text, zero, [false], [null]); and
    whenever [parseJson] gives a story, the title and the passages of
    the deserialized value are both truthy. *)
Theorem parseJson_needs_truthy_title :
  (forall rand content o t ps,
      JSON.parse content = Some (VObj o) ->
      obj_get (lit "title") o = Some t ->
      obj_get (lit "passages") o = Some ps ->
      truthy t = false ->
      parseJson rand content = None) /\
  (forall rand content story,
      parseJson rand content = Some story ->
      exists data t ps,
        JSON.parse content = Some data /\
        getp data "title" = Some t /\ truthy t = true /\
        getp data "passages" = Some ps /\ truthy ps = true) /\
  (forall rand,
      parseJson rand (litq "{`title`:``,`passages`:{`Start`:{}}}") = None).
Proof.
  split; [|split].
  - intros rand content o t ps Hp Ht Hps Hf.
    unfold parseJson. rewrite Hp. unfold getp. rewrite Ht, Hps, Hf.
    reflexivity.
  - intros rand content story H. unfold parseJson in H.
    destruct (JSON.parse content) as [data|] eqn:Ed; [|discriminate].
    destruct (getp data "title") as [t|] eqn:Egt; [|discriminate].
    destruct (getp data "passages") as [ps|] eqn:Egp; [|discriminate].
    destruct (truthy t) eqn:Et; [|discriminate].
    destruct (truthy ps) eqn:Eps; [|discriminate].
    exists data, t, ps. repeat split; solve [assumption | reflexivity].
  - intros rand. vm_compute. reflexivity.
Qed.

Lemma parseJson_needs_truthy_title_witness :
  parseJson (fun _ => 0) (litq "{`passages`:{},`title`:0}") = None.
Proof.
  apply (proj1 parseJson_needs_truthy_title (fun _ => 0)
           (litq "{`passages`:{},`title`:0}")
           [(lit "passages", VObj []); (lit "title", VNum Num.zero)]
           (VNum Num.zero) (VObj []));
    vm_compute; reflexivity.
Defined.

(** ** parseFile *)

(** C2, as the code has it. A file whose extension is [json], [twee] or
    [tw], [html] or [htm] is handed to the parser of that format and the
    result of that parser is the result, also when it is no result; the
    content is looked at only when the extension is none of these:
    content that starts with a brace after trimming goes to the JSON
    parser, else content that holds the container tag goes to the
    archive parser, else content that holds two colons goes to the line
    format parser, else there is no result. *)
Theorem parseFile_dispatch :
  forall parseTwine rand content filename,
    let ext := file_ext filename in
    (ext = lit "json" ->
     parseFile parseTwine rand content filename = parseJson rand content) /\
    (ext = lit "twee" \/ ext = lit "tw" ->
     parseFile parseTwine rand content filename = parseTwee rand content) /\
    (ext = lit "html" \/ ext = lit "htm" ->
     parseFile parseTwine rand content filename = parseTwine content) /\
    (~ In ext [lit "json"; lit "twee"; lit "tw"; lit "html"; lit "htm"] ->
     parseFile parseTwine rand content filename =
     if startsWith (lit "{") (trim content) then parseJson rand content
     else if includes (lit "<tw-storydata") content then parseTwine content
     else if includes (lit "::") content then parseTwee rand content
     else None).
Proof.
  intros parseTwine rand content filename ext.
  unfold parseFile. fold ext.
  repeat split.
  - intros ->. reflexivity.
  - intros [-> | ->]; reflexivity.
  - intros [-> | ->]; simpl; destruct (parseTwine content); reflexivity.
  - intros Hn.
    destruct (str_eqb_spec ext (lit "json")) as [E|_];
      [exfalso; apply Hn; rewrite E; simpl; tauto|].
    destruct (str_eqb_spec ext (lit "twee")) as [E|_];
      [exfalso; apply Hn; rewrite E; simpl; tauto|].
    destruct (str_eqb_spec ext (lit "tw")) as [E|_];
      [exfalso; apply Hn; rewrite E; simpl; tauto|].
    destruct (str_eqb_spec ext (lit "html")) as [E|_];
      [exfalso; apply Hn; rewrite E; simpl; tauto|].
    destruct (str_eqb_spec ext (lit "htm")) as [E|_];
      [exfalso; apply Hn; rewrite E; simpl; tauto|].
    reflexivity.
Qed.

Lemma parseFile_dispatch_witness :
  parseFile (fun _ => None) (fun _ => 0)
    (lit ":: Start" ++ nl ++ lit "Hello") (lit "Story.JSON")
  = parseJson (fun _ => 0) (lit ":: Start" ++ nl ++ lit "Hello").
Proof.
  apply (proj1 (parseFile_dispatch (fun _ => None) (fun _ => 0)
                  (lit ":: Start" ++ nl ++ lit "Hello") (lit "Story.JSON"))).
  reflexivity.
Defined.

(** C2, as the specification words it, fails: a line-format text in a
    file named [story.json] gets no result from the JSON parser, and the
    code stops there, where the specification would have the content
    looked at and the line-format parser find the story. *)
Lemma parseFile_no_fallback_counterexample :
  let content := lit ":: Start" ++ nl ++ lit "Hello" in
  parseFile (fun _ => None) (fun _ => 0) content (lit "story.json") = None /\
  parseFile_spec (fun _ => None) (fun _ => 0) content (lit "story.json")
  = parseTwee (fun _ => 0) content /\
  parseTwee (fun _ => 0) content <> None.
Proof. repeat split; vm_compute; congruence. Qed.

(** ** Deleting a passage *)

Lemma keys_delete k (o : obj) :
  obj_keys (obj_delete k o) =
  filter (fun n => negb (Str.eqb n k)) (obj_keys o).
Proof.
  induction o as [|[k' v] o IH]; simpl; [reflexivity|].
  rewrite (str_eqb_sym k k').
  destruct (Str.eqb k' k); simpl; [exact IH | f_equal; exact IH].
Qed.

Lemma find_filter_head {A} (f : A -> bool) (l : list A) :
  find f l = hd_error (filter f l).
Proof.
  induction l as [|x l IH]; simpl; [reflexivity|].
  destruct (f x); [reflexivity | exact IH].
Qed.

Lemma obj_get_In_keys k (o : obj) :
  In k (obj_keys o) -> obj_get k o <> None.
Proof.
  induction o as [|[k' v] o IH]; simpl; [tauto|].
  intros [->|H].
  - rewrite str_eqb_refl. discriminate.
  - destruct (Str.eqb k k'); [discriminate | apply IH; exact H].
Qed.

Lemma distinct_other (l : list str) (sel : str) :
  distinct l = true -> (2 <= List.length l)%nat ->
  exists k, find (fun n => negb (Str.eqb n sel)) l = Some k.
Proof.
  destruct l as [|a [|b l]]; simpl; try lia.
  intros Hd _.
  destruct (str_eqb_spec a sel) as [->|Ha]; simpl; [|eauto].
  destruct (str_eqb_spec b sel) as [->|Hb]; simpl; [|eauto].
  rewrite str_eqb_refl in Hd. discriminate.
Qed.

(** C6. Deleting the selected passage of a story that has one passage
    only ends with [LastPassage] and leaves the story as it was. In a
    story of two passages or more, deleting the start passage (confirmed
    by the user and accepted by the database) succeeds: the passage is
    removed, the start becomes the first key that is left, that key
    names a passage of the story that is left, and it is the new start
    that the handler reports (to [StoryDB.deletePassage]). *)
Theorem deletePassage_last_and_start :
  forall (currentStory : App.story) (selected : str),
    selected <> [] ->
    ((List.length (obj_keys (App.passages currentStory)) <= 1)%nat ->
     forall confirmed db_ok,
       App.deletePassageClick true (Some selected) confirmed db_ok
         currentStory
       = (currentStory, App.LastPassage)) /\
    ((2 <= List.length (obj_keys (App.passages currentStory)))%nat ->
     distinct (obj_keys (App.passages currentStory)) = true ->
     App.startPassage currentStory = VStr selected ->
     exists newStart,
       App.deletePassageClick true (Some selected) true true currentStory
       = ({| App.passages := obj_delete selected (App.passages currentStory);
             App.startPassage := VStr newStart |},
          App.Deleted (Some newStart)) /\
       hd_error (obj_keys (obj_delete selected (App.passages currentStory)))
       = Some newStart /\
       obj_get newStart (obj_delete selected (App.passages currentStory))
       <> None).
Proof.
  intros currentStory selected Hsel. split.
  - intros Hlen confirmed db_ok. unfold App.deletePassageClick. simpl.
    destruct selected as [|c s]; [congruence|].
    apply Nat.leb_le in Hlen. rewrite Hlen. reflexivity.
  - intros Hlen Hd Hstart.
    destruct (distinct_other _ selected Hd Hlen) as [k Hk].
    exists k. unfold App.deletePassageClick. simpl.
    destruct selected as [|c s] eqn:Es; [congruence|]. rewrite <- Es in *.
    assert (Hl : (List.length (obj_keys (App.passages currentStory)) <=? 1)%nat
                 = false) by (apply Nat.leb_gt; lia).
    rewrite Hl, Hstart. simpl. rewrite str_eqb_refl, Hk.
    assert (Hhd : hd_error (obj_keys (obj_delete selected
                                        (App.passages currentStory)))
                  = Some k)
      by (rewrite keys_delete, <- find_filter_head; exact Hk).
    repeat split; [exact Hhd|].
    apply obj_get_In_keys.
    destruct (obj_keys (obj_delete selected (App.passages currentStory)))
      as [|x l]; simpl in Hhd; [discriminate|].
    inversion Hhd; subst. left; reflexivity.
Qed.


Lemma deletePassage_last_and_start_witness :
  exists newStart,
    App.deletePassageClick true (Some (lit "Start")) true true two_passages
    = ({| App.passages :=
            obj_delete (lit "Start") (App.passages two_passages);
          App.startPassage := VStr newStart |},
       App.Deleted (Some newStart)) /\
    hd_error (obj_keys (obj_delete (lit "Start")
                          (App.passages two_passages)))
    = Some newStart /\
    obj_get newStart (obj_delete (lit "Start") (App.passages two_passages))
    <> None.
Proof.
  apply (proj2 (deletePassage_last_and_start two_passages (lit "Start")
                  ltac:(discriminate))).
  - simpl. lia.
  - reflexivity.
  - reflexivity.
Defined.

(** ** Renaming a passage *)


(** C5 at a failing input. The passage [Hall] holds one marker, whose
    target is [b|Old] for [extractLinks] (the arrow goes first), so that
    no passage refers to [Old]. Renaming [Old] to [New] still rewrites
    the marker: the pass for the bar syntax, which runs first and does
    not look for an arrow, reads [Old] as its target. *)
Theorem rename_alters_other_target :
  extractLinks (lit "[[a->b|Old]]") = [lit "b|Old"] /\
  App.rewrite_links (lit "Old") (lit "New") (lit "[[a->b|Old]]")
  = lit "[[a->b|New]]" /\
  App.closePassageEditor true (Some (lit "Old")) (lit "New")
    (lit "An old room.") true rename_story
  = ({| App.passages :=
          [(lit "Hall", VObj [(lit "name", VStr (lit "Hall"));
                              (lit "content", VStr (lit "[[a->b|New]]"))]);
           (lit "New", VObj [(lit "name", VStr (lit "New"));
                             (lit "content", VStr (lit "An old room."))])];
        App.startPassage := VStr (lit "Hall") |},
     App.Renamed).
Proof. repeat split; vm_compute; reflexivity. Qed.

(** ** The playable document *)


(** C1 at a failing input. The content of the start passage is markup;
    the document that [generatePlayableHtml] writes puts it, as it is,
    into the markup of the page it shows, where the player of the editor
    shows the same passage escaped. *)
Theorem playable_content_not_escaped :
  Playable.opened markup_story
  = Some (lit "<h1>T</h1><p><img src=x onerror=alert(1)></p>") /\
  Playable.play markup_story (lit "Start")
  = lit "<h1>T</h1><p>&lt;img src=x onerror=alert(1)&gt;</p>".
Proof. split; vm_compute; reflexivity. Qed.

(** ** Numbers and their decimal text *)



Lemma is_digit_dchar d : (d <=? 9) = true -> Num.is_digit (48 + d) = true.
Proof.
  intros H. apply N.leb_le in H. unfold Num.is_digit.
  apply andb_true_iff; split; apply N.leb_le; lia.
Qed.

Lemma take_digits_dchars l rest :
  all_digits l = true -> no_digit_head rest = true ->
  Num.take_digits (Num.dchars l ++ rest) = (l, rest).
Proof.
  intros Hl Hr. induction l as [|d l IH].
  - destruct rest as [|c rest]; [reflexivity|]. simpl in *.
    apply negb_true_iff in Hr. rewrite Hr. reflexivity.
  - simpl in Hl. apply andb_true_iff in Hl. destruct Hl as [Hd Hl].
    change (Num.dchars (d :: l) ++ rest)
      with ((48 + d) :: (Num.dchars l ++ rest)).
    cbn [Num.take_digits].
    rewrite (is_digit_dchar _ Hd), (IH Hl).
    f_equal. f_equal. lia.
Qed.

Lemma dchars_app a b : Num.dchars (a ++ b) = Num.dchars a ++ Num.dchars b.
Proof. apply map_app. Qed.

Lemma zeros_dchars k : Num.zeros k = Num.dchars (repeat 0 k).
Proof.
  unfold Num.zeros, Num.dchars. induction k; simpl; [reflexivity|].
  f_equal. assumption.
Qed.

Lemma all_digits_app a b :
  all_digits (a ++ b) = all_digits a && all_digits b.
Proof. apply forallb_app. Qed.

Lemma all_digits_repeat0 k : all_digits (repeat 0 k) = true.
Proof. induction k; simpl; [reflexivity | assumption]. Qed.

(** Normal forms *)

Lemma drop_zeros_repeat k l : Num.drop_zeros (repeat 0 k ++ l) = Num.drop_zeros l.
Proof. induction k; simpl; [reflexivity | assumption]. Qed.

Lemma drop_zeros_head d l : d <> 0 -> Num.drop_zeros (d :: l) = d :: l.
Proof. intros H. simpl. destruct d; [congruence | reflexivity]. Qed.

Lemma strip_lead_repeat k l p :
  Num.strip_lead (repeat 0 k ++ l) p = Num.strip_lead l (p - Z.of_nat k).
Proof.
  revert p. induction k as [|k IH]; intros p.
  - simpl. f_equal. lia.
  - cbn [repeat app Num.strip_lead]. rewrite IH. f_equal. lia.
Qed.

Lemma strip_lead_head d l p : d <> 0 -> Num.strip_lead (d :: l) p = (d :: l, p).
Proof. intros H. simpl. destruct d; [congruence | reflexivity]. Qed.

Lemma last_nonzero_rev l :
  l <> [] -> Num.last_nonzero l = true ->
  exists d r, rev l = d :: r /\ d <> 0.
Proof.
  induction l as [|x l IH]; [congruence|]. intros _ H.
  destruct l as [|y l].
  - simpl in *. exists x, []. split; [reflexivity|].
    apply negb_true_iff, N.eqb_neq in H. exact H.
  - change (Num.last_nonzero (x :: y :: l)) with (Num.last_nonzero (y :: l)) in H.
    destruct (IH ltac:(discriminate) H) as [d [r [E Hd]]].
    exists d, (r ++ [x]). split; [|exact Hd].
    change (rev (x :: y :: l)) with (rev (y :: l) ++ [x]). rewrite E. reflexivity.
Qed.

Lemma trailing_zeros_stripped l k :
  l <> [] -> Num.last_nonzero l = true ->
  rev (Num.drop_zeros (rev (l ++ repeat 0 k))) = l.
Proof.
  intros Hl Hn. rewrite rev_app_distr, rev_repeat, drop_zeros_repeat.
  destruct (last_nonzero_rev l Hl Hn) as [d [r [E Hd]]].
  rewrite E, (drop_zeros_head _ _ Hd), <- E. apply rev_involutive.
Qed.

(** What [normalize] gives on the digits of a number in normal form
    with [j] zeros before and [k] zeros after. *)
Lemma normalize_padded sg d ds j k p :
  d <> 0 -> Num.last_nonzero (d :: ds) = true ->
  Num.normalize sg (repeat 0 j ++ (d :: ds) ++ repeat 0 k) p
  = {| Num.neg := sg; Num.digs := d :: ds; Num.pt := p - Z.of_nat j |}.
Proof.
  intros Hd Hl. unfold Num.normalize.
  rewrite strip_lead_repeat.
  change ((d :: ds) ++ repeat 0 k) with (d :: (ds ++ repeat 0 k)).
  rewrite (strip_lead_head _ _ _ Hd).
  change (d :: (ds ++ repeat 0 k)) with ((d :: ds) ++ repeat 0 k).
  rewrite trailing_zeros_stripped by (assumption || discriminate).
  reflexivity.
Qed.

Lemma normalize_exact sg d ds p :
  d <> 0 -> Num.last_nonzero (d :: ds) = true ->
  Num.normalize sg (d :: ds) p
  = {| Num.neg := sg; Num.digs := d :: ds; Num.pt := p |}.
Proof.
  intros Hd Hl. pose proof (normalize_padded sg d ds 0 0 p Hd Hl) as H.
  cbn [repeat app] in H. rewrite app_nil_r, Z.sub_0_r in H. exact H.
Qed.

Lemma normalize_lead sg d ds j p :
  d <> 0 -> Num.last_nonzero (d :: ds) = true ->
  Num.normalize sg (repeat 0 j ++ d :: ds) p
  = {| Num.neg := sg; Num.digs := d :: ds; Num.pt := p - Z.of_nat j |}.
Proof.
  intros Hd Hl. pose proof (normalize_padded sg d ds j 0 p Hd Hl) as H.
  cbn [repeat] in H. rewrite app_nil_r in H. exact H.
Qed.

Lemma normalize_trail sg d ds k p :
  d <> 0 -> Num.last_nonzero (d :: ds) = true ->
  Num.normalize sg (d :: ds ++ repeat 0 k) p
  = {| Num.neg := sg; Num.digs := d :: ds; Num.pt := p |}.
Proof.
  intros Hd Hl. pose proof (normalize_padded sg d ds 0 k p Hd Hl) as H.
  cbn [repeat app] in H. rewrite Z.sub_0_r in H. exact H.
Qed.

(** Digits of a natural number *)

Lemma of_digits_acc l a :
  fold_left (fun a d => 10 * a + d) l a
  = a * 10 ^ N.of_nat (List.length l) + Num.of_digits l.
Proof.
  unfold Num.of_digits. revert a.
  induction l as [|d l IH]; intros a.
  - simpl. lia.
  - cbn [fold_left List.length]. rewrite IH, (IH (10 * 0 + d)).
    rewrite Nat2N.inj_succ, N.pow_succ_r'. lia.
Qed.

Lemma of_digits_app a b :
  Num.of_digits (a ++ b)
  = Num.of_digits a * 10 ^ N.of_nat (List.length b) + Num.of_digits b.
Proof.
  unfold Num.of_digits at 1. rewrite fold_left_app, of_digits_acc.
  reflexivity.
Qed.

Lemma to_digits_fuel_spec f n acc :
  n < 2 ^ N.of_nat (S f) ->
  exists l,
    Num.to_digits_fuel f n acc = l ++ acc /\
    all_digits l = true /\ Num.of_digits l = n /\
    (exists d r, l = d :: r /\ (n <> 0 -> d <> 0)).
Proof.
  assert (Hone : forall n, n < 10 ->
            all_digits [n] = true /\ Num.of_digits [n] = n /\
            (exists d r, [n] = d :: r /\ (n <> 0 -> d <> 0))).
  { intros m Hm. split; [|split].
    - simpl. rewrite andb_true_r. apply N.leb_le. lia.
    - unfold Num.of_digits. simpl. lia.
    - exists m, []. split; [reflexivity | tauto]. }
  revert n acc. induction f as [|f IH]; intros n acc Hn.
  - exists [n]. assert (Hn2 : n < 2) by exact Hn. clear Hn.
    split; [reflexivity | apply Hone; lia].
  - cbn [Num.to_digits_fuel].
    destruct (N.ltb_spec n 10) as [Hlt|Hge].
    + exists [n]. split; [reflexivity | apply Hone; lia].
    + assert (Hdiv : n / 10 < 2 ^ N.of_nat (S f)).
      { rewrite Nat2N.inj_succ, N.pow_succ_r' in Hn.
        apply N.Div0.div_lt_upper_bound. lia. }
      destruct (IH (n / 10) (n mod 10 :: acc) Hdiv)
        as [l [E [Hd [Hv [d [r [El Hnz]]]]]]].
      exists (l ++ [n mod 10]). split; [|split; [|split]].
      * rewrite E, <- app_assoc. reflexivity.
      * rewrite all_digits_app, Hd. simpl. rewrite andb_true_r.
        apply N.leb_le. pose proof (N.mod_upper_bound n 10). lia.
      * rewrite of_digits_app, Hv. unfold Num.of_digits. simpl.
        pose proof (N.div_mod n 10). lia.
      * exists d, (r ++ [n mod 10]). split; [rewrite El; reflexivity|].
        intros _. apply Hnz. intros H0.
        apply N.div_small_iff in H0; lia.
Qed.

Lemma to_digits_spec n :
  exists d r,
    Num.to_digits n = d :: r /\ all_digits (d :: r) = true /\
    Num.of_digits (d :: r) = n /\ (n <> 0 -> d <> 0).
Proof.
  unfold Num.to_digits.
  assert (Hn : n < 2 ^ N.of_nat (S (N.to_nat (N.log2 n)))).
  { rewrite Nat2N.inj_succ, N2Nat.id.
    destruct (N.eq_dec n 0) as [->|Hz]; [reflexivity|].
    apply N.log2_spec. lia. }
  destruct (to_digits_fuel_spec _ n [] Hn)
    as [l [E [Hd [Hv [d [r [El Hnz]]]]]]].
  rewrite app_nil_r in E. rewrite E. clear E. subst l.
  exists d, r. split; [reflexivity|]. split; [assumption|].
  split; assumption.
Qed.

Lemma dec_str_parse n rest :
  no_digit_head rest = true ->
  exists l, Num.take_digits (Num.dec_str n ++ rest) = (l, rest) /\
            l <> [] /\ Num.of_digits l = n.
Proof.
  intros Hr. destruct (to_digits_spec n) as [d [r [E [Hd [Hv _]]]]].
  exists (d :: r). unfold Num.dec_str. rewrite E.
  rewrite (take_digits_dchars _ _ Hd Hr).
  split; [reflexivity|]. split; [discriminate | assumption].
Qed.


Lemma num_follow_no_digit s : num_follow s = true -> no_digit_head s = true.
Proof.
  destruct s as [|c s]; simpl; [reflexivity|].
  intros H. apply negb_true_iff in H. apply negb_true_iff.
  apply orb_false_iff in H. destruct H as [H _].
  apply orb_false_iff in H. destruct H as [H _].
  apply orb_false_iff in H. tauto.
Qed.

Lemma parse_fraction_none s :
  num_follow s = true -> Num.parse_fraction s = Some ([], s).
Proof.
  destruct s as [|c s]; simpl; [reflexivity|].
  intros H. apply negb_true_iff in H.
  apply orb_false_iff in H. destruct H as [H _].
  apply orb_false_iff in H. destruct H as [H _].
  apply orb_false_iff in H. destruct H as [_ H].
  rewrite H. reflexivity.
Qed.

Lemma parse_exponent_none s :
  num_follow s = true -> Num.parse_exponent s = Some (0%Z, s).
Proof.
  destruct s as [|c s]; simpl; [reflexivity|].
  intros H. apply negb_true_iff in H.
  apply orb_false_iff in H. destruct H as [H H69].
  apply orb_false_iff in H. destruct H as [_ H101].
  rewrite H101, H69. reflexivity.
Qed.

Lemma parse_fraction_digits l rest :
  l <> [] -> all_digits l = true -> no_digit_head rest = true ->
  Num.parse_fraction (46 :: Num.dchars l ++ rest) = Some (l, rest).
Proof.
  intros Hl Hd Hr. unfold Num.parse_fraction.
  change (46 =? 46) with true. cbv iota.
  rewrite (take_digits_dchars _ _ Hd Hr).
  destruct l; [congruence | reflexivity].
Qed.

Lemma parse_exponent_digits (neg : bool) (m : N) rest :
  no_digit_head rest = true ->
  Num.parse_exponent
    (101 :: (if neg then [45] else [43]) ++ Num.dec_str m ++ rest)
  = Some ((if neg then - Z.of_N m else Z.of_N m)%Z, rest).
Proof.
  intros Hr. destruct (dec_str_parse m rest Hr) as [l [E [Hl Hv]]].
  unfold Num.parse_exponent.
  change ((101 =? 101) || (101 =? 69)) with true. cbv iota.
  destruct neg; cbn [app]; cbv iota.
  - change (45 =? 45) with true. cbv iota. rewrite E.
    destruct l; [congruence|]. rewrite Hv. reflexivity.
  - change (43 =? 45) with false. change (43 =? 43) with true. cbv iota.
    rewrite E. destruct l; [congruence|]. rewrite Hv. reflexivity.
Qed.

Lemma parse_sign_body (neg : bool) c body :
  c <> 45 ->
  Num.parse_sign ((if neg then [45] else []) ++ c :: body) = (neg, c :: body).
Proof.
  intros Hc. destruct neg; simpl; [reflexivity|].
  apply N.eqb_neq in Hc. rewrite Hc. reflexivity.
Qed.

Lemma parse_steps s sg s1 d ip s2 fp s3 e s4 :
  Num.parse_sign s = (sg, s1) ->
  Num.take_digits s1 = (d :: ip, s2) ->
  d <> 0 \/ ip = [] ->
  Num.parse_fraction s2 = Some (fp, s3) ->
  Num.parse_exponent s3 = Some (e, s4) ->
  Num.parse s
  = Some (Num.normalize sg ((d :: ip) ++ fp)
            (Z.of_nat (List.length (d :: ip)) + e), s4).
Proof.
  intros H1 H2 H3 H4 H5. unfold Num.parse. rewrite H1, H2.
  assert (E : (d =? 0) && negb (match ip with [] => true | _ => false end)
              = false).
  { destruct H3 as [H3| ->]; [|apply andb_false_r].
    apply N.eqb_neq in H3. rewrite H3. reflexivity. }
  rewrite E, H4, H5. reflexivity.
Qed.

Lemma wf_digits (n : num) d ds :
  Num.wf n = true -> Num.digs n = d :: ds ->
  all_digits (d :: ds) = true /\ d <> 0 /\ Num.last_nonzero (d :: ds) = true.
Proof.
  unfold Num.wf. intros H E. rewrite E in H.
  apply andb_true_iff in H. destruct H as [H1 H2].
  apply andb_true_iff in H2. destruct H2 as [H2 H3].
  apply negb_true_iff, N.eqb_neq in H2. tauto.
Qed.

Lemma dchar_not_minus d : (d <=? 9) = true -> 48 + d <> 45.
Proof. intros H. apply N.leb_le in H. lia. Qed.

Lemma follow_point l rest : no_digit_head (46 :: l ++ rest) = true.
Proof. reflexivity. Qed.

(** The text of a number reads back as the number. *)
Lemma num_parse_to_str (n : num) rest :
  Num.wf n = true -> num_follow rest = true ->
  Num.parse (Num.to_str n ++ rest) = Some (n, rest).
Proof.
  intros Hwf Hf.
  pose proof (num_follow_no_digit _ Hf) as Hnd.
  destruct n as [sg digs p]. unfold Num.to_str. cbn [Num.digs Num.neg Num.pt].
  destruct digs as [|d ds].
  - (* zero *)
    unfold Num.wf in Hwf. simpl in Hwf.
    apply andb_true_iff in Hwf. destruct Hwf as [Hs Hp].
    apply negb_true_iff in Hs. apply Z.eqb_eq in Hp. subst.
    change (lit "0" ++ rest) with (Num.dchars [0] ++ rest).
    rewrite (parse_steps _ false (Num.dchars [0] ++ rest) 0 [] rest [] rest 0%Z rest).
    + reflexivity.
    + simpl. reflexivity.
    + apply take_digits_dchars; [reflexivity | assumption].
    + right; reflexivity.
    + apply parse_fraction_none; assumption.
    + apply parse_exponent_none; assumption.
  - destruct (wf_digits _ d ds Hwf eq_refl) as [Hd [Hd0 Hl]].
    assert (Hd9 : (d <=? 9) = true)
      by (simpl in Hd; apply andb_true_iff in Hd; tauto).
    assert (Hds : all_digits ds = true)
      by (simpl in Hd; apply andb_true_iff in Hd; tauto).
    set (k := Z.of_nat (List.length (d :: ds))).
    assert (Hk : (k = Z.of_nat (S (List.length ds)))) by reflexivity.
    rewrite <- app_assoc.
    destruct ((k <=? p) && (p <=? 21))%Z eqn:C1.
    { (* digits, then zeros *)
      apply andb_true_iff in C1. destruct C1 as [C1 C1'].
      apply Z.leb_le in C1. apply Z.leb_le in C1'.
      rewrite zeros_dchars, <- dchars_app.
      change (Num.dchars ((d :: ds) ++ repeat 0 (Z.to_nat (p - k))) ++ rest)
        with ((48 + d) ::
              (Num.dchars (ds ++ repeat 0 (Z.to_nat (p - k))) ++ rest)).
      rewrite (parse_steps _ sg
                 ((48 + d) ::
                  (Num.dchars (ds ++ repeat 0 (Z.to_nat (p - k))) ++ rest))
                 d (ds ++ repeat 0 (Z.to_nat (p - k))) rest [] rest 0%Z rest).
      - rewrite app_nil_r, (normalize_trail sg d ds _ _ Hd0 Hl).
        f_equal. f_equal. f_equal. cbn [List.length].
        rewrite length_app, repeat_length. lia.
      - apply parse_sign_body, dchar_not_minus; assumption.
      - change ((48 + d) ::
                (Num.dchars (ds ++ repeat 0 (Z.to_nat (p - k))) ++ rest))
          with (Num.dchars (d :: ds ++ repeat 0 (Z.to_nat (p - k))) ++ rest).
        apply take_digits_dchars; [|assumption].
        change (d :: ds ++ repeat 0 (Z.to_nat (p - k)))
          with ((d :: ds) ++ repeat 0 (Z.to_nat (p - k))).
        rewrite all_digits_app, Hd, all_digits_repeat0. reflexivity.
      - left; assumption.
      - apply parse_fraction_none; assumption.
      - apply parse_exponent_none; assumption. }
    destruct ((0 <? p) && (p <=? 21))%Z eqn:C2.
    { (* a point inside the digits *)
      apply andb_true_iff in C2. destruct C2 as [C2 C2'].
      apply Z.ltb_lt in C2. apply Z.leb_le in C2'.
      apply andb_false_iff in C1.
      assert (Hpk : (p < k)%Z).
      { destruct C1 as [C1|C1]; [apply Z.leb_gt in C1; lia|].
        apply Z.leb_gt in C1. lia. }
      set (e := Z.to_nat p).
      assert (He : (1 <= e <= List.length ds)%nat) by (unfold e; simpl in Hk; lia).
      destruct e as [|e'] eqn:Ee; [lia|].
      cbn [firstn skipn].
      rewrite <- !app_assoc.
      change (Num.dchars (d :: firstn e' ds) ++
              lit "." ++ Num.dchars (skipn e' ds) ++ rest)
        with ((48 + d) ::
              (Num.dchars (firstn e' ds) ++
               46 :: Num.dchars (skipn e' ds) ++ rest)).
      assert (Hfd : all_digits (firstn e' ds) = true /\
                    all_digits (skipn e' ds) = true).
      { rewrite <- (firstn_skipn e' ds), all_digits_app in Hds.
        apply andb_true_iff in Hds. exact Hds. }
      assert (Hsk : skipn e' ds <> []).
      { intros E. pose proof (length_skipn e' ds) as L. rewrite E in L.
        simpl in L. lia. }
      rewrite (parse_steps _ sg
                 ((48 + d) ::
                  (Num.dchars (firstn e' ds) ++
                   46 :: Num.dchars (skipn e' ds) ++ rest))
                 d (firstn e' ds) (46 :: Num.dchars (skipn e' ds) ++ rest)
                 (skipn e' ds) rest 0%Z rest).
      - change ((d :: firstn e' ds) ++ skipn e' ds)
          with (d :: (firstn e' ds ++ skipn e' ds)).
        rewrite firstn_skipn, (normalize_exact sg d ds _ Hd0 Hl).
        f_equal. f_equal. f_equal. cbn [List.length].
        rewrite length_firstn. lia.
      - apply parse_sign_body, dchar_not_minus; assumption.
      - change ((48 + d) ::
                (Num.dchars (firstn e' ds) ++
                 46 :: Num.dchars (skipn e' ds) ++ rest))
          with (Num.dchars (d :: firstn e' ds) ++
                46 :: Num.dchars (skipn e' ds) ++ rest).
        apply take_digits_dchars; [|reflexivity].
        simpl. rewrite Hd9. simpl. tauto.
      - left; assumption.
      - apply parse_fraction_digits; tauto.
      - apply parse_exponent_none; assumption. }
    destruct ((-6 <? p) && (p <=? 0))%Z eqn:C3.
    { (* zero, a point, zeros, then the digits *)
      apply andb_true_iff in C3. destruct C3 as [C3 C3'].
      apply Z.ltb_lt in C3. apply Z.leb_le in C3'.
      rewrite <- !app_assoc, zeros_dchars.
      rewrite (app_assoc (Num.dchars (repeat 0 (Z.to_nat (- p))))),
        <- dchars_app.
      change (lit "0." ++
              Num.dchars (repeat 0 (Z.to_nat (- p)) ++ d :: ds) ++ rest)
        with (Num.dchars [0] ++
              46 :: Num.dchars (repeat 0 (Z.to_nat (- p)) ++ d :: ds) ++ rest).
      rewrite (parse_steps _ sg
                 (Num.dchars [0] ++
                  46 :: Num.dchars (repeat 0 (Z.to_nat (- p)) ++ d :: ds)
                  ++ rest)
                 0 []
                 (46 :: Num.dchars (repeat 0 (Z.to_nat (- p)) ++ d :: ds)
                  ++ rest)
                 (repeat 0 (Z.to_nat (- p)) ++ d :: ds) rest 0%Z rest).
      - change ([0] ++ repeat 0 (Z.to_nat (- p)) ++ d :: ds)
          with (repeat 0 (S (Z.to_nat (- p))) ++ d :: ds).
        rewrite (normalize_lead sg d ds _ _ Hd0 Hl).
        f_equal. f_equal. f_equal. cbn [List.length]. lia.
      - destruct sg; reflexivity.
      - apply take_digits_dchars; reflexivity.
      - right; reflexivity.
      - apply parse_fraction_digits; [destruct (Z.to_nat (- p)); discriminate | | assumption].
        rewrite all_digits_app, all_digits_repeat0, Hd. reflexivity.
      - apply parse_exponent_none; assumption. }
    (* exponent notation *)
    set (tail := lit "e" ++
                 (if (p - 1 <? 0)%Z then lit "-" else lit "+") ++
                 Num.dec_str (Z.abs_N (p - 1))).
    assert (Hexp : Num.parse_exponent (tail ++ rest) = Some ((p - 1)%Z, rest)).
    { unfold tail. rewrite <- !app_assoc.
      change (lit "e" ++
              (if (p - 1 <? 0)%Z then lit "-" else lit "+") ++
              Num.dec_str (Z.abs_N (p - 1)) ++ rest)
        with (101 :: (if (p - 1 <? 0)%Z then [45] else [43]) ++
              Num.dec_str (Z.abs_N (p - 1)) ++ rest).
      rewrite (parse_exponent_digits _ _ _ Hnd). f_equal. f_equal.
      destruct (Z.ltb_spec (p - 1) 0); lia. }
    assert (Htail : exists t', tail ++ rest = 101 :: t').
    { unfold tail. eexists. rewrite <- app_assoc. reflexivity. }
    destruct Htail as [t' Et'].
    destruct ds as [|d2 ds'].
    + change ((Num.dchars [d] ++ [] ++ tail) ++ rest)
        with ((48 + d) :: (tail ++ rest)).
      rewrite (parse_steps _ sg ((48 + d) :: (tail ++ rest))
                 d [] (tail ++ rest) [] (tail ++ rest) (p - 1)%Z rest).
      * change ([d] ++ []) with [d].
        rewrite (normalize_exact sg d [] _ Hd0 Hl).
        f_equal. f_equal. f_equal. cbn [List.length]. lia.
      * apply parse_sign_body, dchar_not_minus; assumption.
      * change ((48 + d) :: (tail ++ rest))
          with (Num.dchars [d] ++ (tail ++ rest)).
        apply take_digits_dchars; [exact Hd | rewrite Et'; reflexivity].
      * left; assumption.
      * rewrite Et'. reflexivity.
      * exact Hexp.
    + change ((Num.dchars [d] ++
               (lit "." ++ Num.dchars (d2 :: ds')) ++ tail) ++ rest)
        with ((48 + d) :: 46 :: ((Num.dchars (d2 :: ds') ++ tail) ++ rest)).
      rewrite <- app_assoc.
      rewrite (parse_steps _ sg
                 ((48 + d) :: 46 :: Num.dchars (d2 :: ds') ++ tail ++ rest)
                 d [] (46 :: Num.dchars (d2 :: ds') ++ tail ++ rest)
                 (d2 :: ds') (tail ++ rest) (p - 1)%Z rest).
      * change ([d] ++ d2 :: ds') with (d :: d2 :: ds').
        rewrite (normalize_exact sg d (d2 :: ds') _ Hd0 Hl).
        f_equal. f_equal. f_equal. cbn [List.length]. lia.
      * apply parse_sign_body, dchar_not_minus; assumption.
      * change ((48 + d) :: 46 :: Num.dchars (d2 :: ds') ++ tail ++ rest)
          with (Num.dchars [d] ++
                46 :: Num.dchars (d2 :: ds') ++ tail ++ rest).
        apply take_digits_dchars; [|reflexivity].
        simpl. rewrite Hd9. reflexivity.
      * left; assumption.
      * apply parse_fraction_digits;
          [discriminate | exact Hds | rewrite Et'; reflexivity].
      * exact Hexp.
Qed.

Lemma last_nonzero_snoc l x : Num.last_nonzero (l ++ [x]) = negb (x =? 0).
Proof.
  induction l as [|y l IH]; [reflexivity|].
  destruct l as [|z l]; [reflexivity|]. exact IH.
Qed.


Lemma strip_trail_spec l :
  all_digits l = true ->
  exists k,
    l = strip_trail l ++ repeat 0 k /\
    all_digits (strip_trail l) = true /\
    Num.last_nonzero (strip_trail l) = true.
Proof.
  unfold strip_trail.
  induction l as [|x l IH] using rev_ind; intros Hd.
  - exists O. repeat split.
  - rewrite all_digits_app in Hd. apply andb_true_iff in Hd.
    destruct Hd as [Hl Hx]. rewrite rev_app_distr. cbn [rev app].
    destruct (N.eq_dec x 0) as [->|Hx0].
    + cbn [Num.drop_zeros]. destruct (IH Hl) as [k [E [Hd Hn]]].
      exists (S k). split; [|split; assumption].
      rewrite E at 1. rewrite <- app_assoc. f_equal.
      change [0] with (repeat (0:N) 1). rewrite <- repeat_app.
      f_equal. lia.
    + rewrite (drop_zeros_head _ _ Hx0).
      change (x :: rev l) with (rev [x] ++ rev l).
      rewrite <- rev_app_distr, rev_involutive.
      exists O. rewrite app_nil_r. split; [reflexivity|]. split.
      * rewrite all_digits_app, Hl, Hx. reflexivity.
      * rewrite last_nonzero_snoc. apply negb_true_iff, N.eqb_neq. exact Hx0.
Qed.

Lemma strip_lead_spec l p :
  all_digits l = true ->
  exists l1 p1,
    Num.strip_lead l p = (l1, p1) /\ all_digits l1 = true /\
    match l1 with [] => True | d :: _ => d <> 0 end.
Proof.
  revert p. induction l as [|x l IH]; intros p Hd.
  - exists [], p. repeat split.
  - simpl in Hd. apply andb_true_iff in Hd. destruct Hd as [Hx Hl].
    destruct (N.eq_dec x 0) as [->|Hx0].
    + cbn [Num.strip_lead]. apply IH. exact Hl.
    + exists (x :: l), p. rewrite (strip_lead_head _ _ _ Hx0).
      split; [reflexivity|]. split; [|exact Hx0].
      simpl. rewrite Hx, Hl. reflexivity.
Qed.

Lemma normalize_wf sg l p :
  all_digits l = true -> Num.wf (Num.normalize sg l p) = true.
Proof.
  intros Hd. unfold Num.normalize.
  destruct (strip_lead_spec l p Hd) as [l1 [p1 [E [Hd1 Hh]]]].
  rewrite E. fold (strip_trail l1).
  destruct (strip_trail_spec l1 Hd1) as [k [El [Hd2 Hn]]].
  destruct (strip_trail l1) as [|y ys] eqn:Es; [reflexivity|].
  unfold Num.wf. cbn [Num.digs Num.neg Num.pt].
  unfold all_digits in Hd2. rewrite Hd2, Hn.
  destruct l1 as [|d l1']; [discriminate|].
  inversion El; subst. apply N.eqb_neq in Hh. rewrite Hh. reflexivity.
Qed.

Lemma of_Z_wf z : Num.wf (Num.of_Z z) = true.
Proof.
  unfold Num.of_Z. apply normalize_wf.
  destruct (to_digits_spec (Z.abs_N z)) as [d [r [E [Hd _]]]].
  rewrite E. exact Hd.
Qed.

(** ** Strings and their JSON text *)

Lemma hex_val_digit d : d < 16 -> hex_val (JSON.hex_digit d) = Some d.
Proof.
  intros Hd. unfold JSON.hex_digit, hex_val.
  destruct (N.ltb_spec d 10).
  - replace ((48 <=? 48 + d) && (48 + d <=? 57)) with true.
    + f_equal. lia.
    + symmetry. apply andb_true_iff; split; apply N.leb_le; lia.
  - replace ((48 <=? 87 + d) && (87 + d <=? 57)) with false.
    + replace ((97 <=? 87 + d) && (87 + d <=? 102)) with true.
      * f_equal. lia.
      * symmetry. apply andb_true_iff; split; apply N.leb_le; lia.
    + symmetry. apply andb_false_iff. right. apply N.leb_gt. lia.
Qed.

Lemma hex4_uesc c :
  c < 65536 ->
  JSON.hex4 (JSON.hex_digit (c / 4096)) (JSON.hex_digit ((c / 256) mod 16))
    (JSON.hex_digit ((c / 16) mod 16)) (JSON.hex_digit (c mod 16))
  = Some c.
Proof.
  intros Hc. unfold JSON.hex4.
  rewrite !hex_val_digit.
  - f_equal.
    pose proof (N.div_mod c 16 ltac:(lia)).
    pose proof (N.div_mod (c / 16) 16 ltac:(lia)).
    pose proof (N.div_mod (c / 256) 16 ltac:(lia)).
    assert (c / 256 = c / 16 / 16) by (rewrite N.Div0.div_div; reflexivity).
    assert (c / 4096 = c / 256 / 16) by (rewrite N.Div0.div_div; reflexivity).
    pose proof (N.mod_upper_bound c 16 ltac:(lia)).
    pose proof (N.mod_upper_bound (c / 16) 16 ltac:(lia)).
    pose proof (N.mod_upper_bound (c / 256) 16 ltac:(lia)).
    lia.
  - apply N.mod_upper_bound. lia.
  - apply N.mod_upper_bound. lia.
  - apply N.mod_upper_bound. lia.
  - apply N.Div0.div_lt_upper_bound. lia.
Qed.

Lemma parse_chars_uesc c x :
  c < 65536 ->
  JSON.parse_chars (JSON.uesc c ++ x)
  = match JSON.parse_chars x with
    | Some (t, r) => Some (c :: t, r)
    | None => None
    end.
Proof.
  intros Hc. unfold JSON.uesc. cbn [app JSON.parse_chars].
  change (92 =? 34) with false. change (92 =? 92) with true.
  change (117 =? 117) with true. cbv iota.
  rewrite (hex4_uesc c Hc). reflexivity.
Qed.

Lemma parse_chars_plain c x :
  c <> 34 -> c <> 92 -> 32 <= c ->
  JSON.parse_chars (c :: x)
  = match JSON.parse_chars x with
    | Some (t, r) => Some (c :: t, r)
    | None => None
    end.
Proof.
  intros H1 H2 H3. cbn [JSON.parse_chars].
  apply N.eqb_neq in H1. apply N.eqb_neq in H2.
  rewrite H1, H2. destruct (N.ltb_spec c 32); [lia | reflexivity].
Qed.

Lemma parse_chars_esc1 c x :
  JSON.is_high c = false -> JSON.is_low c = false ->
  JSON.parse_chars (JSON.esc1 c ++ x)
  = match JSON.parse_chars x with
    | Some (t, r) => Some (c :: t, r)
    | None => None
    end.
Proof.
  intros Hh Hl. unfold JSON.esc1.
  destruct (N.eqb_spec c 34) as [->|N34]; [reflexivity|].
  destruct (N.eqb_spec c 92) as [->|N92]; [reflexivity|].
  destruct (N.eqb_spec c 8) as [->|N8]; [reflexivity|].
  destruct (N.eqb_spec c 12) as [->|N12]; [reflexivity|].
  destruct (N.eqb_spec c 10) as [->|N10]; [reflexivity|].
  destruct (N.eqb_spec c 13) as [->|N13]; [reflexivity|].
  destruct (N.eqb_spec c 9) as [->|N9]; [reflexivity|].
  destruct (N.ltb_spec c 32).
  - apply parse_chars_uesc. lia.
  - apply parse_chars_plain; assumption.
Qed.

(** The text between the quotes reads back as the string. *)
Lemma parse_chars_escape s : forall b rest,
  JSON.parse_chars (JSON.escape b s ++ 34 :: rest) = Some (s, rest).
Proof.
  induction s as [|c s IH]; intros b rest; [reflexivity|].
  cbn [JSON.escape].
  destruct (JSON.is_high c && match s with d :: _ => JSON.is_low d | [] => false end)
    eqn:E1.
  { apply andb_true_iff in E1. destruct E1 as [Hh _].
    unfold JSON.is_high in Hh. apply andb_true_iff in Hh.
    destruct Hh as [Hh _]. apply N.leb_le in Hh.
    change ((c :: JSON.escape true s) ++ 34 :: rest)
      with (c :: (JSON.escape true s ++ 34 :: rest)).
    rewrite parse_chars_plain by lia. rewrite IH. reflexivity. }
  destruct (JSON.is_low c && b) eqn:E2.
  { apply andb_true_iff in E2. destruct E2 as [Hl _].
    unfold JSON.is_low in Hl. apply andb_true_iff in Hl.
    destruct Hl as [Hl _]. apply N.leb_le in Hl.
    change ((c :: JSON.escape false s) ++ 34 :: rest)
      with (c :: (JSON.escape false s ++ 34 :: rest)).
    rewrite parse_chars_plain by lia. rewrite IH. reflexivity. }
  destruct (JSON.is_high c || JSON.is_low c) eqn:E3.
  { rewrite <- app_assoc, parse_chars_uesc, IH; [reflexivity|].
    apply orb_true_iff in E3. unfold JSON.is_high, JSON.is_low in E3.
    destruct E3 as [E3|E3]; apply andb_true_iff in E3;
      destruct E3 as [_ E3]; apply N.leb_le in E3; lia. }
  apply orb_false_iff in E3. destruct E3 as [Hh Hl].
  rewrite <- app_assoc, (parse_chars_esc1 _ _ Hh Hl), IH. reflexivity.
Qed.

Lemma parse_chars_quote s rest :
  exists t, JSON.quote s = 34 :: t /\
            JSON.parse_chars (t ++ rest) = Some (s, rest).
Proof.
  exists (JSON.escape false s ++ dq). split; [reflexivity|].
  rewrite <- app_assoc. apply parse_chars_escape.
Qed.

(** ** Integers as numbers *)

Lemma of_digits_cons d r :
  Num.of_digits (d :: r) = d * 10 ^ N.of_nat (List.length r) + Num.of_digits r.
Proof.
  change (d :: r) with ([d] ++ r). rewrite of_digits_app.
  unfold Num.of_digits at 1. simpl. reflexivity.
Qed.

Lemma of_digits_zeros k : Num.of_digits (repeat 0 k) = 0.
Proof.
  induction k as [|k IH]; [reflexivity|].
  cbn [repeat]. rewrite of_digits_cons, IH. lia.
Qed.

(** The number of a non-zero integer: its digits without the zeros at the
    end, and the point after all of them. *)
Lemma of_Z_digits z :
  z <> 0%Z ->
  exists d ys k,
    d <> 0 /\
    Num.to_digits (Z.abs_N z) = (d :: ys) ++ repeat 0 k /\
    Num.of_Z z = {| Num.neg := (z <? 0)%Z; Num.digs := d :: ys;
                    Num.pt := Z.of_nat (List.length (d :: ys) + k) |}.
Proof.
  intros Hnz. unfold Num.of_Z.
  destruct (to_digits_spec (Z.abs_N z)) as [d [r [E [Hd [_ Hd0]]]]].
  assert (Hd1 : d <> 0) by (apply Hd0; lia).
  rewrite E.
  destruct (strip_trail_spec (d :: r) Hd) as [k [Ek [_ Hn]]].
  destruct (strip_trail (d :: r)) as [|y ys] eqn:Es.
  - destruct k; discriminate || (inversion Ek; congruence).
  - assert (Ey : y = d) by (inversion Ek; reflexivity). subst y.
    exists d, ys, k. split; [exact Hd1|]. split; [exact Ek|].
    rewrite Ek at 1. rewrite Ek at 1.
    cbn [app]. rewrite (normalize_trail _ d ys k _ Hd1 Hn).
    f_equal. cbn [List.length]. rewrite length_app, repeat_length.
    reflexivity.
Qed.

(** [Math.round] leaves an integer as it is. *)
Lemma round_of_Z z : Num.round (Num.of_Z z) = z.
Proof.
  destruct (Z.eq_dec z 0) as [->|Hnz]; [reflexivity|].
  destruct (of_Z_digits z Hnz) as [d [ys [k [_ [E ->]]]]].
  destruct (to_digits_spec (Z.abs_N z)) as [d' [r [E' [_ [Hv _]]]]].
  rewrite E' in E. rewrite E, of_digits_app, of_digits_zeros in Hv.
  rewrite repeat_length, N.add_0_r in Hv.
  unfold Num.round, Num.signed_digits. cbn [Num.digs Num.neg Num.pt].
  replace (Z.of_nat (List.length (d :: ys))
           <=? Z.of_nat (List.length (d :: ys) + k))%Z with true
    by (symmetry; apply Z.leb_le; lia).
  replace (Z.of_nat (List.length (d :: ys) + k)
           - Z.of_nat (List.length (d :: ys)))%Z with (Z.of_nat k) by lia.
  assert (Hz : (Z.of_N (Num.of_digits (d :: ys)) * 10 ^ Z.of_nat k
                = Z.abs z)%Z).
  { rewrite <- N2Z.inj_abs_N, <- Hv, N2Z.inj_mul, N2Z.inj_pow.
    rewrite nat_N_Z. reflexivity. }
  destruct (Z.ltb_spec z 0); lia.
Qed.

(** Below [10^21] the text of an integer in a template literal is its
    sign and its decimal digits: no exponent and no fraction. *)
Lemma int_text_decimal z :
  (Z.abs z < 10 ^ 21)%Z ->
  int_text z
  = (if (z <? 0)%Z then lit "-" else []) ++ Num.dec_str (Z.abs_N z).
Proof.
  intros Hz. unfold int_text, Num.dec_str.
  destruct (Z.eq_dec z 0) as [->|Hnz]; [reflexivity|].
  destruct (of_Z_digits z Hnz) as [d [ys [k [Hd1 [E ->]]]]].
  destruct (to_digits_spec (Z.abs_N z)) as [d' [r [E' [_ [Hv _]]]]].
  rewrite E. rewrite E' in E. rewrite E in Hv. clear E E' d' r.
  assert (Hlen : (List.length (d :: ys) + k <= 21)%nat).
  { change ((d :: ys) ++ repeat 0 k) with (d :: (ys ++ repeat 0 k)) in Hv.
    rewrite of_digits_cons, length_app, repeat_length in Hv.
    assert (Hp : 10 ^ N.of_nat (List.length ys + k) <= Z.abs_N z) by nia.
    assert (Hlt : Z.abs_N z < 10 ^ 21).
    { apply N2Z.inj_lt. rewrite N2Z.inj_abs_N. exact Hz. }
    cbn [List.length].
    destruct (Nat.lt_ge_cases (List.length ys + k) 21) as [H|H]; [exact H|].
    assert (Hm : 10 ^ 21 <= 10 ^ N.of_nat (List.length ys + k)).
    { apply N.pow_le_mono_r; lia. }
    lia. }
  unfold Num.to_str. cbn [Num.digs Num.neg Num.pt].
  replace ((Z.of_nat (List.length (d :: ys))
            <=? Z.of_nat (List.length (d :: ys) + k))%Z
           && (Z.of_nat (List.length (d :: ys) + k) <=? 21)%Z) with true
    by (symmetry; apply andb_true_iff; split; apply Z.leb_le; lia).
  replace (Z.to_nat (Z.of_nat (List.length (d :: ys) + k)
                     - Z.of_nat (List.length (d :: ys)))) with k by lia.
  f_equal. rewrite zeros_dchars, <- dchars_app. reflexivity.
Qed.

(** ** Values and their JSON text *)


Lemma skip_ws_spaces ws c r :
  spaces ws = true -> JSON.is_space c = false ->
  JSON.skip_ws (ws ++ c :: r) = c :: r.
Proof.
  intros Hw Hc. induction ws as [|w ws IH]; simpl.
  - rewrite Hc. reflexivity.
  - simpl in Hw. apply andb_true_iff in Hw. destruct Hw as [H1 H2].
    rewrite H1. apply IH. exact H2.
Qed.

Lemma spaces_app a b : spaces (a ++ b) = spaces a && spaces b.
Proof. apply forallb_app. Qed.

Lemma spaces_indent ind : spaces ind = true -> spaces (ind ++ lit "  ") = true.
Proof. intros H. rewrite spaces_app, H. reflexivity. Qed.

Lemma spaces_nl ind : spaces ind = true -> spaces (nl ++ ind) = true.
Proof. intros H. rewrite spaces_app, H. reflexivity. Qed.

Lemma array_items_fix ind l :
  (fix go (l : list value) : list str :=
     match l with
     | [] => []
     | x :: l' =>
         match JSON.stringify_at ind x with
         | Some t => t
         | None => lit "null"
         end :: go l'
     end) l = array_items ind l.
Proof.
  induction l as [|x l IH]; [reflexivity|].
  cbn [array_items]. rewrite <- IH. reflexivity.
Qed.

Lemma object_items_fix ind o :
  (fix go (o : obj) : list str :=
     match o with
     | [] => []
     | (k, x) :: o' =>
         match JSON.stringify_at ind x with
         | Some t => (JSON.quote k ++ lit ": " ++ t) :: go o'
         | None => go o'
         end
     end) o = object_items ind o.
Proof.
  induction o as [|[k x] o IH]; [reflexivity|].
  cbn [object_items]. rewrite <- IH. reflexivity.
Qed.

Lemma stringify_at_arr ind l :
  JSON.stringify_at ind (VArr l)
  = match array_items (ind ++ lit "  ") l with
    | [] => Some (lit "[]")
    | _ :: _ =>
        Some (lit "[" ++ nl ++ (ind ++ lit "  ") ++
              join (lit "," ++ nl ++ (ind ++ lit "  "))
                (array_items (ind ++ lit "  ") l) ++
              nl ++ ind ++ lit "]")
    end.
Proof.
  cbn [JSON.stringify_at]. rewrite array_items_fix.
  destruct (array_items (ind ++ lit "  ") l); reflexivity.
Qed.

Lemma stringify_at_obj ind o :
  JSON.stringify_at ind (VObj o)
  = match object_items (ind ++ lit "  ") o with
    | [] => Some (lit "{}")
    | _ :: _ =>
        Some (lit "{" ++ nl ++ (ind ++ lit "  ") ++
              join (lit "," ++ nl ++ (ind ++ lit "  "))
                (object_items (ind ++ lit "  ") o) ++
              nl ++ ind ++ lit "}")
    end.
Proof.
  cbn [JSON.stringify_at]. rewrite object_items_fix.
  destruct (object_items (ind ++ lit "  ") o); reflexivity.
Qed.

Lemma wf_arr x l :
  wf_value (VArr (x :: l)) = wf_value x && wf_value (VArr l).
Proof. reflexivity. Qed.

Lemma wf_obj o :
  wf_value (VObj o)
  = distinct (List.map fst o) && forallb (fun kv => wf_value (snd kv)) o.
Proof.
  cbn [wf_value]. f_equal.
  induction o as [|[k x] o IH]; [reflexivity|].
  cbn [forallb snd]. rewrite <- IH. reflexivity.
Qed.

(** One step of [parse_value]. *)
Lemma parse_value_step n s :
  JSON.parse_value (S n) s
  = match JSON.skip_ws s with
    | [] => None
    | c :: r =>
        if c =? 123 then
          match JSON.skip_ws r with
          | [] => None
          | c1 :: r1 =>
              if c1 =? 125 then Some (VObj [], r1)
              else JSON.parse_members n r []
          end
        else if c =? 91 then
          match JSON.skip_ws r with
          | [] => None
          | c1 :: r1 =>
              if c1 =? 93 then Some (VArr [], r1)
              else JSON.parse_elements n r []
          end
        else if c =? 34 then
          match JSON.parse_chars r with
          | Some (t, r1) => Some (VStr t, r1)
          | None => None
          end
        else if startsWith (lit "true") (c :: r) then
          Some (VBool true, skipn 4 (c :: r))
        else if startsWith (lit "false") (c :: r) then
          Some (VBool false, skipn 5 (c :: r))
        else if startsWith (lit "null") (c :: r) then
          Some (VNull, skipn 4 (c :: r))
        else
          match Num.parse (c :: r) with
          | Some (x, r1) => Some (VNum x, r1)
          | None => None
          end
    end.
Proof. reflexivity. Qed.

Lemma parse_elements_step n s acc :
  JSON.parse_elements (S n) s acc
  = match JSON.parse_value n s with
    | Some (v, r) =>
        match JSON.skip_ws r with
        | [] => None
        | c :: r1 =>
            if c =? 44 then JSON.parse_elements n r1 (acc ++ [v])
            else if c =? 93 then Some (VArr (acc ++ [v]), r1)
            else None
        end
    | None => None
    end.
Proof. reflexivity. Qed.

Lemma parse_members_step n s acc :
  JSON.parse_members (S n) s acc
  = match JSON.skip_ws s with
    | [] => None
    | q :: r =>
        if q =? 34 then
          match JSON.parse_chars r with
          | Some (k, r1) =>
              match JSON.skip_ws r1 with
              | [] => None
              | c :: r2 =>
                  if c =? 58 then
                    match JSON.parse_value n r2 with
                    | Some (v, r3) =>
                        match JSON.skip_ws r3 with
                        | [] => None
                        | c1 :: r4 =>
                            if c1 =? 44 then
                              JSON.parse_members n r4 (obj_set k v acc)
                            else if c1 =? 125 then
                              Some (VObj (obj_set k v acc), r4)
                            else None
                        end
                    | None => None
                    end
                  else None
              end
          | None => None
          end
        else None
    end.
Proof. reflexivity. Qed.

(** The first character of the text of a number. *)
Lemma num_text_head (x : num) :
  Num.wf x = true ->
  exists c t, Num.to_str x = c :: t /\ (c = 45 \/ 48 <= c <= 57).
Proof.
  intros Hwf.
  destruct x as [sg digs p]. unfold Num.to_str. cbn [Num.digs Num.neg Num.pt].
  destruct digs as [|d ds].
  - exists 48, []. split; [reflexivity | lia].
  - destruct sg.
    + eexists _, _. split; [reflexivity | left; reflexivity].
    + destruct (wf_digits _ d ds Hwf eq_refl) as [Hd _].
      simpl in Hd. apply andb_true_iff in Hd. destruct Hd as [Hd _].
      apply N.leb_le in Hd.
      cbn [app].
      destruct ((_ <=? p) && (p <=? 21))%Z;
        [eexists _, _; split; [reflexivity | lia]|].
      destruct ((0 <? p) && (p <=? 21))%Z eqn:C2.
      { apply andb_true_iff in C2. destruct C2 as [C2 _].
        apply Z.ltb_lt in C2.
        destruct (Z.to_nat p) as [|e] eqn:E; [lia|].
        eexists _, _; split; [reflexivity | lia]. }
      destruct ((-6 <? p) && (p <=? 0))%Z.
      * exists 48. eexists. split; [reflexivity | lia].
      * eexists _, _; split; [reflexivity | lia].
Qed.

Lemma startsWith_head_ne p0 p c r :
  p0 <> c -> startsWith (p0 :: p) (c :: r) = false.
Proof. intros H. simpl. apply N.eqb_neq in H. rewrite H. reflexivity. Qed.

Lemma parse_value_num n ws c r :
  spaces ws = true -> c = 45 \/ 48 <= c <= 57 ->
  JSON.parse_value (S n) (ws ++ c :: r)
  = match Num.parse (c :: r) with
    | Some (x, r1) => Some (VNum x, r1)
    | None => None
    end.
Proof.
  intros Hw Hc. rewrite parse_value_step, skip_ws_spaces; [|assumption|].
  - destruct (N.eqb_spec c 123); [lia|].
    destruct (N.eqb_spec c 91); [lia|].
    destruct (N.eqb_spec c 34); [lia|].
    change (lit "true") with (116 :: lit "rue").
    change (lit "false") with (102 :: lit "alse").
    change (lit "null") with (110 :: lit "ull").
    rewrite !startsWith_head_ne by lia. reflexivity.
  - unfold JSON.is_space.
    destruct (N.eqb_spec c 32); [lia|].
    destruct (N.eqb_spec c 9); [lia|].
    destruct (N.eqb_spec c 10); [lia|].
    destruct (N.eqb_spec c 13); [lia|]. reflexivity.
Qed.


Ltac fuel_pos n :=
  destruct n as [|n]; [exfalso; cbn [List.length] in *; lia|].

Lemma roundtrips_null : roundtrips VNull.
Proof.
  intros _ ind _. exists 110, (lit "ull").
  split; [reflexivity|]. split; [reflexivity|]. split; [discriminate|].
  intros n ws rest Hn Hw _. fuel_pos n.
  change ((110 :: lit "ull") ++ rest) with (110 :: (lit "ull" ++ rest)).
  rewrite parse_value_step, skip_ws_spaces by (assumption || reflexivity).
  reflexivity.
Qed.

Lemma roundtrips_bool b : roundtrips (VBool b).
Proof.
  intros _ ind _. destruct b.
  - exists 116, (lit "rue").
    split; [reflexivity|]. split; [reflexivity|]. split; [discriminate|].
    intros n ws rest Hn Hw _. fuel_pos n.
    change ((116 :: lit "rue") ++ rest) with (116 :: (lit "rue" ++ rest)).
    rewrite parse_value_step, skip_ws_spaces by (assumption || reflexivity).
    reflexivity.
  - exists 102, (lit "alse").
    split; [reflexivity|]. split; [reflexivity|]. split; [discriminate|].
    intros n ws rest Hn Hw _. fuel_pos n.
    change ((102 :: lit "alse") ++ rest) with (102 :: (lit "alse" ++ rest)).
    rewrite parse_value_step, skip_ws_spaces by (assumption || reflexivity).
    reflexivity.
Qed.

Lemma roundtrips_num x : roundtrips (VNum x).
Proof.
  intros Hwf ind _. cbn [wf_value] in Hwf.
  destruct (num_text_head x Hwf) as [c [t [E Hc]]].
  exists c, t. cbn [JSON.stringify_at]. rewrite E.
  split; [reflexivity|].
  split.
  { unfold JSON.is_space.
    destruct (N.eqb_spec c 32); [lia|].
    destruct (N.eqb_spec c 9); [lia|].
    destruct (N.eqb_spec c 10); [lia|].
    destruct (N.eqb_spec c 13); [lia|]. reflexivity. }
  split; [lia|].
  intros n ws rest Hn Hw Hf. fuel_pos n.
  change ((c :: t) ++ rest) with (c :: (t ++ rest)).
  rewrite (parse_value_num _ _ _ _ Hw Hc).
  change (c :: (t ++ rest)) with ((c :: t) ++ rest).
  rewrite <- E, (num_parse_to_str x rest Hwf Hf). reflexivity.
Qed.

Lemma roundtrips_str s : roundtrips (VStr s).
Proof.
  intros _ ind _. exists 34, (JSON.escape false s ++ dq).
  split; [reflexivity|]. split; [reflexivity|]. split; [discriminate|].
  intros n ws rest Hn Hw _. fuel_pos n.
  change ((34 :: JSON.escape false s ++ dq) ++ rest)
    with (34 :: ((JSON.escape false s ++ dq) ++ rest)).
  rewrite parse_value_step, skip_ws_spaces by (assumption || reflexivity).
  change (34 =? 123) with false. change (34 =? 91) with false.
  change (34 =? 34) with true. cbv iota.
  rewrite <- app_assoc.
  change (dq ++ rest) with (34 :: rest).
  rewrite parse_chars_escape. reflexivity.
Qed.

Lemma num_follow_spaces ws (c : N) rest :
  spaces ws = true -> c = 93 \/ c = 125 ->
  num_follow (ws ++ c :: rest) = true.
Proof.
  intros Hw Hc. destruct ws as [|w ws].
  - destruct Hc as [-> | ->]; reflexivity.
  - simpl in Hw. apply andb_true_iff in Hw. destruct Hw as [Hw _].
    unfold JSON.is_space in Hw. cbn [app num_follow]. unfold Num.is_digit.
    destruct (N.eqb_spec w 32) as [->|]; [reflexivity|].
    destruct (N.eqb_spec w 9) as [->|]; [reflexivity|].
    destruct (N.eqb_spec w 10) as [->|]; [reflexivity|].
    destruct (N.eqb_spec w 13) as [->|]; [reflexivity|].
    discriminate.
Qed.

Lemma join_head sep c t (rest : list str) :
  exists j, join sep ((c :: t) :: rest) = c :: j.
Proof. destruct rest; eexists; reflexivity. Qed.

Lemma join_cons2 sep (p q : str) (rest : list str) :
  join sep (p :: q :: rest) = p ++ sep ++ join sep (q :: rest).
Proof. reflexivity. Qed.

Lemma sep_comma ind (x : str) :
  (lit "," ++ nl ++ ind) ++ x = [] ++ 44 :: ((nl ++ ind) ++ x).
Proof. cbn [app]. rewrite <- app_assoc. reflexivity. Qed.

Lemma parse_elements_items ind l :
  Forall roundtrips l -> wf_value (VArr l) = true -> spaces ind = true ->
  l <> [] ->
  forall n acc ws wsend rest,
    (List.length (join (lit "," ++ nl ++ ind) (array_items ind l)) + 2 <= n)%nat ->
    spaces ws = true -> spaces wsend = true ->
    JSON.parse_elements n
      (ws ++ join (lit "," ++ nl ++ ind) (array_items ind l) ++
       wsend ++ 93 :: rest) acc
    = Some (VArr (acc ++ l), rest).
Proof.
  intros HP Hwf Hind. induction l as [|x l IH]; [congruence|]. intros _.
  inversion HP as [|x' l' Px Pl]; subst.
  rewrite wf_arr in Hwf. apply andb_true_iff in Hwf. destruct Hwf as [Hx Hl].
  destruct (Px Hx ind Hind) as [c [t [Es [Hc [_ Hparse]]]]].
  intros n acc ws wsend rest Hn Hws Hwe.
  cbn [array_items] in *. rewrite Es in *.
  destruct n as [|n]; [lia|]. rewrite parse_elements_step.
  destruct l as [|y l].
  - cbn [array_items join] in *.
    rewrite Hparse;
      [| lia | assumption | apply num_follow_spaces; [assumption | tauto]].
    rewrite skip_ws_spaces by (assumption || reflexivity).
    reflexivity.
  - cbn [array_items] in Hn |- *.
    rewrite join_cons2 in Hn |- *.
    set (J := join (lit "," ++ nl ++ ind)
                (match JSON.stringify_at ind y with
                 | Some t0 => t0
                 | None => lit "null"
                 end :: array_items ind l)) in *.
    rewrite <- (app_assoc (c :: t)), <- (app_assoc (lit "," ++ nl ++ ind)).
    rewrite !length_app in Hn. cbn [List.length] in Hn.
    rewrite Hparse; [| cbn [List.length]; lia | assumption | reflexivity].
    rewrite (sep_comma ind).
    rewrite (skip_ws_spaces [] 44) by reflexivity.
    change (44 =? 44) with true. cbv iota.
    unfold J. change (match JSON.stringify_at ind y with
                      | Some t0 => t0
                      | None => lit "null"
                      end :: array_items ind l)
      with (array_items ind (y :: l)).
    rewrite (IH Pl Hl ltac:(discriminate)); [| | | assumption].
    + rewrite <- app_assoc. reflexivity.
    + unfold J in Hn. cbn [array_items]. lia.
    + apply spaces_nl; assumption.
Qed.

Lemma mem_app x a b : mem x (a ++ b) = mem x a || mem x b.
Proof. apply existsb_app. Qed.

Lemma distinct_middle a k b :
  distinct (a ++ k :: b) = true -> mem k a = false.
Proof.
  induction a as [|x a IH]; [reflexivity|].
  cbn [app distinct]. intros H.
  apply andb_true_iff in H. destruct H as [Hx Hd].
  apply negb_true_iff in Hx. rewrite mem_app in Hx.
  apply orb_false_iff in Hx. destruct Hx as [_ Hx].
  cbn [mem existsb] in Hx. apply orb_false_iff in Hx. destruct Hx as [Hx _].
  cbn [mem existsb]. rewrite str_eqb_sym, Hx. apply IH. exact Hd.
Qed.

Lemma obj_set_fresh k v (acc : obj) :
  mem k (List.map fst acc) = false -> obj_set k v acc = acc ++ [(k, v)].
Proof.
  induction acc as [|[k' v'] acc IH]; [reflexivity|].
  cbn [List.map fst mem existsb obj_set app]. intros H.
  apply orb_false_iff in H. destruct H as [H1 H2].
  rewrite H1. f_equal. apply IH. exact H2.
Qed.

Lemma sep_colon (x : str) : lit ": " ++ x = [] ++ 58 :: ([32] ++ x).
Proof. reflexivity. Qed.

Lemma parse_members_items ind o :
  Forall (fun kv => roundtrips (snd kv)) o ->
  forallb (fun kv => wf_value (snd kv)) o = true ->
  spaces ind = true -> o <> [] ->
  forall n acc ws wsend rest,
    (List.length (join (lit "," ++ nl ++ ind) (object_items ind o)) < n)%nat ->
    distinct (List.map fst acc ++ List.map fst o) = true ->
    spaces ws = true -> spaces wsend = true ->
    JSON.parse_members n
      (ws ++ join (lit "," ++ nl ++ ind) (object_items ind o) ++
       wsend ++ 125 :: rest) acc
    = Some (VObj (acc ++ o), rest).
Proof.
  intros HP Hwf Hind. induction o as [|[k x] o IH]; [congruence|]. intros _.
  inversion HP as [|kx o' Px Po]; subst. cbn [snd] in Px.
  cbn [forallb snd] in Hwf. apply andb_true_iff in Hwf.
  destruct Hwf as [Hx Ho].
  destruct (Px Hx ind Hind) as [c [t [Es [Hc [_ Hparse]]]]].
  intros n acc ws wsend rest Hn Hdis Hws Hwe.
  cbn [List.map fst] in Hdis.
  pose proof (distinct_middle _ _ _ Hdis) as Hfresh.
  assert (Hdis' : distinct (List.map fst (acc ++ [(k, x)]) ++ List.map fst o)
                  = true).
  { rewrite map_app, <- app_assoc. exact Hdis. }
  cbn [object_items] in Hn |- *. rewrite Es in Hn |- *.
  destruct n as [|n]; [lia|]. rewrite parse_members_step.
  set (item := JSON.quote k ++ lit ": " ++ c :: t) in *.
  assert (Hitem : forall tail,
            item ++ tail
            = 34 :: (JSON.escape false k ++
                     34 :: ([] ++ 58 :: ([32] ++ (c :: t) ++ tail)))).
  { intros tail. unfold item, JSON.quote. rewrite <- !app_assoc. reflexivity. }
  assert (Hlen : (List.length (c :: t) + 4 <= List.length item)%nat).
  { unfold item, JSON.quote. rewrite !length_app. cbn [List.length].
    change (List.length dq) with 1%nat.
    change (List.length (lit ": ")) with 2%nat. lia. }
  destruct o as [|[k2 y] o].
  - cbn [object_items join] in Hn |- *.
    rewrite Hitem, (skip_ws_spaces ws 34) by (assumption || reflexivity).
    change (34 =? 34) with true. cbv iota.
    rewrite parse_chars_escape.
    rewrite (skip_ws_spaces [] 58) by reflexivity.
    change (58 =? 58) with true. cbv iota.
    rewrite Hparse;
      [| lia | reflexivity | apply num_follow_spaces; [assumption | tauto]].
    rewrite (skip_ws_spaces wsend 125) by (assumption || reflexivity).
    change (125 =? 44) with false. change (125 =? 125) with true. cbv iota.
    rewrite (obj_set_fresh _ _ _ Hfresh). reflexivity.
  - cbn [object_items] in Hn |- *.
    assert (Hy : wf_value y = true).
    { pose proof Ho as Ho'. cbn [forallb snd] in Ho'.
      apply andb_true_iff in Ho'. tauto. }
    pose proof (Forall_inv Po) as Py. cbn [snd] in Py.
    destruct (Py Hy ind Hind) as [c2 [t2 [Es2 _]]].
    rewrite Es2 in Hn |- *.
    rewrite join_cons2 in Hn |- *.
    set (J := join (lit "," ++ nl ++ ind)
                ((JSON.quote k2 ++ lit ": " ++ c2 :: t2)
                 :: object_items ind o)) in *.
    rewrite <- (app_assoc item), <- (app_assoc (lit "," ++ nl ++ ind)).
    rewrite !length_app in Hn.
    rewrite Hitem, (skip_ws_spaces ws 34) by (assumption || reflexivity).
    change (34 =? 34) with true. cbv iota.
    rewrite parse_chars_escape.
    rewrite (skip_ws_spaces [] 58) by reflexivity.
    change (58 =? 58) with true. cbv iota.
    rewrite Hparse; [| lia | reflexivity | reflexivity].
    rewrite (sep_comma ind).
    rewrite (skip_ws_spaces [] 44) by reflexivity.
    change (44 =? 44) with true. cbv iota.
    rewrite (obj_set_fresh _ _ _ Hfresh).
    assert (EJ : J = join (lit "," ++ nl ++ ind)
                       (object_items ind ((k2, y) :: o))).
    { unfold J. cbn [object_items]. rewrite Es2. reflexivity. }
    rewrite EJ.
    rewrite (IH Po Ho ltac:(discriminate)); [| | assumption | | assumption].
    + rewrite <- app_assoc. reflexivity.
    + rewrite <- EJ. lia.
    + apply spaces_nl; assumption.
Qed.

Lemma wf_arr_forall l :
  wf_value (VArr l) = true -> forallb wf_value l = true.
Proof.
  induction l as [|x l IH]; [reflexivity|].
  rewrite wf_arr. intros H. apply andb_true_iff in H.
  cbn [forallb]. rewrite (proj1 H), (IH (proj2 H)). reflexivity.
Qed.

Lemma roundtrips_arr l : Forall roundtrips l -> roundtrips (VArr l).
Proof.
  intros HP Hwf ind Hind. rewrite stringify_at_arr.
  destruct l as [|x l].
  - exists 91, [93].
    split; [reflexivity|]. split; [reflexivity|]. split; [discriminate|].
    intros n ws rest Hn Hw _. fuel_pos n.
    change ([91; 93] ++ rest) with (91 :: 93 :: rest).
    rewrite parse_value_step, skip_ws_spaces by (assumption || reflexivity).
    reflexivity.
  - pose proof (spaces_indent ind Hind) as Hind'.
    set (ind' := ind ++ lit "  ") in *.
    pose proof Hwf as Hwf'. rewrite wf_arr in Hwf'.
    apply andb_true_iff in Hwf'. destruct Hwf' as [Hx _].
    destruct (Forall_inv HP Hx ind' Hind') as [c [t [Es [Hc [Hc93 _]]]]].
    cbn [array_items]. rewrite Es.
    set (J := join (lit "," ++ nl ++ ind') ((c :: t) :: array_items ind' l)).
    assert (EJ : J = join (lit "," ++ nl ++ ind') (array_items ind' (x :: l))).
    { unfold J. cbn [array_items]. rewrite Es. reflexivity. }
    exists 91, (nl ++ ind' ++ J ++ nl ++ ind ++ lit "]").
    split; [reflexivity|]. split; [reflexivity|]. split; [discriminate|].
    intros n ws rest Hn Hw _. fuel_pos n.
    change ((91 :: nl ++ ind' ++ J ++ nl ++ ind ++ lit "]") ++ rest)
      with (91 :: ((nl ++ ind' ++ J ++ nl ++ ind ++ lit "]") ++ rest)).
    rewrite parse_value_step, skip_ws_spaces by (assumption || reflexivity).
    change (91 =? 123) with false. change (91 =? 91) with true. cbv iota.
    assert (Etxt : (nl ++ ind' ++ J ++ nl ++ ind ++ lit "]") ++ rest
                   = (nl ++ ind') ++ J ++ (nl ++ ind) ++ 93 :: rest).
    { rewrite <- !app_assoc. reflexivity. }
    rewrite Etxt.
    destruct (join_head (lit "," ++ nl ++ ind') c t (array_items ind' l))
      as [j Ej].
    fold J in Ej. rewrite Ej at 1.
    change ((c :: j) ++ (nl ++ ind) ++ 93 :: rest)
      with (c :: (j ++ (nl ++ ind) ++ 93 :: rest)).
    rewrite (skip_ws_spaces (nl ++ ind') c)
      by (apply spaces_nl; assumption) || assumption.
    apply N.eqb_neq in Hc93. rewrite Hc93.
    rewrite EJ.
    rewrite (parse_elements_items ind' (x :: l) HP Hwf Hind'
               ltac:(discriminate)).
    + reflexivity.
    + rewrite <- EJ. cbn [List.length] in Hn.
      rewrite !length_app in Hn. unfold ind' in Hn at 1.
      rewrite length_app in Hn. change (List.length (lit "  ")) with 2%nat in Hn.
      lia.
    + apply spaces_nl; assumption.
    + apply spaces_nl; assumption.
Qed.

Lemma roundtrips_obj o :
  Forall (fun kv => roundtrips (snd kv)) o -> roundtrips (VObj o).
Proof.
  intros HP Hwf ind Hind. rewrite stringify_at_obj.
  rewrite wf_obj in Hwf. apply andb_true_iff in Hwf.
  destruct Hwf as [Hdis Hall].
  destruct o as [|[k x] o].
  - exists 123, [125].
    split; [reflexivity|]. split; [reflexivity|]. split; [discriminate|].
    intros n ws rest Hn Hw _. fuel_pos n.
    change ([123; 125] ++ rest) with (123 :: 125 :: rest).
    rewrite parse_value_step, skip_ws_spaces by (assumption || reflexivity).
    reflexivity.
  - pose proof (spaces_indent ind Hind) as Hind'.
    set (ind' := ind ++ lit "  ") in *.
    pose proof Hall as Hall'. cbn [forallb snd] in Hall'.
    apply andb_true_iff in Hall'. destruct Hall' as [Hx _].
    pose proof (Forall_inv HP) as Px. cbn [snd] in Px.
    destruct (Px Hx ind' Hind') as [c [t [Es _]]].
    cbn [object_items]. rewrite Es.
    set (item := JSON.quote k ++ lit ": " ++ c :: t).
    set (J := join (lit "," ++ nl ++ ind') (item :: object_items ind' o)).
    assert (EJ : J = join (lit "," ++ nl ++ ind')
                       (object_items ind' ((k, x) :: o))).
    { unfold J, item. cbn [object_items]. rewrite Es. reflexivity. }
    exists 123, (nl ++ ind' ++ J ++ nl ++ ind ++ lit "}").
    split; [reflexivity|]. split; [reflexivity|]. split; [discriminate|].
    intros n ws rest Hn Hw _. fuel_pos n.
    change ((123 :: nl ++ ind' ++ J ++ nl ++ ind ++ lit "}") ++ rest)
      with (123 :: ((nl ++ ind' ++ J ++ nl ++ ind ++ lit "}") ++ rest)).
    rewrite parse_value_step, skip_ws_spaces by (assumption || reflexivity).
    change (123 =? 123) with true. cbv iota.
    assert (Etxt : (nl ++ ind' ++ J ++ nl ++ ind ++ lit "}") ++ rest
                   = (nl ++ ind') ++ J ++ (nl ++ ind) ++ 125 :: rest).
    { rewrite <- !app_assoc. reflexivity. }
    rewrite Etxt.
    assert (Ej : exists j, J = 34 :: j).
    { unfold J, item, JSON.quote.
      destruct (object_items ind' o); eexists; reflexivity. }
    destruct Ej as [j Ej]. rewrite Ej at 1.
    change ((34 :: j) ++ (nl ++ ind) ++ 125 :: rest)
      with (34 :: (j ++ (nl ++ ind) ++ 125 :: rest)).
    rewrite (skip_ws_spaces (nl ++ ind') 34)
      by (apply spaces_nl; assumption) || reflexivity.
    change (34 =? 125) with false. cbv iota.
    rewrite EJ.
    rewrite (parse_members_items ind' ((k, x) :: o) HP Hall Hind'
               ltac:(discriminate)).
    + reflexivity.
    + rewrite <- EJ. cbn [List.length] in Hn.
      rewrite !length_app in Hn. lia.
    + exact Hdis.
    + apply spaces_nl; assumption.
    + apply spaces_nl; assumption.
Qed.

Lemma roundtrips_all v : roundtrips v.
Proof.
  induction v using value_induction.
  - intros H. discriminate.
  - apply roundtrips_null.
  - apply roundtrips_bool.
  - apply roundtrips_num.
  - apply roundtrips_str.
  - apply roundtrips_arr; assumption.
  - apply roundtrips_obj; assumption.
Qed.

(** [JSON.parse(JSON.stringify(v, null, 2))] is [v]. *)
Theorem json_roundtrip v :
  wf_value v = true ->
  exists t, JSON.stringify2 v = Some t /\ JSON.parse t = Some v.
Proof.
  intros Hwf.
  destruct (roundtrips_all v Hwf [] eq_refl) as [c [t [Es [_ [_ Hparse]]]]].
  exists (c :: t). split; [exact Es|].
  unfold JSON.parse.
  specialize (Hparse (S (S (List.length (c :: t)))) [] [] ltac:(lia)
                eq_refl eq_refl).
  cbn [app] in Hparse. rewrite app_nil_r in Hparse.
  rewrite Hparse. reflexivity.
Qed.

(** ** The JSON backup of a story *)

Lemma wf_strs l : wf_value (VArr (List.map VStr l)) = true.
Proof. induction l as [|x l IH]; [reflexivity | exact IH]. Qed.

Lemma wf_passage p :
  Num.wf (p_x p) = true -> Num.wf (p_y p) = true ->
  Num.wf (p_width p) = true -> Num.wf (p_height p) = true ->
  wf_value (passage_value p) = true.
Proof.
  intros Hx Hy Hw Hh. unfold passage_value. rewrite wf_obj.
  apply andb_true_iff. split; [reflexivity|].
  cbn [forallb snd]. rewrite wf_strs.
  cbn [wf_value]. rewrite Hx, Hy, Hw, Hh. reflexivity.
Qed.

Lemma passage_ok_parts kp :
  passage_ok kp = true ->
  fst kp <> [] /\ Num.wf (p_x (snd kp)) = true /\
  Num.wf (p_y (snd kp)) = true /\ Num.wf (p_width (snd kp)) = true /\
  Num.wf (p_height (snd kp)) = true.
Proof.
  unfold passage_ok. intros H.
  repeat (apply andb_true_iff in H; destruct H as [H ?]).
  apply negb_true_iff in H. repeat split; try assumption.
  intros E. rewrite E in H. discriminate.
Qed.

Lemma keys_map {A} (f : A -> value) (l : list (str * A)) :
  List.map fst (List.map (fun kx => (fst kx, f (snd kx))) l) = List.map fst l.
Proof.
  induction l as [|x l IH]; [reflexivity|].
  cbn [List.map fst]. rewrite IH. reflexivity.
Qed.

Lemma wf_passages ps :
  forallb passage_ok ps = true -> distinct (List.map fst ps) = true ->
  wf_value (passages_value ps) = true.
Proof.
  intros Hok Hd. unfold passages_value. rewrite wf_obj, keys_map.
  rewrite Hd. cbn [andb].
  induction ps as [|[k p] ps IH]; [reflexivity|].
  cbn [forallb] in Hok. apply andb_true_iff in Hok. destruct Hok as [Hp Hok].
  cbn [List.map forallb snd fst]. rewrite (IH Hok) by
      (cbn [List.map distinct fst] in Hd; apply andb_true_iff in Hd; tauto).
  destruct (passage_ok_parts _ Hp) as [_ [Hx [Hy [Hw Hh]]]].
  cbn [snd] in Hx, Hy, Hw, Hh.
  rewrite (wf_passage p Hx Hy Hw Hh). reflexivity.
Qed.

Lemma wf_tagColors tc :
  distinct (List.map fst tc) = true -> wf_value (tagColors_value tc) = true.
Proof.
  intros Hd. unfold tagColors_value. rewrite wf_obj, (keys_map VStr).
  rewrite Hd. cbn [andb].
  induction tc as [|[k c] tc IH]; [reflexivity|].
  cbn [List.map forallb snd]. apply IH.
  cbn [List.map distinct fst] in Hd. apply andb_true_iff in Hd. tauto.
Qed.

Lemma story_ok_parts s :
  story_ok s = true ->
  s_title s <> [] /\ s_ifid s <> [] /\
  mem (s_startPassage s) (List.map fst (s_passages s)) = true /\
  forallb passage_ok (s_passages s) = true /\
  distinct (List.map fst (s_passages s)) = true /\
  distinct (List.map fst (s_tagColors s)) = true /\
  Num.wf (s_zoom s) = true /\ Num.is_zero (s_zoom s) = false.
Proof.
  unfold story_ok. intros H.
  repeat (apply andb_true_iff in H; destruct H as [H ?]).
  repeat match goal with
         | E : negb _ = true |- _ => apply negb_true_iff in E
         end.
  repeat split; try assumption.
  - intros E. rewrite E in H. discriminate.
  - intros E. rewrite E in *. discriminate.
Qed.

Lemma wf_story s : story_ok s = true -> wf_value (story_value s) = true.
Proof.
  intros H. destruct (story_ok_parts s H)
    as [_ [_ [_ [Hps [Hd [Htc [Hz _]]]]]]].
  unfold story_value. rewrite wf_obj.
  apply andb_true_iff. split; [reflexivity|].
  cbn [forallb snd]. rewrite (wf_passages _ Hps Hd), (wf_tagColors _ Htc).
  cbn [wf_value]. rewrite Hz. reflexivity.
Qed.

Lemma start_not_empty s : story_ok s = true -> s_startPassage s <> [].
Proof.
  intros H. destruct (story_ok_parts s H) as [_ [_ [Hm [Hps _]]]].
  apply mem_In in Hm. apply in_map_iff in Hm.
  destruct Hm as [kp [E Hin]].
  rewrite forallb_forall in Hps. specialize (Hps kp Hin).
  destruct (passage_ok_parts _ Hps) as [Hne _]. rewrite E in Hne. exact Hne.
Qed.

Lemma or_else_str s : or_else (VStr s) (VStr []) = VStr s.
Proof. destruct s; reflexivity. Qed.

Lemma or_else_nonempty s d : s <> [] -> or_else (VStr s) d = VStr s.
Proof. destruct s; [congruence | reflexivity]. Qed.

(** C4. For a story that satisfies the invariants of the data model,
    parsing the text that [exportAsJson] hands to the download gives the
    story back, field for field: title, start passage, passages,
    identifier, format, format version, zoom, tags, stylesheet, script
    and tag colours. *)
Theorem exportAsJson_parseJson_roundtrip :
  forall (rand : nat -> N) (story : Story),
    story_ok story = true ->
    exists d,
      exportAsJson story = Some d /\
      parseJson rand (d_content d) = Some (story_value story).
Proof.
  intros rand story Hok.
  destruct (json_roundtrip _ (wf_story story Hok)) as [t [Es Ep]].
  unfold exportAsJson. rewrite Es. eexists. split; [reflexivity|].
  cbn [d_content]. unfold parseJson. rewrite Ep.
  destruct (story_ok_parts story Hok)
    as [Ht [Hi [_ [_ [_ [_ [_ Hz]]]]]]].
  pose proof (start_not_empty story Hok) as Hs.
  change (getp (story_value story) "title") with (Some (VStr (s_title story))).
  change (getp (story_value story) "passages")
    with (Some (passages_value (s_passages story))).
  cbv iota.
  assert (Etr : truthy (VStr (s_title story)) = true)
    by (destruct (s_title story); [congruence | reflexivity]).
  rewrite Etr. cbn [negb orb truthy passages_value]. cbv iota.
  unfold story_value. f_equal. f_equal.
  repeat f_equal.
  - unfold getp_or.
    change (getp _ "startPassage") with (Some (VStr (s_startPassage story))).
    apply or_else_nonempty; assumption.
  - unfold getp_or.
    change (getp _ "ifid") with (Some (VStr (s_ifid story))).
    apply or_else_nonempty; assumption.
  - unfold getp_or.
    change (getp _ "format") with (Some (VStr (s_format story))).
    apply or_else_str.
  - unfold getp_or.
    change (getp _ "formatVersion") with (Some (VStr (s_formatVersion story))).
    apply or_else_str.
  - unfold getp_or.
    change (getp _ "zoom") with (Some (VNum (s_zoom story))).
    unfold or_else. cbn [truthy]. rewrite Hz. reflexivity.
  - unfold getp_or.
    change (getp _ "tags") with (Some (VStr (s_tags story))).
    apply or_else_str.
  - unfold getp_or.
    change (getp _ "stylesheet") with (Some (VStr (s_stylesheet story))).
    apply or_else_str.
  - unfold getp_or.
    change (getp _ "javascript") with (Some (VStr (s_javascript story))).
    apply or_else_str.
Qed.

Lemma exportAsJson_parseJson_roundtrip_witness :
  exists d,
    exportAsJson cave_story = Some d /\
    parseJson (fun _ => 0) (d_content d) = Some (story_value cave_story).
Proof.
  apply (exportAsJson_parseJson_roundtrip (fun _ => 0) cave_story).
  vm_compute. reflexivity.
Defined.

(** ** The line format: generation *)

Lemma fold_left_append {A} (f : A -> str) (l : list A) (init : str) :
  fold_left (fun out p => out ++ f p) l init
  = init ++ List.concat (List.map f l).
Proof.
  revert init. induction l as [|x l IH]; intros init.
  - simpl. rewrite app_nil_r. reflexivity.
  - cbn [fold_left List.map List.concat]. rewrite IH, <- app_assoc.
    reflexivity.
Qed.

(** *** The order of the passages *)

Lemma put_own_not_key {A} k (v : A) (o : list (str * A)) :
  mem k (List.map fst o) = false -> put_own k v o = o.
Proof.
  induction o as [|[k' v'] o IH]; [reflexivity|].
  cbn [List.map fst mem existsb put_own]. intros H.
  apply orb_false_iff in H. destruct H as [H1 H2].
  rewrite H1. f_equal. apply IH. exact H2.
Qed.

Lemma assign_named {A} k (v : A) (o : list (str * A)) :
  named_key k = true -> mem k (List.map fst o) = false ->
  assign k v o = o ++ [(k, v)].
Proof.
  unfold named_key, assign. intros Hk Hm. rewrite Hm.
  destruct (array_index k); [discriminate|].
  apply negb_true_iff in Hk. rewrite Hk. reflexivity.
Qed.

Lemma filled_from (entries : list (str * Passage)) : forall acc,
  distinct (List.map fst (acc ++ entries)) = true ->
  forallb (fun kp => named_key (fst kp)) entries = true ->
  fold_left (fun o kp => assign (fst kp) (snd kp) o) entries acc
  = acc ++ entries.
Proof.
  induction entries as [|[k p] entries IH]; intros acc Hd Hn.
  - rewrite app_nil_r. reflexivity.
  - cbn [forallb fst] in Hn. apply andb_true_iff in Hn.
    destruct Hn as [Hk Hn]. cbn [fold_left fst snd].
    rewrite map_app in Hd. cbn [List.map fst] in Hd.
    rewrite (assign_named k p acc Hk (distinct_middle _ _ _ Hd)).
    rewrite IH; [rewrite <- app_assoc; reflexivity| |exact Hn].
    rewrite <- app_assoc, map_app. exact Hd.
Qed.

Lemma filled_named entries :
  distinct (List.map fst entries) = true ->
  forallb (fun kp => named_key (fst kp)) entries = true ->
  filled entries = entries.
Proof. intros Hd Hn. apply (filled_from entries [] Hd Hn). Qed.

(** *** The sizes *)

Lemma num_eqb_eq a b : Num.eqb a b = true -> a = b.
Proof.
  unfold Num.eqb. intros H.
  apply andb_true_iff in H. destruct H as [H Hp].
  apply andb_true_iff in H. destruct H as [Hs Hd].
  apply Bool.eqb_prop in Hs. apply str_eqb_eq in Hd. apply Z.eqb_eq in Hp.
  destruct a, b. cbn in *. subst. reflexivity.
Qed.

Lemma size_text_integer n :
  is_integer n = true -> size_text n = int_text (round_or_100 n).
Proof.
  unfold is_integer, size_text, round_or_100, num_or, int_text. intros H.
  apply num_eqb_eq in H.
  destruct (Num.is_zero n); [reflexivity|].
  rewrite <- H. reflexivity.
Qed.

Lemma twee_block_integer p :
  is_integer (p_width p) = true -> is_integer (p_height p) = true ->
  twee_block p = twee_block_spec p.
Proof.
  intros Hw Hh. unfold twee_block, twee_block_spec, twee_metadata. cbv zeta.
  rewrite (size_text_integer _ Hw), (size_text_integer _ Hh).
  rewrite <- !app_assoc. reflexivity.
Qed.

Lemma blocks_integer (entries : list (str * Passage)) :
  forallb (fun kp => is_integer (p_width (snd kp)) &&
                     is_integer (p_height (snd kp))) entries = true ->
  List.map twee_block (List.map snd entries)
  = List.map (fun kp => twee_block_spec (snd kp)) entries.
Proof.
  induction entries as [|[k p] entries IH]; [reflexivity|].
  cbn [forallb List.map snd]. intros H.
  apply andb_true_iff in H. destruct H as [Hp H].
  apply andb_true_iff in Hp. destruct Hp as [Hw Hh].
  rewrite (twee_block_integer p Hw Hh), (IH H). reflexivity.
Qed.

(** *** Rounding *)

Lemma round_nearest n : nearest n (Num.round n).
Proof.
  unfold nearest, Num.round. cbv zeta.
  set (k := Z.of_nat (List.length (Num.digs n))).
  set (sd := Num.signed_digits n).
  destruct (Z.leb_spec k (Num.pt n)) as [Hle|Hgt].
  - rewrite (Z.max_r 0 (Num.pt n - k)) by lia.
    rewrite (Z.max_l 0 (k - Num.pt n)) by lia.
    change (10 ^ 0)%Z with 1%Z. lia.
  - rewrite (Z.max_l 0 (Num.pt n - k)) by lia.
    rewrite (Z.max_r 0 (k - Num.pt n)) by lia.
    change (10 ^ 0)%Z with 1%Z.
    set (s := (10 ^ (k - Num.pt n))%Z).
    assert (Hs : (0 < s)%Z) by (apply Z.pow_pos_nonneg; lia).
    pose proof (Z.div_mod (2 * sd + s) (2 * s) ltac:(lia)) as Hdm.
    pose proof (Z.mod_pos_bound (2 * sd + s) (2 * s) ltac:(lia)) as Hb.
    set (q := ((2 * sd + s) / (2 * s))%Z) in *.
    set (r := ((2 * sd + s) mod (2 * s))%Z) in *.
    split; nia.
Qed.

Lemma generateTwee_blocks rand story :
  generateTwee rand story
  = trim (twee_head rand story ++
          List.concat (List.map twee_block
                         (List.map snd (s_passages story)))).
Proof.
  unfold generateTwee. cbv zeta. rewrite fold_left_append.
  unfold twee_head. cbv zeta.
  destruct (s_stylesheet story), (s_javascript story);
    cbn [app]; rewrite <- !app_assoc; reflexivity.
Qed.

(** C8, as the code has it. For a story whose passages were inserted
    under names that are neither array indices nor [__proto__], and
    whose sizes are integers, [generateTwee] writes what the
    specification says: after the blocks of the story, one block per
    passage in insertion order, with the tags joined by spaces between
    brackets, or nothing for a passage without tags, and a metadata
    object that holds the rounded position and the size. The rounded
    coordinate is the nearest integer, a half going up, and an integer
    below [10^21] is written in decimal. The text of [cave_story]
    follows. *)
Theorem generateTwee_passage_blocks :
  forall (rand : nat -> N) (story : Story) (entries : list (str * Passage)),
    s_passages story = filled entries ->
    distinct (List.map fst entries) = true ->
    forallb (fun kp => named_key (fst kp)) entries = true ->
    forallb (fun kp => is_integer (p_width (snd kp)) &&
                       is_integer (p_height (snd kp))) entries = true ->
    generateTwee rand story = generateTwee_spec rand story entries /\
    (forall v, nearest (num_or v (Num.of_Z 100)) (round_or_100 v)) /\
    (forall z, (Z.abs z < 10 ^ 21)%Z -> int_text z = decimal z) /\
    generateTwee rand cave_story
    = join nl
        [lit ":: StoryTitle"; lit "The Cave"; [];
         lit ":: StoryData"; lit "{";
         litq "  `ifid`: `D674C58C-DEFA-4F70-B7A2-27742230C0FC`,";
         litq "  `format`: `Harlowe`,";
         litq "  `format-version`: `3.3.9`,";
         litq "  `start`: `Start`,";
         litq "  `zoom`: 0.5,";
         litq "  `tag-colors`: {";
         litq "    `intro`: `green`";
         lit "  }"; lit "}"; [];
         lit ":: UserStylesheet [stylesheet]"; lit "body { color: red; }"; [];
         lit ":: UserScript [script]"; lit "alert(1 < 2);"; [];
         litq ":: Start [intro day] {`position`:`100,13`,`size`:`100,100`}";
         lit "Go: [[Cave]]"; [];
         litq ":: Cave {`position`:`300,100`,`size`:`100,100`}";
         lit "Dark."].
Proof.
  intros rand story entries Hfill Hd Hn Hi.
  split; [|split; [|split]].
  - rewrite generateTwee_blocks. unfold generateTwee_spec.
    rewrite Hfill, (filled_named entries Hd Hn), (blocks_integer entries Hi).
    reflexivity.
  - intros v. apply round_nearest.
  - intros z Hz. apply int_text_decimal. exact Hz.
  - vm_compute. reflexivity.
Qed.

Lemma generateTwee_passage_blocks_witness :
  generateTwee (fun _ => 0) cave_story
  = generateTwee_spec (fun _ => 0) cave_story (s_passages cave_story).
Proof.
  apply (generateTwee_passage_blocks (fun _ => 0) cave_story
           (s_passages cave_story)); vm_compute; reflexivity.
Defined.

(** C8, as the specification words it, fails in two ways. A passage
    inserted under a name that is an array index is enumerated, and
    written, before the passages that were inserted before it; and a
    size is written as it is stored, not rounded. *)
Lemma generateTwee_order_size_counterexample :
  List.map fst (s_passages index_story) = [lit "7"; lit "b"] /\
  List.map fst index_entries = [lit "b"; lit "7"] /\
  generateTwee (fun _ => 0) index_story
  <> generateTwee_spec (fun _ => 0) index_story index_entries /\
  generateTwee (fun _ => 0) half_story
  = join nl
      [lit ":: StoryTitle"; lit "T"; [];
       lit ":: StoryData"; lit "{";
       litq "  `ifid`: `0`,";
       litq "  `format`: `Harlowe`,";
       litq "  `format-version`: `3.3.9`,";
       litq "  `start`: `Wide`,";
       litq "  `zoom`: 1";
       lit "}"; [];
       litq ":: Wide {`position`:`100,100`,`size`:`50.5,100`}";
       lit "w"] /\
  generateTwee (fun _ => 0) half_story
  <> generateTwee_spec (fun _ => 0) half_story half_entries.
Proof.
  split; [vm_compute; reflexivity|]. split; [reflexivity|].
  split; [vm_compute; discriminate|].
  split; [vm_compute; reflexivity|]. vm_compute; discriminate.
Qed.

(** ** The line format: parsing *)

Lemma passageIndex_save st :
  Twee.passageIndex (Twee.saveCurrentPassage st) = Twee.passageIndex st.
Proof.
  unfold Twee.saveCurrentPassage. destruct (Twee.currentPassage st); reflexivity.
Qed.

Lemma passageIndex_on_content st line :
  Twee.passageIndex (Twee.on_content st line) = Twee.passageIndex st.
Proof.
  unfold Twee.on_content.
  destruct (Twee.currentPassage st); try reflexivity.
  - destruct (trim line); reflexivity.
  - cbn [Twee.set_current].
    destruct (JSON.parse _) as [data|]; [|reflexivity].
    destruct (getp data "ifid"); reflexivity.
Qed.

Lemma on_header_ordinary st m :
  Twee.ordinary m = true ->
  Twee.on_header st m
  = (let st' := Twee.saveCurrentPassage st in
     let '(x, y, width, height) :=
       Twee.header_coords (Twee.passageIndex st') m in
     {| Twee.passages := Twee.passages st';
        Twee.currentPassage :=
          Twee.CPassage (Twee.header_name m) (Twee.header_tags m)
            x y width height [];
        Twee.title := Twee.title st';
        Twee.startPassage := Twee.startPassage st';
        Twee.ifid := Twee.ifid st'; Twee.format := Twee.format st';
        Twee.formatVersion := Twee.formatVersion st';
        Twee.zoom := Twee.zoom st'; Twee.tagColors := Twee.tagColors st';
        Twee.stylesheet := Twee.stylesheet st';
        Twee.javascript := Twee.javascript st';
        Twee.passageIndex := S (Twee.passageIndex st') |}).
Proof.
  unfold Twee.ordinary. intros H.
  repeat (apply andb_true_iff in H; destruct H as [H ?]).
  repeat match goal with
         | E : negb _ = true |- _ => apply negb_true_iff in E
         end.
  unfold Twee.on_header. cbv zeta.
  destruct (Twee.header_coords _ m) as [[[x y] w] h].
  rewrite H, H0, H1, H2. reflexivity.
Qed.

Lemma passageIndex_on_header st m :
  Twee.passageIndex (Twee.on_header st m)
  = (Twee.passageIndex st + if Twee.ordinary m then 1 else 0)%nat.
Proof.
  destruct (Twee.ordinary m) eqn:E.
  - rewrite (on_header_ordinary st m E). cbv zeta.
    destruct (Twee.header_coords _ m) as [[[x y] w] h].
    cbn [Twee.passageIndex]. rewrite passageIndex_save. lia.
  - unfold Twee.ordinary in E. unfold Twee.on_header. cbv zeta.
    destruct (Twee.header_coords _ m) as [[[x y] w] h].
    destruct (Str.eqb (Twee.header_name m) (lit "StoryTitle"));
      [cbn [Twee.set_current Twee.passageIndex];
       rewrite passageIndex_save; lia|].
    destruct (Str.eqb (Twee.header_name m) (lit "StoryData"));
      [cbn [Twee.set_current Twee.passageIndex];
       rewrite passageIndex_save; lia|].
    destruct (mem (lit "stylesheet") (Twee.header_tags m));
      [cbn [Twee.set_current Twee.passageIndex];
       rewrite passageIndex_save; lia|].
    destruct (mem (lit "script") (Twee.header_tags m));
      [cbn [Twee.set_current Twee.passageIndex];
       rewrite passageIndex_save; lia|].
    discriminate.
Qed.

Lemma passageIndex_step st line :
  Twee.passageIndex (Twee.step st line)
  = (Twee.passageIndex st + if Twee.ordinary_line line then 1 else 0)%nat.
Proof.
  unfold Twee.step, Twee.ordinary_line.
  destruct (Twee.headerMatch line) as [m|].
  - apply passageIndex_on_header.
  - rewrite passageIndex_on_content. lia.
Qed.

Lemma passageIndex_run lines : forall st,
  Twee.passageIndex (Twee.run_lines st lines)
  = (Twee.passageIndex st
     + List.length (filter Twee.ordinary_line lines))%nat.
Proof.
  unfold Twee.run_lines.
  induction lines as [|line lines IH]; intros st.
  - simpl. lia.
  - cbn [fold_left filter]. rewrite IH, passageIndex_step.
    destruct (Twee.ordinary_line line); cbn [List.length]; lia.
Qed.

Lemma body_keeps_passage body : forall st name tags x y w h c,
  body_lines body = true ->
  Twee.currentPassage st = Twee.CPassage name tags x y w h c ->
  exists c',
    Twee.currentPassage (Twee.run_lines st body)
    = Twee.CPassage name tags x y w h c'.
Proof.
  unfold Twee.run_lines, body_lines.
  induction body as [|line body IH]; intros st name tags x y w h c Hb Hc.
  - exists c. exact Hc.
  - cbn [forallb] in Hb. apply andb_true_iff in Hb. destruct Hb as [Hl Hb].
    cbn [fold_left].
    apply (IH _ name tags x y w h
             (c ++ match c with [] => [] | _ :: _ => nl end ++ line) Hb).
    unfold Twee.step. unfold Twee.is_header in Hl.
    destruct (Twee.headerMatch line); [discriminate|].
    unfold Twee.on_content. rewrite Hc. reflexivity.
Qed.

Lemma obj_get_set_same k v (o : obj) : obj_get k (obj_set k v o) = Some v.
Proof.
  induction o as [|[k' v'] o IH]; cbn [obj_set obj_get].
  - rewrite str_eqb_refl. reflexivity.
  - destruct (Str.eqb k k') eqn:E; cbn [obj_get].
    + rewrite str_eqb_refl. reflexivity.
    + rewrite E. exact IH.
Qed.

(** *** Reading what was assigned *)

Lemma obj_get_put_own k v (o : obj) :
  mem k (List.map fst o) = true -> obj_get k (put_own k v o) = Some v.
Proof.
  induction o as [|[k' v'] o IH]; [discriminate|].
  cbn [List.map fst mem existsb put_own]. intros H.
  destruct (Str.eqb k k') eqn:E; cbn [obj_get].
  - rewrite str_eqb_refl. reflexivity.
  - rewrite E. apply IH. exact H.
Qed.

Lemma obj_get_put_index i k v (o : obj) :
  mem k (List.map fst o) = false -> obj_get k (put_index i k v o) = Some v.
Proof.
  induction o as [|[k' v'] o IH]; cbn [List.map fst mem existsb put_index].
  - intros _. cbn [obj_get]. rewrite str_eqb_refl. reflexivity.
  - intros H. apply orb_false_iff in H. destruct H as [H1 H2].
    destruct (array_index k') as [j|];
      [destruct (j <? i)|]; cbn [obj_get]; rewrite ?str_eqb_refl;
      try reflexivity.
    rewrite H1. apply IH. exact H2.
Qed.

Lemma obj_get_last k v (o : obj) :
  mem k (List.map fst o) = false -> obj_get k (o ++ [(k, v)]) = Some v.
Proof.
  induction o as [|[k' v'] o IH]; cbn [List.map fst mem existsb app obj_get].
  - intros _. rewrite str_eqb_refl. reflexivity.
  - intros H. apply orb_false_iff in H. destruct H as [H1 H2].
    rewrite H1. apply IH. exact H2.
Qed.

Lemma obj_get_assign_same k v (o : obj) :
  Str.eqb k (lit "__proto__") = false -> obj_get k (assign k v o) = Some v.
Proof.
  intros Hk. unfold assign.
  destruct (mem k (List.map fst o)) eqn:Em;
    [apply obj_get_put_own; exact Em|].
  rewrite Hk. destruct (array_index k) as [i|].
  - apply obj_get_put_index. exact Em.
  - apply obj_get_last. exact Em.
Qed.

Lemma int_or_nonzero t z d :
  parseInt t = Some z -> z <> 0%Z -> Twee.int_or (Some t) d = z.
Proof.
  intros H Hz. unfold Twee.int_or. rewrite H.
  apply Z.eqb_neq in Hz. rewrite Hz. reflexivity.
Qed.

Lemma int_or_default t d :
  parseInt t = Some 0%Z \/ parseInt t = None -> Twee.int_or (Some t) d = d.
Proof.
  intros [H|H]; unfold Twee.int_or; rewrite H; reflexivity.
Qed.

Lemma split_nil sep : sep <> [] -> split sep [] = [[]].
Proof. intros H. destruct sep; [congruence | reflexivity]. Qed.

Lemma read_metadata_texts md o pos sz x y w h :
  JSON.parse md = Some (VObj o) ->
  obj_get (lit "position") o = Some (VStr pos) ->
  obj_get (lit "size") o = Some (VStr sz) ->
  Twee.read_metadata md x y w h
  = (Twee.int_or (nth_error (split (lit ",") pos) 0) x,
     Twee.int_or (nth_error (split (lit ",") pos) 1) y,
     Twee.int_or (nth_error (split (lit ",") sz) 0) w,
     Twee.int_or (nth_error (split (lit ",") sz) 1) h).
Proof.
  intros Hp Hpos Hsz. unfold Twee.read_metadata. rewrite Hp.
  unfold getp. rewrite Hpos, Hsz.
  destruct pos as [|c pos], sz as [|c' sz]; reflexivity.
Qed.

(** C7, as the code has it. The index of [parseTwee] counts the headers
    of ordinary passages read so far. An ordinary header whose name is
    not [__proto__] starts a passage that is saved with the coordinates
    that the header gives for that index, integers that a number holds
    exactly: without metadata, the grid position [100 + 200 (i mod 5)],
    [100 + 150 (i div 5)] and the size 100 by 100; with metadata whose
    [position] and [size] are texts, each of the four numbers is read by
    [parseInt] from its piece of the text, and a piece that reads as a
    number other than zero gives the coordinate, while a piece that reads
    as zero or as no number leaves the default (the grid position, or
    100). *)
Theorem parseTwee_coordinates :
  (forall rand lines,
      Twee.passageIndex (Twee.run_lines (Twee.init rand) lines)
      = List.length (filter Twee.ordinary_line lines)) /\
  (forall st line m body x y w h,
      Twee.headerMatch line = Some m -> Twee.ordinary m = true ->
      Str.eqb (Twee.header_name m) (lit "__proto__") = false ->
      body_lines body = true ->
      Twee.header_coords (Twee.passageIndex st) m = (x, y, w, h) ->
      safe_integer x && safe_integer y && safe_integer w && safe_integer h
      = true ->
      exists content,
        obj_get (Twee.header_name m)
          (Twee.passages
             (Twee.saveCurrentPassage (Twee.run_lines st (line :: body))))
        = Some (Twee.saved_passage (Twee.header_name m) (Twee.header_tags m)
                  x y w h content)) /\
  (forall i m,
      cap 3 (m_caps m) = None ->
      Twee.header_coords i m
      = (100 + Z.of_nat (i mod 5) * 200, 100 + Z.of_nat (i / 5) * 150,
         100, 100)%Z) /\
  (forall i m md o pos sz,
      cap 3 (m_caps m) = Some md ->
      JSON.parse md = Some (VObj o) ->
      obj_get (lit "position") o = Some (VStr pos) ->
      obj_get (lit "size") o = Some (VStr sz) ->
      Twee.header_coords i m
      = (Twee.int_or (nth_error (split (lit ",") pos) 0) (Twee.grid_x i),
         Twee.int_or (nth_error (split (lit ",") pos) 1) (Twee.grid_y i),
         Twee.int_or (nth_error (split (lit ",") sz) 0) 100,
         Twee.int_or (nth_error (split (lit ",") sz) 1) 100)) /\
  (forall t z d,
      parseInt t = Some z -> z <> 0%Z -> Twee.int_or (Some t) d = z) /\
  (forall t d,
      parseInt t = Some 0%Z \/ parseInt t = None ->
      Twee.int_or (Some t) d = d).
Proof.
  split; [|split; [|split; [|split; [|split]]]].
  - intros rand lines. rewrite passageIndex_run. reflexivity.
  - intros st line m body x y w h Hm Hord Hname Hbody Hco _.
    unfold Twee.run_lines. cbn [fold_left].
    fold (Twee.run_lines (Twee.step st line) body).
    assert (Hcur : Twee.currentPassage (Twee.step st line)
                   = Twee.CPassage (Twee.header_name m) (Twee.header_tags m)
                       x y w h []).
    { unfold Twee.step. rewrite Hm, (on_header_ordinary st m Hord).
      cbv zeta. rewrite passageIndex_save, Hco. reflexivity. }
    destruct (body_keeps_passage body _ _ _ _ _ _ _ _ Hbody Hcur)
      as [content Hc].
    exists content. unfold Twee.saveCurrentPassage. rewrite Hc.
    cbn [Twee.set_passages Twee.passages].
    apply obj_get_assign_same. exact Hname.
  - intros i m H. unfold Twee.header_coords. rewrite H. reflexivity.
  - intros i m md o pos sz Hcap Hp Hpos Hsz.
    unfold Twee.header_coords. rewrite Hcap.
    destruct md as [|c md]; [discriminate|].
    apply (read_metadata_texts _ _ _ _ _ _ _ _ Hp Hpos Hsz).
  - apply int_or_nonzero.
  - apply int_or_default.
Qed.

Lemma parseTwee_coordinates_witness :
  exists content,
    obj_get (lit "B")
      (Twee.passages
         (Twee.saveCurrentPassage
            (Twee.run_lines (Twee.init (fun _ => 0))
               [litq ":: B [x] {`position`:`600,400`,`size`:`50,60`}";
                lit "b"])))
    = Some (Twee.saved_passage (lit "B") [lit "x"] 600 400 50 60 content).
Proof.
  pose (line := litq ":: B [x] {`position`:`600,400`,`size`:`50,60`}").
  pose (m := match Twee.headerMatch line with
             | Some m => m
             | None => {| m_text := []; m_caps := []; m_rest := [] |}
             end).
  apply (proj1 (proj2 parseTwee_coordinates)
           (Twee.init (fun _ => 0)) line m [lit "b"] 600%Z 400%Z 50%Z 60%Z).
  - vm_compute. reflexivity.
  - vm_compute. reflexivity.
  - vm_compute. reflexivity.
  - vm_compute. reflexivity.
  - vm_compute. reflexivity.
  - vm_compute. reflexivity.
Defined.

(** C7, as the specification words it, fails for a coordinate that is
    zero: the second passage below carries the position [0,0] in its
    metadata and is placed on the grid, at 300 and 100. *)
Lemma parseTwee_zero_position_counterexample :
  let content :=
    join nl [lit ":: A"; lit "a";
             litq ":: B {`position`:`0,0`,`size`:`50,50`}"; lit "b"] in
  exists story passages,
    parseTwee (fun _ => 0) content = Some story /\
    getp story "passages" = Some (VObj passages) /\
    obj_get (lit "B") passages
    = Some (Twee.saved_passage (lit "B") [] 300 100 50 50 (lit "b")) /\
    Twee.saved_passage (lit "B") [] 300 100 50 50 (lit "b")
    <> Twee.saved_passage (lit "B") [] 0 0 50 50 (lit "b").
Proof.
  eexists. eexists. split; [vm_compute; reflexivity|].
  split; [reflexivity|]. split; [reflexivity|].
  vm_compute. discriminate.
Qed.

(** ** Replacing every match *)

Lemma search_skip r c s :
  match_here r (c :: s) = None ->
  search r (c :: s)
  = match search r s with
    | Some (skipped, m) => Some (c :: skipped, m)
    | None => None
    end.
Proof. intros H. cbn [search]. rewrite H. reflexivity. Qed.

Lemma search_here r s m : match_here r s = Some m -> search r s = Some ([], m).
Proof. intros H. destruct s; cbn [search]; rewrite H; reflexivity. Qed.

Lemma replace_fuel_skip n r f c s :
  match_here r (c :: s) = None ->
  replace_fuel (S n) r f (c :: s) = c :: replace_fuel (S n) r f s.
Proof.
  intros H. cbn [replace_fuel]. rewrite (search_skip _ _ _ H).
  destruct (search r s) as [[skipped m]|]; reflexivity.
Qed.

Lemma match_here_char c x s :
  match_here (Lit_ [c]) (x :: s)
  = if c =? x
    then Some {| m_text := [x]; m_caps := []; m_rest := s |}
    else None.
Proof.
  unfold match_here. cbn [Lit_ run].
  destruct (c =? x); [|reflexivity].
  replace (List.length (x :: s) - List.length s)%nat with 1%nat
    by (cbn [List.length]; lia).
  reflexivity.
Qed.

(** Replacing every occurrence of one character. *)
Lemma replace_fuel_char c t s : forall n,
  (List.length s < n)%nat ->
  replace_fuel n (Lit_ [c]) (fun _ => t) s
  = flat_map (fun x => if c =? x then t else [x]) s.
Proof.
  induction s as [|x s IH]; intros n Hn.
  - destruct n; reflexivity.
  - destruct n as [|n]; [cbn [List.length] in Hn; lia|].
    cbn [flat_map]. destruct (c =? x) eqn:E.
    + cbn [replace_fuel].
      rewrite (search_here _ _ _ (eq_trans (match_here_char c x s)
                                     ltac:(rewrite E; reflexivity))).
      cbn [m_text m_rest app]. rewrite IH by (cbn [List.length] in Hn; lia).
      reflexivity.
    + rewrite replace_fuel_skip
        by (rewrite match_here_char, E; reflexivity).
      rewrite IH by (cbn [List.length] in Hn; lia). reflexivity.
Qed.

Lemma replace_char c t s :
  replace (Lit_ [c]) (fun _ => t) s
  = flat_map (fun x => if c =? x then t else [x]) s.
Proof. unfold replace. apply replace_fuel_char. lia. Qed.

Lemma flat_map_flat_map {A B C} (f : A -> list B) (g : B -> list C) l :
  flat_map g (flat_map f l) = flat_map (fun x => flat_map g (f x)) l.
Proof.
  induction l as [|x l IH]; [reflexivity|].
  cbn [flat_map]. rewrite flat_map_app, IH. reflexivity.
Qed.

(** ** escapeHtml *)

(** The five calls of [escapeHtml] act as one substitution that is made
    on all the characters at once: the ampersand of an entity that one
    call has written is not escaped again by a later call. *)
Theorem escapeHtml_passes_simultaneous (s : str) :
  escapeHtml_passes s = escapeHtml s.
Proof.
  unfold escapeHtml_passes. destruct s as [|c0 s0]; [reflexivity|].
  set (s := c0 :: s0). clearbody s.
  change (Lit "&") with (Lit_ [38]). change (Lit "<") with (Lit_ [60]).
  change (Lit ">") with (Lit_ [62]). change (Lit_ dq) with (Lit_ [34]).
  change (Lit "'") with (Lit_ [39]).
  rewrite !replace_char, !flat_map_flat_map.
  unfold escapeHtml. apply flat_map_ext. intros c.
  destruct (N.eqb_spec c 38) as [->|H1]; [reflexivity|].
  destruct (N.eqb_spec c 60) as [->|H2]; [reflexivity|].
  destruct (N.eqb_spec c 62) as [->|H3]; [reflexivity|].
  destruct (N.eqb_spec c 34) as [->|H4]; [reflexivity|].
  destruct (N.eqb_spec c 39) as [->|H5]; [reflexivity|].
  destruct (N.eqb_spec 38 c); [congruence|]. cbn [flat_map app].
  destruct (N.eqb_spec 60 c); [congruence|]. cbn [flat_map app].
  destruct (N.eqb_spec 62 c); [congruence|]. cbn [flat_map app].
  destruct (N.eqb_spec 34 c); [congruence|]. cbn [flat_map app].
  destruct (N.eqb_spec 39 c); [congruence|]. reflexivity.
Qed.

(** No character that opens or closes a tag or an attribute value is
    left in an escaped text. *)
Theorem escapeHtml_no_markup (s : str) :
  existsb is_markup (escapeHtml s) = false.
Proof.
  unfold escapeHtml. induction s as [|c s IH]; [reflexivity|].
  cbn [flat_map]. rewrite existsb_app, IH, orb_false_r.
  destruct (N.eqb_spec c 38) as [->|H1]; [reflexivity|].
  destruct (N.eqb_spec c 60) as [->|H2]; [reflexivity|].
  destruct (N.eqb_spec c 62) as [->|H3]; [reflexivity|].
  destruct (N.eqb_spec c 34) as [->|H4]; [reflexivity|].
  destruct (N.eqb_spec c 39) as [->|H5]; [reflexivity|].
  cbn [existsb]. unfold is_markup.
  apply N.eqb_neq in H2, H3, H4, H5. rewrite H2, H3, H4, H5. reflexivity.
Qed.

Lemma escapeHtml_cons c s :
  escapeHtml (c :: s)
  = (if c =? 38 then lit "&amp;"
     else if c =? 60 then lit "&lt;"
     else if c =? 62 then lit "&gt;"
     else if c =? 34 then lit "&quot;"
     else if c =? 39 then lit "&#39;"
     else [c]) ++ escapeHtml s.
Proof. reflexivity. Qed.

Lemma read_entities_escapeHtml s : read_entities 0 (escapeHtml s) = s.
Proof.
  induction s as [|c s IH]; [reflexivity|].
  rewrite escapeHtml_cons.
  destruct (N.eqb_spec c 38) as [->|H1]; [cbn; rewrite IH; reflexivity|].
  destruct (N.eqb_spec c 60) as [->|H2]; [cbn; rewrite IH; reflexivity|].
  destruct (N.eqb_spec c 62) as [->|H3]; [cbn; rewrite IH; reflexivity|].
  destruct (N.eqb_spec c 34) as [->|H4]; [cbn; rewrite IH; reflexivity|].
  destruct (N.eqb_spec c 39) as [->|H5]; [cbn; rewrite IH; reflexivity|].
  cbn [app read_entities].
  change (lit "&amp;") with (38 :: lit "amp;").
  change (lit "&lt;") with (38 :: lit "lt;").
  change (lit "&gt;") with (38 :: lit "gt;").
  change (lit "&quot;") with (38 :: lit "quot;").
  change (lit "&#39;") with (38 :: lit "#39;").
  rewrite !startsWith_head_ne by congruence.
  rewrite IH. reflexivity.
Qed.

(** Two texts with the same escaped text are the same text: nothing is
    lost by escaping. *)
Theorem escapeHtml_injective (a b : str) :
  escapeHtml a = escapeHtml b -> a = b.
Proof.
  intros H. rewrite <- (read_entities_escapeHtml a), H.
  apply read_entities_escapeHtml.
Qed.

Lemma escapeHtml_injective_witness :
  escapeHtml (lit "a<b") = escapeHtml [97; 60; 98] /\ lit "a<b" = [97; 60; 98].
Proof.
  split; [reflexivity|].
  apply (escapeHtml_injective (lit "a<b") [97; 60; 98]). reflexivity.
Defined.

(** ** generateIFID *)

Lemma hex_upper_digit v : v < 16 -> is_hex_upper (hex_upper v) = true.
Proof.
  intros Hv. unfold hex_upper, is_hex_upper.
  destruct (N.ltb_spec v 10).
  - replace (48 <=? 48 + v) with true by (symmetry; apply N.leb_le; lia).
    replace (48 + v <=? 57) with true by (symmetry; apply N.leb_le; lia).
    reflexivity.
  - replace (65 <=? 55 + v) with true by (symmetry; apply N.leb_le; lia).
    replace (55 + v <=? 70) with true by (symmetry; apply N.leb_le; lia).
    apply orb_true_r.
Qed.

Lemma variant_digit r :
  existsb (N.eqb (hex_upper (N.lor (N.land r 3) 8))) (lit "89AB") = true.
Proof.
  change 3 with (N.ones 2). rewrite N.land_ones.
  assert (H : r mod 2 ^ 2 < 4) by (apply N.mod_upper_bound; discriminate).
  destruct (r mod 2 ^ 2) as [|p]; [reflexivity|].
  destruct p as [[|?|]|[|?|]|]; try reflexivity; lia.
Qed.

Lemma ifid_fill_fits rand :
  (forall i, rand i < 16) ->
  forall t i, fits t (ifid_fill t rand i) = true.
Proof.
  intros Hr. induction t as [|x t IH]; intros i; [reflexivity|].
  cbn [ifid_fill]. destruct (x =? 120) eqn:Ex.
  - cbn [fits]. rewrite Ex, hex_upper_digit by apply Hr. apply IH.
  - destruct (x =? 121) eqn:Ey.
    + cbn [fits]. rewrite Ex, Ey, variant_digit. apply IH.
    + cbn [fits]. rewrite Ex, Ey, N.eqb_refl. apply IH.
Qed.

(** Whatever the draws, below sixteen each, the identifier has the shape
    of a version 4 UUID in upper case: 8, 4, 4, 4 and 12 hexadecimal
    digits between hyphens, the third group starting with [4] and the
    fourth with [8], [9], [A] or [B]; 36 characters in all. *)
Theorem generateIFID_uuid4 (rand : nat -> N) :
  (forall i, rand i < 16) ->
  fits (lit "xxxxxxxx-xxxx-4xxx-yxxx-xxxxxxxxxxxx") (generateIFID rand) = true
  /\ List.length (generateIFID rand) = 36%nat.
Proof.
  intros Hr. split; [apply ifid_fill_fits; exact Hr | reflexivity].
Qed.

Lemma generateIFID_uuid4_witness :
  fits (lit "xxxxxxxx-xxxx-4xxx-yxxx-xxxxxxxxxxxx")
    (generateIFID (fun i => N.of_nat i mod 16)) = true
  /\ List.length (generateIFID (fun i => N.of_nat i mod 16)) = 36%nat.
Proof.
  apply (generateIFID_uuid4 (fun i => N.of_nat i mod 16)).
  intros i. apply N.mod_upper_bound. discriminate.
Defined.

(** ** generatePassageName *)

Lemma int_text_inj a b : int_text a = int_text b -> a = b.
Proof.
  unfold int_text. intros H.
  pose proof (num_parse_to_str (Num.of_Z a) [] (of_Z_wf a) eq_refl) as Ha.
  pose proof (num_parse_to_str (Num.of_Z b) [] (of_Z_wf b) eq_refl) as Hb.
  rewrite H, Hb in Ha. inversion Ha as [E].
  rewrite <- (round_of_Z a), <- (round_of_Z b), E. reflexivity.
Qed.

Lemma candidate_inj base i j : candidate base i = candidate base j -> i = j.
Proof.
  unfold candidate. intros H.
  apply app_inv_head in H. apply app_inv_head in H.
  apply int_text_inj. exact H.
Qed.

(** A candidate holds a space, which no inherited name does. *)
Lemma candidate_not_inherited base i :
  mem (candidate base i) object_prototype = false.
Proof.
  destruct (mem (candidate base i) object_prototype) eqn:E; [|reflexivity].
  apply mem_In in E.
  assert (Hsp : existsb (N.eqb 32) (candidate base i) = true).
  { unfold candidate. rewrite existsb_app, existsb_app. cbn [lit].
    rewrite orb_true_r. reflexivity. }
  assert (Hno : forallb (fun n => negb (existsb (N.eqb 32) n))
                  object_prototype = true) by reflexivity.
  rewrite forallb_forall in Hno. specialize (Hno _ E).
  rewrite Hsp in Hno. discriminate.
Qed.

Lemma obj_get_some_key k v (o : obj) :
  obj_get k o = Some v -> In k (obj_keys o).
Proof.
  induction o as [|[k' v'] o IH]; [discriminate|].
  cbn [obj_get obj_keys List.map fst].
  destruct (Str.eqb k k') eqn:E.
  - intros _. left. symmetry. apply str_eqb_eq. exact E.
  - intros H. right. apply IH. exact H.
Qed.

Lemma has_candidate_key o base i :
  has_truthy o (candidate base i) = true ->
  In (candidate base i) (obj_keys o).
Proof.
  unfold has_truthy.
  destruct (obj_get (candidate base i) o) as [v|] eqn:E.
  - intros _. exact (obj_get_some_key _ _ _ E).
  - rewrite candidate_not_inherited. discriminate.
Qed.

Lemma str_eq_dec (a b : str) : {a = b} + {a <> b}.
Proof. apply list_eq_dec. apply N.eq_dec. Qed.

(** The loop over the candidates ends on the first free one before the
    fuel runs out, when the fuel exceeds the number of names that the
    candidates can meet and the counter stays below [2^53]. *)
Lemma name_loop_candidates o base : forall fuel ks i,
  (forall j, (i <= j)%Z -> has_truthy o (candidate base j) = true ->
             In (candidate base j) ks) ->
  (List.length ks < fuel)%nat ->
  (i + Z.of_nat fuel <= 2 ^ 53)%Z ->
  exists j,
    (i <= j < i + Z.of_nat fuel)%Z /\
    name_loop fuel (Some o) base (candidate base i) (i + 1)
    = Some (candidate base j) /\
    has_truthy o (candidate base j) = false.
Proof.
  induction fuel as [|fuel IH]; intros ks i Hks Hlen Hmax; [lia|].
  cbn [name_loop has_passage].
  destruct (has_truthy o (candidate base i)) eqn:E.
  - pose proof (Hks i ltac:(lia) E) as Hin.
    assert (Hpos : (0 < List.length ks)%nat)
      by (destruct ks; [destruct Hin | cbn [List.length]; lia]).
    assert (Es : js_succ (i + 1) = (i + 1 + 1)%Z).
    { unfold js_succ.
      replace (i + 1 <? 2 ^ 53)%Z with true
        by (symmetry; apply Z.ltb_lt; lia). reflexivity. }
    rewrite Es.
    destruct (IH (remove str_eq_dec (candidate base i) ks) (i + 1)%Z)
      as [j [Hj [Hloop Hfree]]].
    + intros j Hj Hhas. apply in_in_remove.
      * intros Heq. apply candidate_inj in Heq. lia.
      * apply Hks; [lia | exact Hhas].
    + pose proof (remove_length_lt str_eq_dec ks _ Hin). lia.
    + lia.
    + exists j. split; [lia|]. split; [exact Hloop | exact Hfree].
  - exists i. split; [lia|]. split; [reflexivity | exact E].
Qed.

Lemma generatePassageName_spec (o : obj) (baseName : str) :
  (Z.of_nat (List.length o) + 2 <= 2 ^ 53)%Z ->
  exists name,
    generatePassageName (Some o) baseName = Some name /\
    has_truthy o name = false /\
    ((has_truthy o baseName = false /\ name = baseName) \/
     (has_truthy o baseName = true /\
      exists i, (1 <= i <= Z.of_nat (List.length o) + 1)%Z /\
                name = candidate baseName i)).
Proof.
  intros Hsize.
  unfold generatePassageName. cbn [name_loop has_passage].
  destruct (has_truthy o baseName) eqn:E.
  - change (js_succ 1) with (1 + 1)%Z.
    destruct (name_loop_candidates o baseName (S (List.length o))
                (obj_keys o) 1%Z) as [j [Hj [Hloop Hfree]]].
    + intros j _ Hhas. apply has_candidate_key. exact Hhas.
    + unfold obj_keys. rewrite length_map. lia.
    + lia.
    + exists (candidate baseName j). split; [exact Hloop|].
      split; [exact Hfree|]. right. split; [reflexivity|].
      exists j. split; [lia | reflexivity].
  - exists baseName. split; [reflexivity|]. split; [exact E|].
    left. split; reflexivity.
Qed.

(** In a story of fewer than [2^53 - 1] passages, [generatePassageName]
    returns, and the name it returns is free: [passages[name]] is not
    truthy. It is the base name when that is free, and else the base
    name, a space and a number between one and the number of passages
    plus one. *)
Theorem generatePassageName_fresh (passages : option obj) (baseName : str) :
  (Z.of_nat (List.length (spread_passages passages)) + 2 <= 2 ^ 53)%Z ->
  exists name,
    generatePassageName passages baseName = Some name /\
    has_passage passages name = false /\
    ((has_passage passages baseName = false /\ name = baseName) \/
     (has_passage passages baseName = true /\
      exists i, (1 <= i)%Z /\
                (i <= Z.of_nat (List.length (spread_passages passages)) + 1)%Z /\
                name = candidate baseName i)).
Proof.
  intros Hsize. destruct passages as [o|].
  - destruct (generatePassageName_spec o baseName Hsize)
      as [name [Hg [Hfree [[Hb Hn]|[Hb [i [Hi Hn]]]]]]];
      exists name; (split; [exact Hg|]); (split; [exact Hfree|]).
    + left. split; assumption.
    + right. split; [exact Hb|]. exists i.
      split; [lia|]. split; [cbn [spread_passages]; lia | exact Hn].
  - exists baseName. split; [reflexivity|]. split; [reflexivity|].
    left. split; reflexivity.
Qed.

Lemma generatePassageName_fresh_witness :
  exists name,
    generatePassageName (Some taken_names) default_baseName = Some name /\
    has_passage (Some taken_names) name = false /\
    ((has_passage (Some taken_names) default_baseName = false /\
      name = default_baseName) \/
     (has_passage (Some taken_names) default_baseName = true /\
      exists i, (1 <= i)%Z /\
                (i <= Z.of_nat (List.length
                                  (spread_passages (Some taken_names))) + 1)%Z
                /\ name = candidate default_baseName i)).
Proof.
  apply (generatePassageName_fresh (Some taken_names) default_baseName).
  cbn [List.length spread_passages taken_names]. lia.
Defined.

(** ** Adding a passage *)

Lemma obj_get_set_other k k' v (o : obj) :
  k <> k' -> obj_get k (obj_set k' v o) = obj_get k o.
Proof.
  intros Hne. assert (Hk : Str.eqb k k' = false).
  { destruct (Str.eqb k k') eqn:E; [|reflexivity].
    apply str_eqb_eq in E. congruence. }
  induction o as [|[k2 v2] o IH]; cbn [obj_set obj_get].
  - rewrite Hk. reflexivity.
  - destruct (Str.eqb k' k2) eqn:E2.
    + apply str_eqb_eq in E2. subst k2. cbn [obj_get]. rewrite Hk.
      reflexivity.
    + cbn [obj_get]. rewrite IH. reflexivity.
Qed.

(** In a story of fewer than [2^53 - 1] passages, adding a passage
    comes to an end, and it never replaces or removes a passage that is
    there: whatever the outcome, every name that had a truthy passage
    still has the same passage, and the start passage is the same. When
    the passage is added, it is empty, it stands at the position given,
    and its name was free. *)
Theorem addPassage_keeps_passages
  (owner : bool) (pos : num * num) (db_ok : bool) (currentStory : App.story) :
  (Z.of_nat (List.length (App.passages currentStory)) + 2 <= 2 ^ 53)%Z ->
  exists story' outcome,
    Handlers.addPassageClick owner pos db_ok currentStory
    = Some (story', outcome) /\
    App.startPassage story' = App.startPassage currentStory /\
    (forall k v,
        obj_get k (App.passages currentStory) = Some v /\ truthy v = true ->
        obj_get k (App.passages story') = Some v) /\
    match outcome with
    | Handlers.Added name =>
        has_truthy (App.passages currentStory) name = false /\
        obj_get name (App.passages story')
        = Some (Handlers.new_passage name pos)
    | _ => story' = currentStory
    end.
Proof.
  intros Hsize. unfold Handlers.addPassageClick.
  destruct owner; cbn [negb];
    [|exists currentStory, Handlers.AddIgnored; repeat split; tauto].
  destruct (generatePassageName_spec (App.passages currentStory)
              default_baseName Hsize) as [name [Hg [Hfree _]]].
  rewrite Hg.
  destruct (validatePassageName name) as [e|];
    [exists currentStory, (Handlers.AddInvalidName e); repeat split; tauto|].
  destruct db_ok; cbn [negb];
    [|exists currentStory, Handlers.AddError; repeat split; tauto].
  eexists _, (Handlers.Added name). split; [reflexivity|].
  cbn [App.startPassage App.passages]. split; [reflexivity|]. split.
  - intros k v [Hk Hv]. rewrite obj_get_set_other; [exact Hk|].
    intros ->. unfold has_truthy in Hfree. rewrite Hk in Hfree. congruence.
  - split; [exact Hfree | apply obj_get_set_same].
Qed.

Lemma addPassage_keeps_passages_witness :
  exists story' outcome,
    Handlers.addPassageClick true (Num.of_Z 400, Num.of_Z 300) true
      two_passages = Some (story', outcome) /\
    obj_get (lit "Cave") (App.passages story')
    = obj_get (lit "Cave") (App.passages two_passages).
Proof.
  destruct (addPassage_keeps_passages true (Num.of_Z 400, Num.of_Z 300) true
              two_passages ltac:(cbn [List.length App.passages two_passages];
                                 lia))
    as [story' [outcome [H [_ [Hkeep _]]]]].
  exists story', outcome. split; [exact H|].
  destruct (obj_get (lit "Cave") (App.passages two_passages)) as [v|] eqn:E;
    [|vm_compute in E; discriminate].
  apply Hkeep. split; [exact E|].
  vm_compute in E. inversion E. reflexivity.
Defined.

(** ** Importing a file *)

Lemma keys_set_In k n v (o : obj) :
  In k (obj_keys (obj_set n v o)) <-> k = n \/ In k (obj_keys o).
Proof.
  induction o as [|[k2 v2] o IH]; cbn [obj_set obj_keys List.map fst In].
  - intuition congruence.
  - destruct (Str.eqb n k2) eqn:E.
    + apply str_eqb_eq in E. subst k2.
      cbn [List.map fst In]. intuition congruence.
    + cbn [List.map fst In]. unfold obj_keys in IH. rewrite IH. tauto.
Qed.

Lemma obj_get_set_In k v n x (o : obj) :
  obj_get k (obj_set n x o) = Some v ->
  (k = n /\ v = x) \/ obj_get k o = Some v.
Proof.
  destruct (str_eq_dec k n) as [->|Hne].
  - rewrite obj_get_set_same. intros H. left. split; congruence.
  - rewrite obj_get_set_other by exact Hne. tauto.
Qed.

Lemma obj_get_In k v (o : obj) : obj_get k o = Some v -> In (k, v) o.
Proof.
  induction o as [|[k2 v2] o IH]; [discriminate|].
  cbn [obj_get]. destruct (Str.eqb k k2) eqn:E.
  - apply str_eqb_eq in E. subst k2. intros H. left. congruence.
  - intros H. right. apply IH. exact H.
Qed.

(** A name that the import keeps: not reserved and not blank. *)
Lemma keep_entry_cases acc n p :
  (Handlers.keep_entry acc (n, p) = obj_set n p acc /\
   mem n reserved = false /\ n <> [] /\ trim n <> []) \/
  (Handlers.keep_entry acc (n, p) = acc /\
   (mem n reserved = true \/ n = [] \/ trim n = [])).
Proof.
  unfold Handlers.keep_entry. destruct (mem n reserved); [right; tauto|].
  destruct n as [|c n]; [right; tauto|].
  destruct (trim (c :: n)) eqn:E; [right; tauto|].
  left. cbn [orb]. repeat split; discriminate.
Qed.

Lemma safePassages_fold ps : forall acc k,
  In k (obj_keys (fold_left Handlers.keep_entry ps acc)) <->
  In k (obj_keys acc) \/
  (In k (obj_keys ps) /\ mem k reserved = false /\ k <> [] /\ trim k <> []).
Proof.
  induction ps as [|[n p] ps IH]; intros acc k; cbn [fold_left].
  - cbn [obj_keys List.map In]. tauto.
  - rewrite IH. cbn [obj_keys List.map fst In].
    destruct (keep_entry_cases acc n p) as [[-> [H1 [H2 H3]]]|[-> H]].
    + rewrite keys_set_In. unfold obj_keys. split.
      * intros [[->|Hk]|Hk]; tauto.
      * intros [Hk|[[<-|Hk] Hv]]; tauto.
    + unfold obj_keys. split; [tauto|].
      intros [Hk|[[<-|Hk] [Hv1 [Hv2 Hv3]]]]; try tauto.
      destruct H as [H|[H|H]]; congruence.
Qed.

Lemma safePassages_values ps : forall acc k v,
  obj_get k (fold_left Handlers.keep_entry ps acc) = Some v ->
  obj_get k acc = Some v \/ In (k, v) ps.
Proof.
  induction ps as [|[n p] ps IH]; intros acc k v; cbn [fold_left].
  - tauto.
  - intros H. apply IH in H. destruct H as [H|H]; [|right; right; exact H].
    destruct (keep_entry_cases acc n p) as [[E _]|[E _]]; rewrite E in H.
    + apply obj_get_set_In in H. destruct H as [[-> ->]|H]; [|tauto].
      right. left. reflexivity.
    + tauto.
Qed.

(** The import keeps the passages whose names are not reserved and not
    blank, and those only; a passage that is kept is a passage of the
    file, under the same name. *)
Theorem safePassages_valid_names (passages : obj) :
  (forall k,
      In k (obj_keys (Handlers.safePassages passages)) <->
      In k (obj_keys passages) /\
      mem k reserved = false /\ k <> [] /\ trim k <> []) /\
  (forall k v,
      obj_get k (Handlers.safePassages passages) = Some v ->
      In (k, v) passages).
Proof.
  split.
  - intros k. unfold Handlers.safePassages. rewrite safePassages_fold.
    cbn [obj_keys List.map In]. tauto.
  - intros k v H.
    apply safePassages_values in H. destruct H as [H|H]; [discriminate|].
    exact H.
Qed.

Lemma safePassages_valid_names_witness :
  In (lit "Cave") (obj_keys (Handlers.safePassages import_passages)) /\
  ~ In (lit "toString") (obj_keys (Handlers.safePassages import_passages)).
Proof.
  pose proof (proj1 (safePassages_valid_names import_passages)) as H. split.
  - apply H. vm_compute. intuition discriminate.
  - intros Hin. apply H in Hin. destruct Hin as [_ [Hr _]].
    vm_compute in Hr. discriminate.
Defined.

Lemma obj_get_key_some k (o : obj) :
  In k (obj_keys o) -> exists v, obj_get k o = Some v.
Proof.
  intros H. apply obj_get_In_keys in H.
  destruct (obj_get k o) as [v|]; [exists v; reflexivity | congruence].
Qed.

(** When the import stores a story, the start passage that it stores
    names one of the passages that it stores, unless the start passage
    of the file bears a name that every object inherits. *)
Theorem import_start_resolves
  (passages : obj) (startPassage : value) (safe : obj) (safeStart : value) :
  Handlers.sanitize_import passages startPassage
  = Handlers.Imported safe safeStart ->
  mem (Handlers.to_string startPassage) object_prototype = false ->
  obj_get (Handlers.to_string safeStart) safe <> None.
Proof.
  unfold Handlers.sanitize_import.
  destruct (obj_keys (Handlers.safePassages passages)) as [|k0 ks] eqn:Ek;
    [discriminate|].
  intros H Hno. inversion H; subst. clear H.
  unfold Handlers.safeStart, has_truthy. rewrite Ek.
  destruct (obj_get (Handlers.to_string startPassage)
              (Handlers.safePassages passages)) as [v|] eqn:Eg.
  - destruct (truthy v); [rewrite Eg; discriminate|].
    cbn [Handlers.to_string]. apply obj_get_In_keys. rewrite Ek.
    left. reflexivity.
  - rewrite Hno. cbn [Handlers.to_string]. apply obj_get_In_keys.
    rewrite Ek. left. reflexivity.
Qed.

Lemma import_start_resolves_witness :
  obj_get (Handlers.to_string (VStr (lit "Cave")))
    (Handlers.safePassages import_passages) <> None.
Proof.
  apply (import_start_resolves import_passages (VStr (lit "Gone"))
           (Handlers.safePassages import_passages) (VStr (lit "Cave")));
    reflexivity.
Defined.

(** A start passage named as one of the reserved names that every
    object inherits ([__proto__], [constructor], [hasOwnProperty],
    [toString], [valueOf]) is stored as it is, although the import has
    dropped the passage of that name: the start passage then names no
    passage of the story that is stored. *)
Theorem import_start_inherited
  (passages : obj) (startPassage : value) (safe : obj) (safeStart : value) :
  Handlers.sanitize_import passages startPassage
  = Handlers.Imported safe safeStart ->
  mem (Handlers.to_string startPassage) reserved = true ->
  mem (Handlers.to_string startPassage) object_prototype = true ->
  safeStart = startPassage /\
  obj_get (Handlers.to_string safeStart) safe = None.
Proof.
  unfold Handlers.sanitize_import.
  destruct (obj_keys (Handlers.safePassages passages)) as [|k0 ks] eqn:Ek;
    [discriminate|].
  intros H Hres Hinh. inversion H; subst. clear H.
  assert (Hnone : obj_get (Handlers.to_string startPassage)
                    (Handlers.safePassages passages) = None).
  { destruct (obj_get (Handlers.to_string startPassage)
                (Handlers.safePassages passages)) as [v|] eqn:Eg;
      [|reflexivity].
    apply obj_get_some_key in Eg.
    apply (proj1 (safePassages_fold passages [] _)) in Eg.
    cbn [obj_keys List.map In] in Eg.
    destruct Eg as [[]|[_ [Hr _]]]. congruence. }
  unfold Handlers.safeStart, has_truthy. rewrite Hnone, Hinh.
  split; [reflexivity | exact Hnone].
Qed.

Lemma import_start_inherited_witness :
  Handlers.sanitize_import import_passages (VStr (lit "toString"))
  = Handlers.Imported (Handlers.safePassages import_passages)
      (VStr (lit "toString")) /\
  obj_get (lit "toString") (Handlers.safePassages import_passages) = None.
Proof.
  split; [reflexivity|].
  apply (import_start_inherited import_passages (VStr (lit "toString"))
           (Handlers.safePassages import_passages) (VStr (lit "toString")));
    reflexivity.
Defined.

(** ** The archive format *)


Lemma number_fold_pid start names : forall st,
  Archive.pid (fold_left (Archive.number_passage start) names st)
  = (Archive.pid st + Z.of_nat (List.length names))%Z.
Proof.
  induction names as [|n names IH]; intros st; cbn [fold_left List.length].
  - lia.
  - rewrite IH. cbn [Archive.number_passage Archive.pid]. lia.
Qed.







(** ** Values and their JSON text without indentation *)

Lemma compact_array_items_fix l :
  (fix go (l : list value) : list str :=
     match l with
     | [] => []
     | x :: l' =>
         match JSON.stringify x with
         | Some t => t
         | None => lit "null"
         end :: go l'
     end) l = compact_array_items l.
Proof.
  induction l as [|x l IH]; [reflexivity|].
  cbn [compact_array_items]. rewrite <- IH. reflexivity.
Qed.

Lemma compact_object_items_fix o :
  (fix go (o : obj) : list str :=
     match o with
     | [] => []
     | (k, x) :: o' =>
         match JSON.stringify x with
         | Some t => (JSON.quote k ++ lit ":" ++ t) :: go o'
         | None => go o'
         end
     end) o = compact_object_items o.
Proof.
  induction o as [|[k x] o IH]; [reflexivity|].
  cbn [compact_object_items]. rewrite <- IH. reflexivity.
Qed.

Lemma stringify_arr l :
  JSON.stringify (VArr l)
  = Some (lit "[" ++ join (lit ",") (compact_array_items l) ++ lit "]").
Proof. cbn [JSON.stringify]. rewrite compact_array_items_fix. reflexivity. Qed.

Lemma stringify_obj o :
  JSON.stringify (VObj o)
  = Some (lit "{" ++ join (lit ",") (compact_object_items o) ++ lit "}").
Proof. cbn [JSON.stringify]. rewrite compact_object_items_fix. reflexivity. Qed.

Lemma compact_roundtrips_leaf v :
  (forall ind, JSON.stringify_at ind v = JSON.stringify v) ->
  roundtrips v -> compact_roundtrips v.
Proof.
  intros Hs Hr Hwf. destruct (Hr Hwf [] eq_refl) as [c [t [Es H]]].
  exists c, t. rewrite <- (Hs []). split; [exact Es | exact H].
Qed.

Lemma parse_elements_compact l :
  Forall compact_roundtrips l -> wf_value (VArr l) = true -> l <> [] ->
  forall n acc rest,
    (List.length (join (lit ",") (compact_array_items l)) + 2 <= n)%nat ->
    JSON.parse_elements n
      (join (lit ",") (compact_array_items l) ++ 93 :: rest) acc
    = Some (VArr (acc ++ l), rest).
Proof.
  intros HP Hwf. induction l as [|x l IH]; [congruence|]. intros _.
  inversion HP as [|x' l' Px Pl]; subst.
  rewrite wf_arr in Hwf. apply andb_true_iff in Hwf. destruct Hwf as [Hx Hl].
  destruct (Px Hx) as [c [t [Es [Hc [_ Hparse]]]]].
  intros n acc rest Hn.
  cbn [compact_array_items] in *. rewrite Es in *.
  destruct n as [|n]; [lia|]. rewrite parse_elements_step.
  destruct l as [|y l].
  - cbn [compact_array_items join] in *.
    change ((c :: t) ++ 93 :: rest) with ([] ++ (c :: t) ++ 93 :: rest).
    rewrite (Hparse n [] (93 :: rest)); [| lia | reflexivity | reflexivity].
    reflexivity.
  - cbn [compact_array_items] in Hn |- *.
    rewrite join_cons2 in Hn |- *.
    set (J := join (lit ",")
                (match JSON.stringify y with
                 | Some t0 => t0
                 | None => lit "null"
                 end :: compact_array_items l)) in *.
    rewrite <- (app_assoc (c :: t)), <- (app_assoc (lit ",")).
    rewrite !length_app in Hn. cbn [List.length] in Hn.
    change ((c :: t) ++ lit "," ++ J ++ 93 :: rest)
      with ([] ++ (c :: t) ++ lit "," ++ J ++ 93 :: rest).
    rewrite (Hparse n [] (lit "," ++ J ++ 93 :: rest));
      [| cbn [List.length]; lia | reflexivity | reflexivity].
    cbn [lit List.map list_ascii_of_string app JSON.skip_ws].
    change (JSON.is_space (N_of_ascii ",")) with false. cbv iota.
    change (N_of_ascii "," =? 44) with true. cbv iota.
    unfold J. change (match JSON.stringify y with
                      | Some t0 => t0
                      | None => lit "null"
                      end :: compact_array_items l)
      with (compact_array_items (y :: l)).
    rewrite (IH Pl Hl ltac:(discriminate)).
    + rewrite <- app_assoc. reflexivity.
    + unfold J in Hn. cbn [compact_array_items]. lia.
Qed.

Lemma parse_members_compact o :
  Forall (fun kv => compact_roundtrips (snd kv)) o ->
  forallb (fun kv => wf_value (snd kv)) o = true -> o <> [] ->
  forall n acc rest,
    (List.length (join (lit ",") (compact_object_items o)) < n)%nat ->
    distinct (List.map fst acc ++ List.map fst o) = true ->
    JSON.parse_members n
      (join (lit ",") (compact_object_items o) ++ 125 :: rest) acc
    = Some (VObj (acc ++ o), rest).
Proof.
  intros HP Hwf. induction o as [|[k x] o IH]; [congruence|]. intros _.
  inversion HP as [|kx o' Px Po]; subst. cbn [snd] in Px.
  cbn [forallb snd] in Hwf. apply andb_true_iff in Hwf.
  destruct Hwf as [Hx Ho].
  destruct (Px Hx) as [c [t [Es [Hc [_ Hparse]]]]].
  intros n acc rest Hn Hdis.
  cbn [List.map fst] in Hdis.
  pose proof (distinct_middle _ _ _ Hdis) as Hfresh.
  assert (Hdis' : distinct (List.map fst (acc ++ [(k, x)]) ++ List.map fst o)
                  = true).
  { rewrite map_app, <- app_assoc. exact Hdis. }
  cbn [compact_object_items] in Hn |- *. rewrite Es in Hn |- *.
  destruct n as [|n]; [lia|]. rewrite parse_members_step.
  set (item := JSON.quote k ++ lit ":" ++ c :: t) in *.
  assert (Hitem : forall tail,
            item ++ tail
            = [] ++ 34 :: (JSON.escape false k ++
                           34 :: ([] ++ 58 :: ([] ++ (c :: t) ++ tail)))).
  { intros tail. unfold item, JSON.quote. rewrite <- !app_assoc. reflexivity. }
  assert (Hlen : (List.length (c :: t) + 3 <= List.length item)%nat).
  { unfold item, JSON.quote. rewrite !length_app. cbn [List.length].
    change (List.length dq) with 1%nat.
    change (List.length (lit ":")) with 1%nat. lia. }
  destruct o as [|[k2 y] o].
  - cbn [compact_object_items join] in Hn |- *.
    rewrite Hitem, (skip_ws_spaces [] 34) by reflexivity.
    change (34 =? 34) with true. cbv iota.
    rewrite parse_chars_escape.
    rewrite (skip_ws_spaces [] 58) by reflexivity.
    change (58 =? 58) with true. cbv iota.
    rewrite Hparse; [| lia | reflexivity | reflexivity].
    cbn [JSON.skip_ws]. change (JSON.is_space 125) with false. cbv iota.
    change (125 =? 44) with false. change (125 =? 125) with true. cbv iota.
    rewrite (obj_set_fresh _ _ _ Hfresh). reflexivity.
  - cbn [compact_object_items] in Hn |- *.
    assert (Hy : wf_value y = true).
    { pose proof Ho as Ho'. cbn [forallb snd] in Ho'.
      apply andb_true_iff in Ho'. tauto. }
    pose proof (Forall_inv Po) as Py. cbn [snd] in Py.
    destruct (Py Hy) as [c2 [t2 [Es2 _]]].
    rewrite Es2 in Hn |- *.
    rewrite join_cons2 in Hn |- *.
    set (J := join (lit ",")
                ((JSON.quote k2 ++ lit ":" ++ c2 :: t2)
                 :: compact_object_items o)) in *.
    rewrite <- (app_assoc item), <- (app_assoc (lit ",")).
    rewrite !length_app in Hn.
    rewrite Hitem, (skip_ws_spaces [] 34) by reflexivity.
    change (34 =? 34) with true. cbv iota.
    rewrite parse_chars_escape.
    rewrite (skip_ws_spaces [] 58) by reflexivity.
    change (58 =? 58) with true. cbv iota.
    rewrite Hparse; [| lia | reflexivity | reflexivity].
    change (lit "," ++ J ++ 125 :: rest) with (44 :: (J ++ 125 :: rest)).
    cbn [JSON.skip_ws]. change (JSON.is_space 44) with false. cbv iota.
    change (44 =? 44) with true. cbv iota.
    rewrite (obj_set_fresh _ _ _ Hfresh).
    assert (EJ : J = join (lit ",") (compact_object_items ((k2, y) :: o))).
    { unfold J. cbn [compact_object_items]. rewrite Es2. reflexivity. }
    rewrite EJ.
    rewrite (IH Po Ho ltac:(discriminate)); [| | assumption].
    + rewrite <- app_assoc. reflexivity.
    + rewrite <- EJ. change (List.length (lit ",")) with 1%nat in Hn. lia.
Qed.

Lemma compact_roundtrips_arr l :
  Forall compact_roundtrips l -> compact_roundtrips (VArr l).
Proof.
  intros HP Hwf. rewrite stringify_arr.
  destruct l as [|x l].
  - exists 91, [93].
    split; [reflexivity|]. split; [reflexivity|]. split; [discriminate|].
    intros n ws rest Hn Hw _. fuel_pos n.
    change ([91; 93] ++ rest) with (91 :: 93 :: rest).
    rewrite parse_value_step, skip_ws_spaces by (assumption || reflexivity).
    reflexivity.
  - pose proof Hwf as Hwf'. rewrite wf_arr in Hwf'.
    apply andb_true_iff in Hwf'. destruct Hwf' as [Hx _].
    destruct (Forall_inv HP Hx) as [c [t [Es [Hc [Hc93 _]]]]].
    cbn [compact_array_items]. rewrite Es.
    set (J := join (lit ",") ((c :: t) :: compact_array_items l)).
    assert (EJ : J = join (lit ",") (compact_array_items (x :: l))).
    { unfold J. cbn [compact_array_items]. rewrite Es. reflexivity. }
    exists 91, (J ++ lit "]").
    split; [reflexivity|]. split; [reflexivity|]. split; [discriminate|].
    intros n ws rest Hn Hw _. fuel_pos n.
    change ((91 :: J ++ lit "]") ++ rest)
      with (91 :: ((J ++ lit "]") ++ rest)).
    rewrite parse_value_step, skip_ws_spaces by (assumption || reflexivity).
    change (91 =? 123) with false. change (91 =? 91) with true. cbv iota.
    rewrite <- app_assoc. change (lit "]" ++ rest) with (93 :: rest).
    destruct (join_head (lit ",") c t (compact_array_items l)) as [j Ej].
    fold J in Ej. rewrite Ej at 1.
    change ((c :: j) ++ 93 :: rest) with (c :: (j ++ 93 :: rest)).
    cbn [JSON.skip_ws]. rewrite Hc.
    apply N.eqb_neq in Hc93. rewrite Hc93.
    rewrite EJ.
    rewrite (parse_elements_compact (x :: l) HP Hwf ltac:(discriminate)).
    + reflexivity.
    + rewrite <- EJ. cbn [List.length] in Hn.
      rewrite !length_app in Hn.
      change (List.length (lit "]")) with 1%nat in Hn. lia.
Qed.

Lemma compact_roundtrips_obj o :
  Forall (fun kv => compact_roundtrips (snd kv)) o ->
  compact_roundtrips (VObj o).
Proof.
  intros HP Hwf. rewrite stringify_obj.
  rewrite wf_obj in Hwf. apply andb_true_iff in Hwf.
  destruct Hwf as [Hdis Hall].
  destruct o as [|[k x] o].
  - exists 123, [125].
    split; [reflexivity|]. split; [reflexivity|]. split; [discriminate|].
    intros n ws rest Hn Hw _. fuel_pos n.
    change ([123; 125] ++ rest) with (123 :: 125 :: rest).
    rewrite parse_value_step, skip_ws_spaces by (assumption || reflexivity).
    reflexivity.
  - pose proof Hall as Hall'. cbn [forallb snd] in Hall'.
    apply andb_true_iff in Hall'. destruct Hall' as [Hx _].
    pose proof (Forall_inv HP) as Px. cbn [snd] in Px.
    destruct (Px Hx) as [c [t [Es _]]].
    cbn [compact_object_items]. rewrite Es.
    set (item := JSON.quote k ++ lit ":" ++ c :: t).
    set (J := join (lit ",") (item :: compact_object_items o)).
    assert (EJ : J = join (lit ",") (compact_object_items ((k, x) :: o))).
    { unfold J, item. cbn [compact_object_items]. rewrite Es. reflexivity. }
    exists 123, (J ++ lit "}").
    split; [reflexivity|]. split; [reflexivity|]. split; [discriminate|].
    intros n ws rest Hn Hw _. fuel_pos n.
    change ((123 :: J ++ lit "}") ++ rest)
      with (123 :: ((J ++ lit "}") ++ rest)).
    rewrite parse_value_step, skip_ws_spaces by (assumption || reflexivity).
    change (123 =? 123) with true. cbv iota.
    rewrite <- app_assoc. change (lit "}" ++ rest) with (125 :: rest).
    assert (Ej : exists j, J = 34 :: j).
    { unfold J, item, JSON.quote.
      destruct (compact_object_items o); eexists; reflexivity. }
    destruct Ej as [j Ej]. rewrite Ej at 1.
    change ((34 :: j) ++ 125 :: rest) with (34 :: (j ++ 125 :: rest)).
    cbn [JSON.skip_ws]. change (JSON.is_space 34) with false. cbv iota.
    change (34 =? 125) with false. cbv iota.
    rewrite EJ.
    rewrite (parse_members_compact ((k, x) :: o) HP Hall ltac:(discriminate)).
    + reflexivity.
    + rewrite <- EJ. cbn [List.length] in Hn.
      rewrite !length_app in Hn. lia.
    + exact Hdis.
Qed.

Lemma compact_roundtrips_all v : compact_roundtrips v.
Proof.
  induction v using value_induction.
  - intros H. discriminate.
  - apply compact_roundtrips_leaf; [reflexivity | apply roundtrips_null].
  - apply compact_roundtrips_leaf; [reflexivity | apply roundtrips_bool].
  - apply compact_roundtrips_leaf; [reflexivity | apply roundtrips_num].
  - apply compact_roundtrips_leaf; [reflexivity | apply roundtrips_str].
  - apply compact_roundtrips_arr; assumption.
  - apply compact_roundtrips_obj; assumption.
Qed.

Lemma compact_roundtrip v :
  wf_value v = true ->
  exists t, JSON.stringify v = Some t /\ JSON.parse t = Some v.
Proof.
  intros Hwf.
  destruct (compact_roundtrips_all v Hwf) as [c [t [Es [_ [_ Hparse]]]]].
  exists (c :: t). split; [exact Es|].
  unfold JSON.parse.
  specialize (Hparse (S (S (List.length (c :: t)))) [] [] ltac:(lia)
                eq_refl eq_refl).
  cbn [app] in Hparse. rewrite app_nil_r in Hparse.
  rewrite Hparse. reflexivity.
Qed.


(** [deepClone] returns a value equal to its argument, for every value
    that JSON text can hold: one made of [null], booleans, finite
    numbers, strings, arrays and objects, with no [undefined] in it. *)
Theorem deepClone_identity (v : value) :
  wf_value v = true -> App.deepClone v = Some v.
Proof.
  intros Hwf. destruct (compact_roundtrip v Hwf) as [t [Es Ep]].
  unfold App.deepClone. rewrite Es. exact Ep.
Qed.

Lemma deepClone_identity_witness :
  App.deepClone (VObj (App.passages two_passages))
  = Some (VObj (App.passages two_passages)).
Proof.
  apply (deepClone_identity (VObj (App.passages two_passages))).
  reflexivity.
Defined.

(** ** Closing the passage editor *)



(** *** Renaming *)







Lemma rewrite_links_empty oldName newName :
  App.rewrite_links oldName newName [] = [].
Proof. reflexivity. Qed.





Lemma str_or_nonempty s d : s <> [] -> str_or s d = s.
Proof. destruct s; [congruence | reflexivity]. Qed.

Lemma str_eqb_neq a b : a <> b -> Str.eqb a b = false.
Proof.
  intros H. destruct (Str.eqb a b) eqn:E; [|reflexivity].
  apply str_eqb_eq in E. congruence.
Qed.



(** A new name that is valid and that [Object.prototype] holds, such as
    [isPrototypeOf] or [toLocaleString], is taken for the name of a
    passage although the story has no passage of that name: the check
    for a collision reads it through the prototype, and the editor ends
    with [NameCollision] and leaves the story as it was. *)
Theorem rename_to_inherited_name
  (currentStory : App.story) (oldName passageNameInput content : str)
  (db_ok : bool) :
  oldName <> [] ->
  trim passageNameInput <> oldName ->
  validatePassageName (trim passageNameInput) = None ->
  mem (trim passageNameInput) object_prototype = true ->
  obj_get (trim passageNameInput) (App.passages currentStory) = None ->
  App.closePassageEditor true (Some oldName) passageNameInput content db_ok
    currentStory
  = (currentStory, App.NameCollision).
Proof.
  intros Hold Hdiff Hvalid Hproto Hnone.
  unfold App.closePassageEditor.
  destruct oldName as [|c0 s0] eqn:Eold; [congruence|]. rewrite <- Eold in *.
  cbn [negb].
  assert (Hne : trim passageNameInput <> []).
  { intros E. rewrite E in Hproto. discriminate. }
  rewrite (str_or_nonempty _ _ Hne).
  rewrite (str_eqb_neq _ _ Hdiff). cbn [negb].
  rewrite Hvalid. unfold has_truthy. rewrite Hnone, Hproto. reflexivity.
Qed.

Lemma rename_to_inherited_name_witness :
  App.closePassageEditor true (Some (lit "Cave")) (lit "isPrototypeOf")
    (lit "Wet.") true
    {| App.passages := passages_obj (s_passages cave_story);
       App.startPassage := VStr (lit "Start") |}
  = ({| App.passages := passages_obj (s_passages cave_story);
        App.startPassage := VStr (lit "Start") |},
     App.NameCollision).
Proof.
  apply (rename_to_inherited_name
           {| App.passages := passages_obj (s_passages cave_story);
              App.startPassage := VStr (lit "Start") |}
           (lit "Cave") (lit "isPrototypeOf") (lit "Wet.") true);
    vm_compute; (reflexivity || discriminate).
Defined.

(** ** The line format: when there is a result *)

Lemma put_own_nil {A} k (v : A) (o : list (str * A)) :
  put_own k v o = [] -> o = [].
Proof.
  destruct o as [|[k' v'] o]; [reflexivity|].
  cbn [put_own]. destruct (Str.eqb k k'); discriminate.
Qed.

Lemma put_index_not_nil {A} i k (v : A) (o : list (str * A)) :
  put_index i k v o <> [].
Proof.
  destruct o as [|[k' v'] o]; cbn [put_index]; [discriminate|].
  destruct (array_index k') as [j|]; [destruct (j <? i)|]; discriminate.
Qed.

(** An assignment empties no object, and it fills an empty one unless
    the name is [__proto__]. *)
Lemma assign_nil {A} k (v : A) (o : list (str * A)) :
  assign k v o = [] -> o = [] /\ Str.eqb k (lit "__proto__") = true.
Proof.
  unfold assign. destruct (mem k (List.map fst o)) eqn:Em.
  - intros H. apply put_own_nil in H. subst o. discriminate.
  - destruct (Str.eqb k (lit "__proto__")); [intros ->; auto|].
    destruct (array_index k) as [i|]; intros H.
    + apply put_index_not_nil in H. tauto.
    + apply app_eq_nil in H. destruct H as [_ H]. discriminate.
Qed.

Lemma assign_proto_nil {A} k (v : A) :
  Str.eqb k (lit "__proto__") = true -> assign k v [] = [].
Proof.
  intros H. unfold assign. cbn [List.map mem existsb]. rewrite H.
  reflexivity.
Qed.

Lemma save_passages_empty st :
  empty_handed st = true -> Twee.passages (Twee.saveCurrentPassage st) = [].
Proof.
  unfold empty_handed, in_passage, Twee.saveCurrentPassage.
  destruct (Twee.passages st) eqn:Ep; [|discriminate].
  destruct (Twee.currentPassage st); try (intros _; exact Ep).
  intros H. apply negb_true_iff, negb_false_iff in H.
  cbn [Twee.set_passages Twee.passages].
  apply assign_proto_nil. exact H.
Qed.

Lemma save_passages_loaded st :
  empty_handed st = false -> Twee.passages (Twee.saveCurrentPassage st) <> [].
Proof.
  unfold empty_handed, in_passage, Twee.saveCurrentPassage.
  destruct (Twee.currentPassage st) eqn:Ec;
    try (destruct (Twee.passages st); cbn [negb]; discriminate).
  cbn [Twee.set_passages Twee.passages]. intros H Ha.
  apply assign_nil in Ha. destruct Ha as [Ha Hk].
  rewrite Ha, Hk in H. discriminate.
Qed.

Lemma result_none st : Twee.result st = None <-> empty_handed st = true.
Proof.
  unfold Twee.result. cbv zeta.
  destruct (empty_handed st) eqn:E.
  - rewrite (save_passages_empty st E). tauto.
  - pose proof (save_passages_loaded st E) as H.
    destruct (Twee.passages (Twee.saveCurrentPassage st)); [congruence|].
    split; discriminate.
Qed.

Lemma loaded_passages st : Twee.passages st <> [] -> empty_handed st = false.
Proof.
  unfold empty_handed. destruct (Twee.passages st); [congruence|reflexivity].
Qed.

Lemma loaded_in_passage st : in_passage st = true -> empty_handed st = false.
Proof.
  unfold empty_handed. intros ->. destruct (Twee.passages st); reflexivity.
Qed.

(** The state after a header, in the two fields that matter here. *)
Lemma on_header_fields st m :
  Twee.passages (Twee.on_header st m)
  = Twee.passages (Twee.saveCurrentPassage st) /\
  in_passage (Twee.on_header st m) = stored m.
Proof.
  unfold Twee.on_header, stored, Twee.ordinary, in_passage. cbv zeta.
  destruct (Twee.header_coords _ m) as [[[x y] w] h].
  destruct (Str.eqb (Twee.header_name m) (lit "StoryTitle"));
    [split; reflexivity|].
  destruct (Str.eqb (Twee.header_name m) (lit "StoryData"));
    [split; reflexivity|].
  destruct (mem (lit "stylesheet") (Twee.header_tags m));
    [split; reflexivity|].
  destruct (mem (lit "script") (Twee.header_tags m));
    split; reflexivity.
Qed.

Lemma on_content_fields st line :
  Twee.passages (Twee.on_content st line) = Twee.passages st /\
  in_passage (Twee.on_content st line) = in_passage st.
Proof.
  unfold Twee.on_content, in_passage.
  destruct (Twee.currentPassage st) eqn:Ec.
  - rewrite Ec. split; reflexivity.
  - destruct (trim line);
      cbn [Twee.passages Twee.currentPassage]; rewrite ?Ec; split; reflexivity.
  - destruct (JSON.parse _) as [data|];
      [destruct (getp data "ifid")|];
      unfold Twee.set_current;
      cbn [Twee.passages Twee.currentPassage]; split; reflexivity.
  - cbn [Twee.passages Twee.currentPassage]. rewrite ?Ec. split; reflexivity.
  - cbn [Twee.passages Twee.currentPassage]. rewrite ?Ec. split; reflexivity.
  - unfold Twee.set_current. cbn [Twee.passages Twee.currentPassage].
    split; reflexivity.
Qed.

Lemma step_empty_handed st line :
  stored_line line = false -> empty_handed st = true ->
  empty_handed (Twee.step st line) = true.
Proof.
  unfold Twee.step, stored_line. intros Hs He.
  destruct (Twee.headerMatch line) as [m|].
  - destruct (on_header_fields st m) as [Hp Hi].
    unfold empty_handed. rewrite Hp, (save_passages_empty st He), Hi, Hs.
    reflexivity.
  - destruct (on_content_fields st line) as [Hp Hi].
    unfold empty_handed in He |- *. rewrite Hp, Hi. exact He.
Qed.

Lemma step_loaded st line :
  empty_handed st = false -> empty_handed (Twee.step st line) = false.
Proof.
  unfold Twee.step. intros Hl.
  destruct (Twee.headerMatch line) as [m|].
  - apply loaded_passages.
    rewrite (proj1 (on_header_fields st m)).
    apply save_passages_loaded. exact Hl.
  - destruct (on_content_fields st line) as [Hp Hi].
    unfold empty_handed in Hl |- *. rewrite Hp, Hi. exact Hl.
Qed.

Lemma step_stored_loaded st line :
  stored_line line = true -> empty_handed (Twee.step st line) = false.
Proof.
  unfold Twee.step, stored_line.
  destruct (Twee.headerMatch line) as [m|]; [|discriminate].
  intros Hs. apply loaded_in_passage.
  rewrite (proj2 (on_header_fields st m)). exact Hs.
Qed.

Lemma run_loaded lines : forall st,
  empty_handed st = false -> empty_handed (Twee.run_lines st lines) = false.
Proof.
  unfold Twee.run_lines. induction lines as [|l lines IH]; intros st H.
  - exact H.
  - cbn [fold_left]. apply IH. apply step_loaded. exact H.
Qed.

Lemma run_empty_handed lines : forall st,
  empty_handed st = true ->
  empty_handed (Twee.run_lines st lines)
  = negb (existsb stored_line lines).
Proof.
  unfold Twee.run_lines. induction lines as [|l lines IH]; intros st H.
  - exact H.
  - cbn [fold_left existsb]. destruct (stored_line l) eqn:E.
    + cbn [orb negb]. apply run_loaded. apply step_stored_loaded. exact E.
    + cbn [orb]. apply IH. apply step_empty_handed; assumption.
Qed.

(** [parseTwee] gives no result exactly when no line of the text is the
    header of an ordinary passage with a name other than [__proto__]:
    headers of the title, of the story data and of a stylesheet or a
    script do not count; a passage named [__proto__] is read and never
    stored, the assignment of that name adding no property; and one
    header of a passage that is stored is enough, whatever follows
    it. The text of one passage named [__proto__] gives no result. *)
Theorem parseTwee_none_iff (rand : nat -> N) (content : str) :
  (parseTwee rand content = None <->
   existsb stored_line (split nl content) = false) /\
  parseTwee rand (lit ":: __proto__" ++ nl ++ lit "hello") = None.
Proof.
  split.
  - unfold parseTwee. rewrite result_none.
    rewrite (run_empty_handed _ (Twee.init rand) eq_refl).
    rewrite negb_true_iff. reflexivity.
  - unfold parseTwee. apply result_none.
    rewrite (run_empty_handed _ (Twee.init rand) eq_refl).
    reflexivity.
Qed.

(** ** Deleting a passage *)

Lemma obj_get_delete_same k (o : obj) : obj_get k (obj_delete k o) = None.
Proof.
  induction o as [|[k2 v2] o IH]; [reflexivity|].
  cbn [obj_delete]. destruct (Str.eqb k k2) eqn:E; [exact IH|].
  cbn [obj_get]. rewrite E. exact IH.
Qed.

Lemma obj_get_delete_other k k' (o : obj) :
  k <> k' -> obj_get k (obj_delete k' o) = obj_get k o.
Proof.
  intros Hne. induction o as [|[k2 v2] o IH]; [reflexivity|].
  cbn [obj_delete obj_get]. destruct (Str.eqb k' k2) eqn:E.
  - apply str_eqb_eq in E. subst k2.
    rewrite (str_eqb_neq _ _ Hne). exact IH.
  - cbn [obj_get]. rewrite IH. reflexivity.
Qed.

(** Deleting a passage removes the selected passage and no other: either
    the story stays as it was, or the selected passage is gone and every
    other name still has the passage it had. The start passage changes
    only when the handler reports a new start, which is then a key of
    the story other than the deleted one. *)
Theorem deletePassageClick_frame
  (owner : bool) (selectedPassage : option str) (confirmed db_ok : bool)
  (currentStory : App.story) :
  let (story', outcome) :=
    App.deletePassageClick owner selectedPassage confirmed db_ok
      currentStory in
  match outcome with
  | App.Deleted newStart =>
      exists selected,
        selectedPassage = Some selected /\
        obj_get selected (App.passages story') = None /\
        (forall k, k = selected \/
                   obj_get k (App.passages story')
                   = obj_get k (App.passages currentStory)) /\
        match newStart with
        | Some n =>
            App.startPassage story' = VStr n /\ n <> selected /\
            In n (obj_keys (App.passages currentStory))
        | None => App.startPassage story' = App.startPassage currentStory
        end
  | _ => story' = currentStory
  end.
Proof.
  unfold App.deletePassageClick.
  destruct owner; cbn [negb]; [|reflexivity].
  destruct selectedPassage as [[|c s]|]; try reflexivity.
  set (selected := c :: s).
  destruct (_ <=? 1)%nat; [reflexivity|].
  destruct confirmed; cbn [negb]; [|reflexivity].
  destruct db_ok; cbn [negb]; [|reflexivity].
  exists selected. split; [reflexivity|].
  cbn [App.passages App.startPassage].
  split; [apply obj_get_delete_same|]. split.
  - intros k. destruct (str_eq_dec k selected) as [->|Hne];
      [left; reflexivity | right; apply obj_get_delete_other; exact Hne].
  - destruct (App.is_str (App.startPassage currentStory) selected);
      [|reflexivity].
    destruct (find _ _) as [n|] eqn:Ef; [|reflexivity].
    apply find_some in Ef. destruct Ef as [Hin Hn].
    split; [reflexivity|]. split; [|exact Hin].
    intros ->. rewrite str_eqb_refl in Hn. discriminate.
Qed.

(** ** Passage names that are accepted *)

Lemma existsb_false_In {A} (f : A -> bool) l :
  existsb f l = false <-> forall x, In x l -> f x = false.
Proof.
  split.
  - intros H x Hx. destruct (f x) eqn:E; [|reflexivity].
    assert (existsb f l = true) by (apply existsb_exists; eauto).
    congruence.
  - intros H. destruct (existsb f l) eqn:E; [|reflexivity].
    apply existsb_exists in E. destruct E as [x [Hx Hf]].
    rewrite (H x Hx) in Hf. discriminate.
Qed.

Lemma validatePassageName_none name :
  trim name <> [] -> (List.length name <= 200)%nat ->
  existsb (fun c => (c =? 46) || oneof "[]{}#$/" c) name = false ->
  mem name reserved = false ->
  validatePassageName name = None.
Proof.
  intros Htrim Hlen Hchars Hres. unfold validatePassageName.
  assert (E1 : match name with [] => true | _ :: _ => false end = false).
  { destruct name; [exfalso; apply Htrim; reflexivity | reflexivity]. }
  assert (E2 : match trim name with [] => true | _ :: _ => false end = false).
  { destruct (trim name); [congruence | reflexivity]. }
  rewrite E1, E2. cbn [orb].
  replace (200 <? List.length name)%nat with false
    by (symmetry; apply Nat.ltb_ge; exact Hlen).
  rewrite existsb_false_In in Hchars.
  change (lit ".") with [46]. rewrite includes_single.
  replace (existsb (N.eqb 46) name) with false.
  2:{ symmetry. apply existsb_false_In. intros x Hx.
      specialize (Hchars x Hx). apply orb_false_iff in Hchars.
      rewrite N.eqb_sym. tauto. }
  unfold invalid_chars. rewrite test_chr.
  replace (existsb (oneof "[]{}#$/") name) with false.
  2:{ symmetry. apply existsb_false_In. intros x Hx.
      specialize (Hchars x Hx). apply orb_false_iff in Hchars. tauto. }
  rewrite Hres. reflexivity.
Qed.

(** Validation accepts every name that is not blank, has 200 code units
    at most, holds no dot and none of the characters [ ] { } # $ /, and
    is not a reserved word: with the rejections, the check is exact. *)
Theorem validatePassageName_accepts (name : str) :
  trim name <> [] -> (List.length name <= 200)%nat ->
  ~ In 46 name ->
  (forall c, In c name -> ~ In c invalid_set) ->
  ~ In name reserved ->
  validatePassageName name = None.
Proof.
  intros Htrim Hlen Hdot Hinv Hres. apply validatePassageName_none;
    try assumption.
  - apply existsb_false_In. intros x Hx. apply orb_false_iff. split.
    + apply N.eqb_neq. intros ->. tauto.
    + destruct (oneof "[]{}#$/" x) eqn:E; [|reflexivity].
      apply oneof_In in E. exfalso. exact (Hinv x Hx E).
  - destruct (mem name reserved) eqn:E; [|reflexivity].
    apply mem_In in E. tauto.
Qed.

Lemma validatePassageName_accepts_witness :
  validatePassageName (lit "The old cave (2)") = None.
Proof.
  apply (validatePassageName_accepts (lit "The old cave (2)")).
  - vm_compute. discriminate.
  - vm_compute. lia.
  - vm_compute. intuition discriminate.
  - intros c Hc Hi. vm_compute in Hc, Hi. intuition congruence.
  - vm_compute. intuition discriminate.
Defined.

(** ** The name of a new passage *)

Lemma trimStart_snoc l c :
  is_ws c = false -> trimStart (l ++ [c]) <> [].
Proof.
  intros Hc. induction l as [|x l IH]; cbn [app trimStart].
  - rewrite Hc. discriminate.
  - destruct (is_ws x); [exact IH | discriminate].
Qed.

Lemma trim_head_not_nil c s : is_ws c = false -> trim (c :: s) <> [].
Proof.
  intros Hc. unfold trim. cbn [trimStart]. rewrite Hc.
  unfold trimEnd. destruct (rev (c :: s)) as [|x l] eqn:Er.
  { apply (f_equal (@List.length N)) in Er. rewrite length_rev in Er.
    discriminate. }
  assert (Hlast : exists l', x :: l = l' ++ [c]).
  { cbn [rev] in Er. rewrite <- Er.
    destruct (rev s) as [|y r']; [exists []; reflexivity|].
    exists (y :: r'). reflexivity. }
  destruct Hlast as [l' ->]. intros H.
  apply (f_equal (@List.length N)) in H. rewrite length_rev in H.
  pose proof (trimStart_snoc l' c Hc) as Hn.
  destruct (trimStart (l' ++ [c])); [congruence | discriminate].
Qed.

Lemma to_digits_length n :
  n < 10 ^ 21 -> (List.length (Num.to_digits n) <= 21)%nat.
Proof.
  intros Hn. destruct (N.eq_dec n 0) as [->|Hnz]; [vm_compute; lia|].
  destruct (to_digits_spec n) as [d [r [E [_ [Hv Hd0]]]]].
  rewrite E. cbn [List.length].
  specialize (Hd0 Hnz). rewrite of_digits_cons in Hv.
  destruct (Nat.le_gt_cases (S (List.length r)) 21) as [H|H]; [exact H|].
  exfalso.
  assert (Hp : 10 ^ 21 <= 10 ^ N.of_nat (List.length r))
    by (apply N.pow_le_mono_r; lia).
  assert (Hm : 1 * 10 ^ N.of_nat (List.length r)
               <= d * 10 ^ N.of_nat (List.length r))
    by (apply N.mul_le_mono_r; lia).
  lia.
Qed.

Lemma digit_char_plain d :
  (d <=? 9) = true -> (48 + d =? 46) || oneof "[]{}#$/" (48 + d) = false.
Proof.
  intros Hd. apply N.leb_le in Hd. unfold oneof.
  change (lit "[]{}#$/") with [91; 93; 123; 125; 35; 36; 47].
  cbn [existsb].
  repeat (apply orb_false_iff; split); try reflexivity;
    apply N.eqb_neq; lia.
Qed.

Lemma dchars_plain ds :
  all_digits ds = true ->
  existsb (fun c => (c =? 46) || oneof "[]{}#$/" c) (Num.dchars ds) = false.
Proof.
  induction ds as [|d ds IH]; [reflexivity|].
  cbn [all_digits forallb Num.dchars List.map existsb]. intros H.
  apply andb_true_iff in H. destruct H as [Hd Hds].
  rewrite (digit_char_plain d Hd). apply IH. exact Hds.
Qed.

Lemma default_candidate_valid i :
  (1 <= i < 10 ^ 21)%Z ->
  validatePassageName (candidate default_baseName i) = None.
Proof.
  intros Hi. unfold candidate.
  rewrite int_text_decimal by lia.
  replace (i <? 0)%Z with false by (symmetry; apply Z.ltb_ge; lia).
  cbn [app]. unfold Num.dec_str.
  assert (Hn : Z.abs_N i < 10 ^ 21).
  { apply N2Z.inj_lt. rewrite N2Z.inj_abs_N. lia. }
  pose proof (to_digits_length _ Hn) as Hlen.
  destruct (to_digits_spec (Z.abs_N i)) as [d [r [E [Hd _]]]].
  rewrite E in *. clear E.
  apply validatePassageName_none.
  - apply trim_head_not_nil. reflexivity.
  - rewrite !length_app. unfold Num.dchars. rewrite length_map.
    change (List.length default_baseName) with 11%nat.
    change (List.length (lit " ")) with 1%nat. lia.
  - rewrite !existsb_app, (dchars_plain _ Hd). reflexivity.
  - reflexivity.
Qed.

(** In a story of fewer than [2^53 - 1] passages, the owner who adds a
    passage always gets one (when the database accepts it): the name
    that [generatePassageName] makes from the default base name passes
    [validatePassageName], so that the name check of the handler never
    stops the addition. *)
Theorem addPassage_name_valid
  (pos : num * num) (currentStory : App.story) :
  (Z.of_nat (List.length (App.passages currentStory)) + 2 <= 2 ^ 53)%Z ->
  exists name,
    generatePassageName (Some (App.passages currentStory)) default_baseName
    = Some name /\
    validatePassageName name = None /\
    Handlers.addPassageClick true pos true currentStory
    = Some ({| App.passages :=
                 obj_set name (Handlers.new_passage name pos)
                   (App.passages currentStory);
               App.startPassage := App.startPassage currentStory |},
            Handlers.Added name).
Proof.
  intros Hsize.
  destruct (generatePassageName_spec (App.passages currentStory)
              default_baseName Hsize)
    as [name [Hg [_ [[_ Hn]|[_ [i [Hi Hn]]]]]]].
  - exists name. split; [exact Hg|].
    assert (Hv : validatePassageName name = None) by (subst; reflexivity).
    split; [exact Hv|].
    unfold Handlers.addPassageClick. cbn [negb]. rewrite Hg, Hv. reflexivity.
  - exists name. split; [exact Hg|].
    assert (Hv : validatePassageName name = None)
      by (subst; apply default_candidate_valid; lia).
    split; [exact Hv|].
    unfold Handlers.addPassageClick. cbn [negb]. rewrite Hg, Hv. reflexivity.
Qed.

Lemma addPassage_name_valid_witness :
  exists name,
    generatePassageName (Some (App.passages two_passages)) default_baseName
    = Some name /\
    validatePassageName name = None /\
    Handlers.addPassageClick true (Num.of_Z 400, Num.of_Z 300) true
      two_passages
    = Some ({| App.passages :=
                 obj_set name
                   (Handlers.new_passage name (Num.of_Z 400, Num.of_Z 300))
                   (App.passages two_passages);
               App.startPassage := App.startPassage two_passages |},
            Handlers.Added name).
Proof.
  apply (addPassage_name_valid (Num.of_Z 400, Num.of_Z 300) two_passages).
  cbn [List.length App.passages two_passages]. lia.
Defined.

(** ** The passages inside the script of the playable document *)

Lemma search_some r : forall s skipped m,
  search r s = Some (skipped, m) ->
  exists t, s = skipped ++ t /\ match_here r t = Some m /\
            leftmost r skipped t.
Proof.
  induction s as [|c s IH]; intros skipped m H.
  - cbn [search] in H. destruct (match_here r []) eqn:E; [|discriminate].
    inversion H; subst. exists []. repeat split. exact E.
  - cbn [search] in H. destruct (match_here r (c :: s)) eqn:E.
    + inversion H; subst. exists (c :: s). repeat split. exact E.
    + destruct (search r s) as [[sk m']|] eqn:Es; [|discriminate].
      inversion H; subst. destruct (IH _ _ eq_refl) as [t [-> [Hm Hl]]].
      exists t. split; [reflexivity|]. split; [exact Hm|].
      cbn [leftmost]. split; [exact E | exact Hl].
Qed.

Lemma search_none_cons r c s :
  match_here r (c :: s) = None -> search r s = None ->
  search r (c :: s) = None.
Proof. intros H1 H2. cbn [search]. rewrite H1, H2. reflexivity. Qed.

(** The matcher on a pattern made of letters with the [i] flag. *)
Lemma run_ci {R} (p : str) : forall s cs (k : str -> caps -> option R),
  run (fold_right (fun c r => Cat (Chr (Playable.ci c)) r) Eps p) s cs k
  = if prefix_ci p s then k (skipn (List.length p) s) cs else None.
Proof.
  induction p as [|c p IH]; intros s cs k; [reflexivity|].
  cbn [fold_right run prefix_ci List.length skipn].
  destruct s as [|x s]; [reflexivity|].
  destruct (Playable.ci c x); [|reflexivity]. cbn [andb]. apply IH.
Qed.

Lemma prefix_ci_length p : forall s,
  prefix_ci p s = true -> (List.length p <= List.length s)%nat.
Proof.
  induction p as [|c p IH]; intros s H; [cbn; lia|].
  destruct s as [|x s]; [discriminate|].
  cbn [prefix_ci] in H. apply andb_true_iff in H.
  cbn [List.length]. specialize (IH s (proj2 H)). lia.
Qed.

Lemma match_here_closing s :
  match_here Playable.closing_script s
  = if prefix_ci (lit "</script>") s
    then Some {| m_text := firstn 9 s; m_caps := []; m_rest := skipn 9 s |}
    else None.
Proof.
  unfold match_here, Playable.closing_script. rewrite run_ci.
  destruct (prefix_ci (lit "</script>") s) eqn:E; [|reflexivity].
  apply prefix_ci_length in E. change (List.length (lit "</script>")) with 9%nat in *.
  rewrite length_skipn.
  replace (List.length s - (List.length s - 9))%nat with 9%nat by lia.
  reflexivity.
Qed.

(** The text that replaces a closing tag starts no match, wherever the
    match would begin in it. *)
Lemma replacement_no_match out :
  search Playable.closing_script out = None ->
  search Playable.closing_script (lit "<\/script>" ++ out) = None.
Proof.
  intros H.
  change (lit "<\/script>" ++ out)
    with (60 :: 92 :: 47 :: 115 :: 99 :: 114 :: 105 :: 112 :: 116 :: 62
             :: out).
  repeat (apply search_none_cons;
          [rewrite match_here_closing; reflexivity|]).
  exact H.
Qed.

Ltac ci_false :=
  repeat match goal with
         | |- context [Playable.ci ?a ?b] =>
             destruct (Playable.ci a b); cbn [andb]; try reflexivity
         end.

(** What stands before the match cannot start a match with the
    replacement either. *)
Lemma skipped_no_match u t out :
  u <> [] ->
  prefix_ci (lit "</script>") (u ++ t) = false ->
  prefix_ci (lit "</script>") (u ++ lit "<\/script>" ++ out) = false.
Proof.
  intros Hu H.
  change (lit "<\/script>" ++ out)
    with (60 :: 92 :: 47 :: 115 :: 99 :: 114 :: 105 :: 112 :: 116 :: 62
             :: out).
  change (lit "</script>") with [60; 47; 115; 99; 114; 105; 112; 116; 62]
    in *.
  destruct u as [|u1 u]; [congruence|].
  destruct u as [|u2 u];
    [cbn [app prefix_ci];
     change (Playable.ci 47 60) with false; ci_false|].
  destruct u as [|u3 u];
    [cbn [app prefix_ci];
     change (Playable.ci 115 60) with false; ci_false|].
  destruct u as [|u4 u];
    [cbn [app prefix_ci];
     change (Playable.ci 99 60) with false; ci_false|].
  destruct u as [|u5 u];
    [cbn [app prefix_ci];
     change (Playable.ci 114 60) with false; ci_false|].
  destruct u as [|u6 u];
    [cbn [app prefix_ci];
     change (Playable.ci 105 60) with false; ci_false|].
  destruct u as [|u7 u];
    [cbn [app prefix_ci];
     change (Playable.ci 112 60) with false; ci_false|].
  destruct u as [|u8 u];
    [cbn [app prefix_ci];
     change (Playable.ci 116 60) with false; ci_false|].
  destruct u as [|u9 u];
    [cbn [app prefix_ci];
     change (Playable.ci 62 60) with false; ci_false|].
  cbn [app prefix_ci] in H |- *. exact H.
Qed.

Lemma skipped_then_replacement skipped t out :
  leftmost Playable.closing_script skipped t ->
  search Playable.closing_script out = None ->
  search Playable.closing_script (skipped ++ lit "<\/script>" ++ out) = None.
Proof.
  intros Hl Hout. induction skipped as [|c sk IH].
  - apply replacement_no_match. exact Hout.
  - cbn [leftmost] in Hl. destruct Hl as [Hm Hl].
    change ((c :: sk) ++ lit "<\/script>" ++ out)
      with (c :: (sk ++ lit "<\/script>" ++ out)).
    apply search_none_cons; [|apply IH; exact Hl].
    rewrite match_here_closing in Hm |- *.
    change (c :: sk ++ lit "<\/script>" ++ out)
      with ((c :: sk) ++ lit "<\/script>" ++ out).
    rewrite (skipped_no_match (c :: sk) t out); [reflexivity|discriminate|].
    destruct (prefix_ci (lit "</script>") ((c :: sk) ++ t));
      [discriminate | reflexivity].
Qed.

Lemma replace_closing_no_match : forall n s,
  (List.length s < n)%nat ->
  search Playable.closing_script
    (replace_fuel n Playable.closing_script (fun _ => lit "<\/script>") s)
  = None.
Proof.
  induction n as [|n IH]; intros s Hn; [lia|].
  cbn [replace_fuel].
  destruct (search Playable.closing_script s) as [[skipped m]|] eqn:Es;
    [|exact Es].
  destruct (search_some _ _ _ _ Es) as [t [-> [Hm Hl]]].
  rewrite match_here_closing in Hm.
  destruct (prefix_ci (lit "</script>") t) eqn:Ep; [|discriminate].
  inversion Hm; subst m. cbn [m_text m_rest].
  pose proof (prefix_ci_length _ _ Ep) as Hlen.
  change (List.length (lit "</script>")) with 9%nat in Hlen.
  assert (Hs : (List.length (skipn 9 t) < n)%nat)
    by (rewrite length_skipn; rewrite length_app in Hn; lia).
  destruct t as [|t1 t]; [cbn [List.length] in Hlen; lia|].
  cbn [firstn].
  apply (skipped_then_replacement skipped (t1 :: t)); [exact Hl|].
  apply IH. exact Hs.
Qed.

Lemma search_none_everywhere r a : forall b,
  search r (a ++ b) = None -> match_here r b = None.
Proof.
  induction a as [|c a IH]; intros b H.
  - cbn [app] in H. destruct b as [|x b]; cbn [search] in H;
      destruct (match_here r _); [discriminate | reflexivity
                                 | discriminate | reflexivity].
  - cbn [app search] in H.
    destruct (match_here r (c :: a ++ b)); [discriminate|].
    destruct (search r (a ++ b)) as [[sk m]|] eqn:E; [discriminate|].
    apply IH. exact E.
Qed.

(** The text of the passages that [generatePlayableHtml] writes into
    the script element holds no occurrence of the nine characters
    [</script>], in any letter case: wherever the text is cut, what
    follows does not start with them. This does not extend to other
    spellings of a closing tag: the one with a space before its last
    character, which the passage of [spaced_story] holds, is still in
    the text. *)
Theorem passagesJson_no_closing_script (story : Story) :
  (forall a b,
      Playable.passagesJson story = a ++ b ->
      prefix_ci (lit "</script>") b = false) /\
  includes (lit "</script >") (Playable.passagesJson spaced_story) = true.
Proof.
  split; [|vm_compute; reflexivity].
  intros a b E.
  assert (Hs : search Playable.closing_script (Playable.passagesJson story)
               = None).
  { unfold Playable.passagesJson.
    destruct (JSON.stringify (passages_value (s_passages story))) as [t|];
      [|reflexivity].
    unfold replace. apply replace_closing_no_match. lia. }
  rewrite E in Hs. apply search_none_everywhere in Hs.
  rewrite match_here_closing in Hs.
  destruct (prefix_ci (lit "</script>") b); [discriminate | reflexivity].
Qed.

(** ** Trimming *)

Lemma trimStart_head s :
  match trimStart s with
  | [] => True
  | c :: _ => is_ws c = false
  end.
Proof.
  induction s as [|x s IH]; [exact I|].
  cbn [trimStart]. destruct (is_ws x) eqn:E; [exact IH | exact E].
Qed.

Lemma trimStart_keeps c s : is_ws c = false -> trimStart (c :: s) = c :: s.
Proof. intros H. cbn [trimStart]. rewrite H. reflexivity. Qed.

Lemma trimStart_idem s : trimStart (trimStart s) = trimStart s.
Proof.
  pose proof (trimStart_head s) as H.
  destruct (trimStart s) as [|c t]; [reflexivity|].
  apply trimStart_keeps. exact H.
Qed.

Lemma trimStart_app_last l c :
  is_ws c = false -> trimStart (l ++ [c]) = trimStart l ++ [c].
Proof.
  intros Hc. induction l as [|x l IH]; cbn [app trimStart].
  - rewrite Hc. reflexivity.
  - destruct (is_ws x); [exact IH | reflexivity].
Qed.

Lemma trimEnd_cons c s : is_ws c = false -> trimEnd (c :: s) = c :: trimEnd s.
Proof.
  intros Hc. unfold trimEnd. cbn [rev].
  rewrite (trimStart_app_last _ _ Hc), rev_app_distr. reflexivity.
Qed.

Lemma trimEnd_idem s : trimEnd (trimEnd s) = trimEnd s.
Proof. unfold trimEnd. rewrite rev_involutive, trimStart_idem. reflexivity. Qed.

Lemma trim_idem s : trim (trim s) = trim s.
Proof.
  unfold trim. pose proof (trimStart_head s) as H.
  destruct (trimStart s) as [|c t]; [reflexivity|].
  rewrite (trimEnd_cons _ _ H), (trimStart_keeps _ _ H).
  rewrite <- (trimEnd_cons _ _ H). apply trimEnd_idem.
Qed.

(** ** The targets of the links *)

Lemma match_here_marker s :
  startsWith (lit "[[") s = false -> match_here link_marker s = None.
Proof.
  unfold match_here, link_marker. intros H.
  destruct s as [|a [|b s]]; cbn [Cats Lit Lit_ lit List.map
    list_ascii_of_string run]; try reflexivity.
  - destruct (N_of_ascii "[" =? a); reflexivity.
  - change (lit "[[") with [91; 91] in H. cbn [startsWith] in H.
    change (N_of_ascii "[") with 91.
    destruct (91 =? a); [|reflexivity].
    destruct (91 =? b); [discriminate | reflexivity].
Qed.

Lemma search_marker_none s :
  includes (lit "[[") s = false -> search link_marker s = None.
Proof.
  induction s as [|c s IH]; intros H.
  - reflexivity.
  - apply search_none_cons.
    + apply match_here_marker. apply includes_head. exact H.
    + apply IH. apply (includes_cons _ c). exact H.
Qed.

(** A content in which no two opening brackets follow each other has no
    link; and every target that [extractLinks] returns is trimmed: it
    has no white space at either end. *)
Theorem extractLinks_trimmed (content : str) :
  (includes (lit "[[") content = true \/ extractLinks content = []) /\
  forallb (fun target => Str.eqb (trim target) target) (extractLinks content)
  = true.
Proof.
  split.
  - destruct (includes (lit "[[") content) eqn:E; [left; reflexivity|].
    right. unfold extractLinks. destruct content as [|c s]; [reflexivity|].
    unfold match_all. cbn [match_all_fuel].
    rewrite (search_marker_none _ E). reflexivity.
  - unfold extractLinks. destruct content as [|c s]; [reflexivity|].
    rewrite forallb_forall. intros t Ht. apply in_map_iff in Ht.
    destruct Ht as [m [<- _]]. apply str_eqb_eq.
    unfold link_target. destruct (includes _ _); apply trim_idem.
Qed.

(** ** The links of the player *)

(** The target that [StoryPlayer.play] writes into the [data-target]
    attribute of a link holds no double quote: a target cannot end the
    attribute. *)
Theorem play_link_target_quoted (inner : str) :
  exists target display,
    Playable.play_link inner
    = litq "<span class=`story-link` data-target=`" ++ target ++
      litq "`>" ++ display ++ lit "</span>" /\
    existsb (N.eqb 34) target = false.
Proof.
  unfold Playable.play_link.
  destruct (if includes (lit "-&gt;") inner then _ else _)
    as [display target].
  exists (replace (Lit_ dq) (fun _ => lit "&quot;") target), display.
  split; [reflexivity|].
  change (Lit_ dq) with (Lit_ [34]). rewrite replace_char.
  induction target as [|c t IH]; [reflexivity|].
  cbn [flat_map]. rewrite existsb_app, IH, orb_false_r.
  destruct (N.eqb_spec 34 c) as [<-|Hne]; [reflexivity|].
  cbn [existsb]. apply N.eqb_neq in Hne. rewrite Hne. reflexivity.
Qed.

(** ** From the exports to the import *)

Lemma toLowerCase_app a b :
  toLowerCase (a ++ b) = toLowerCase a ++ toLowerCase b.
Proof. unfold toLowerCase. apply map_app. Qed.

(** The extension of a name that ends with a dot and [ext], when [ext]
    is in lower case and holds no dot. *)
Lemma file_ext_suffix name ext :
  includes (lit ".") ext = false -> toLowerCase ext = ext ->
  file_ext (name ++ lit "." ++ ext) = ext.
Proof.
  intros Hdot Hlow. unfold file_ext.
  rewrite !toLowerCase_app, Hlow.
  change (toLowerCase (lit ".")) with [46]. change (lit ".") with [46] in *.
  cbn [app]. apply split_last_1. exact Hdot.
Qed.

Lemma parseJson_story_text rand story t :
  story_ok story = true ->
  JSON.parse t = Some (story_value story) ->
  parseJson rand t = Some (story_value story).
Proof.
  intros Hok Ep. unfold parseJson. rewrite Ep.
  destruct (story_ok_parts story Hok)
    as [Ht [Hi [_ [_ [_ [_ [_ Hz]]]]]]].
  pose proof (start_not_empty story Hok) as Hs.
  change (getp (story_value story) "title") with (Some (VStr (s_title story))).
  change (getp (story_value story) "passages")
    with (Some (passages_value (s_passages story))).
  cbv iota.
  assert (Etr : truthy (VStr (s_title story)) = true)
    by (destruct (s_title story); [congruence | reflexivity]).
  rewrite Etr. cbn [negb orb truthy passages_value]. cbv iota.
  unfold story_value. f_equal. f_equal.
  repeat f_equal; unfold getp_or.
  - change (getp _ "startPassage") with (Some (VStr (s_startPassage story))).
    apply or_else_nonempty; assumption.
  - change (getp _ "ifid") with (Some (VStr (s_ifid story))).
    apply or_else_nonempty; assumption.
  - change (getp _ "format") with (Some (VStr (s_format story))).
    apply or_else_str.
  - change (getp _ "formatVersion") with (Some (VStr (s_formatVersion story))).
    apply or_else_str.
  - change (getp _ "zoom") with (Some (VNum (s_zoom story))).
    unfold or_else. cbn [truthy]. rewrite Hz. reflexivity.
  - change (getp _ "tags") with (Some (VStr (s_tags story))).
    apply or_else_str.
  - change (getp _ "stylesheet") with (Some (VStr (s_stylesheet story))).
    apply or_else_str.
  - change (getp _ "javascript") with (Some (VStr (s_javascript story))).
    apply or_else_str.
Qed.

(** The file that [exportAsJson] hands to the download is read back by
    [parseFile] as the same story, under the name that the export gave
    it: whatever the title, dots and capital letters in it included,
    the name ends with the extension that sends the file to the JSON
    parser. *)
Theorem exported_json_imports
  (parseTwine : str -> option value) (rand : nat -> N) (story : Story) :
  story_ok story = true ->
  exists d,
    exportAsJson story = Some d /\
    parseFile parseTwine rand (d_content d) (d_filename d)
    = Some (story_value story).
Proof.
  intros Hok.
  destruct (json_roundtrip _ (wf_story story Hok)) as [t [Es Ep]].
  unfold exportAsJson. rewrite Es. eexists. split; [reflexivity|].
  cbn [d_content d_filename]. unfold parseFile.
  change (lit ".json") with (lit "." ++ lit "json").
  rewrite file_ext_suffix by reflexivity.
  change (Str.eqb (lit "json") (lit "json")) with true. cbv iota.
  apply parseJson_story_text; assumption.
Qed.

Lemma exported_json_imports_witness :
  exists d,
    exportAsJson cave_story = Some d /\
    parseFile (fun _ => None) (fun _ => 0) (d_content d) (d_filename d)
    = Some (story_value cave_story).
Proof.
  apply (exported_json_imports (fun _ => None) (fun _ => 0) cave_story).
  vm_compute. reflexivity.
Defined.

(** The names that the exports give to their files send each file to
    the parser of its format, whatever the title of the story and
    whatever the content: [.twee] to [parseTwee], and [.html] to
    [parseTwine]. *)
Theorem exported_names_dispatch
  (parseTwine : str -> option value) (rand rand' : nat -> N)
  (story : Story) (content : str) :
  parseFile parseTwine rand content (d_filename (exportAsTwee rand' story))
  = parseTwee rand content /\
  parseFile parseTwine rand content
    (d_filename (Archive.exportAsTwineArchive rand' story))
  = parseTwine content /\
  parseFile parseTwine rand content (d_filename (exportAsHtml story))
  = parseTwine content.
Proof.
  unfold parseFile. cbn [d_filename exportAsTwee exportAsHtml
                          Archive.exportAsTwineArchive].
  change (lit ".twee") with (lit "." ++ lit "twee").
  change (lit ".html") with (lit "." ++ lit "html").
  rewrite !file_ext_suffix by reflexivity.
  split; [reflexivity|].
  change (Str.eqb (lit "html") (lit "json")) with false.
  cbn [orb]. cbv iota.
  change (Str.eqb (lit "html") (lit "twee") || Str.eqb (lit "html") (lit "tw"))
    with false.
  change (Str.eqb (lit "html") (lit "html") || Str.eqb (lit "html") (lit "htm"))
    with true. cbv iota.
  destruct (parseTwine content); split; reflexivity.
Qed.

(** ** Reading back what generateTwee writes *)

(** *** Integers *)

Lemma parseInt_dec n : parseInt (Num.dec_str n) = Some (Z.of_N n).
Proof.
  unfold Num.dec_str.
  destruct (N.eq_dec n 0) as [->|Hnz]; [reflexivity|].
  destruct (to_digits_spec n) as [d [r [E [Hd [Hv Hd0]]]]].
  specialize (Hd0 Hnz). rewrite E.
  pose proof (take_digits_dchars (d :: r) [] Hd eq_refl) as Ht.
  rewrite app_nil_r in Ht.
  cbn [all_digits forallb] in Hd. apply andb_true_iff in Hd.
  destruct Hd as [Hd9 _]. apply N.leb_le in Hd9.
  assert (Hcases : d = 1 \/ d = 2 \/ d = 3 \/ d = 4 \/ d = 5 \/ d = 6 \/
                   d = 7 \/ d = 8 \/ d = 9) by lia.
  unfold parseInt.
  destruct Hcases as [->|[->|[->|[->|[->|[->|[->|[->| ->]]]]]]]];
    cbn [Num.dchars List.map trimStart is_ws N.add N.eqb N.leb orb andb
         Pos.eqb Pos.add Pos.succ N.compare Pos.compare Pos.compare_cont]
      in Ht |- *;
    rewrite Ht; cbn [fst]; rewrite Hv; reflexivity.
Qed.

Lemma parseInt_neg_dec n :
  n <> 0 -> parseInt (45 :: Num.dec_str n) = Some (- Z.of_N n)%Z.
Proof.
  intros Hnz. unfold Num.dec_str.
  destruct (to_digits_spec n) as [d [r [E [Hd [Hv Hd0]]]]].
  specialize (Hd0 Hnz). rewrite E.
  pose proof (take_digits_dchars (d :: r) [] Hd eq_refl) as Ht.
  rewrite app_nil_r in Ht.
  cbn [all_digits forallb] in Hd. apply andb_true_iff in Hd.
  destruct Hd as [Hd9 _]. apply N.leb_le in Hd9.
  assert (Hcases : d = 1 \/ d = 2 \/ d = 3 \/ d = 4 \/ d = 5 \/ d = 6 \/
                   d = 7 \/ d = 8 \/ d = 9) by lia.
  unfold parseInt.
  destruct Hcases as [->|[->|[->|[->|[->|[->|[->|[->| ->]]]]]]]];
    cbn [Num.dchars List.map trimStart is_ws N.add N.eqb N.leb orb andb
         Pos.eqb Pos.add Pos.succ N.compare Pos.compare Pos.compare_cont]
      in Ht |- *;
    rewrite Ht; cbn [fst]; rewrite Hv; reflexivity.
Qed.

Lemma parseInt_int_text z : small z = true -> parseInt (int_text z) = Some z.
Proof.
  unfold small. intros Hz. apply Z.ltb_lt in Hz.
  rewrite (int_text_decimal z Hz).
  destruct (Z.ltb_spec z 0) as [Hneg|Hpos].
  - cbn [app lit List.map list_ascii_of_string].
    change (N_of_ascii "-") with 45.
    rewrite parseInt_neg_dec by lia. f_equal.
    rewrite N2Z.inj_abs_N. lia.
  - cbn [app]. rewrite parseInt_dec. f_equal.
    rewrite N2Z.inj_abs_N. lia.
Qed.

Lemma int_or_int_text z d :
  small z = true -> Twee.int_or (Some (int_text z)) d = nonzero_or z d.
Proof.
  intros Hz. unfold Twee.int_or, nonzero_or.
  rewrite (parseInt_int_text z Hz). reflexivity.
Qed.

(** *** The metadata *)

Lemma dchars_digits l :
  all_digits l = true -> forallb Num.is_digit (Num.dchars l) = true.
Proof.
  induction l as [|d l IH]; [reflexivity|].
  cbn [all_digits forallb Num.dchars List.map]. intros H.
  apply andb_true_iff in H. destruct H as [Hd Hl].
  rewrite (is_digit_dchar d Hd). apply IH. exact Hl.
Qed.

Lemma dec_str_digits n : forallb Num.is_digit (Num.dec_str n) = true.
Proof.
  unfold Num.dec_str.
  destruct (to_digits_spec n) as [d [r [E [Hd _]]]]. rewrite E.
  apply dchars_digits. exact Hd.
Qed.

Lemma forallb_weaken {A} (f g : A -> bool) l :
  (forall x, f x = true -> g x = true) ->
  forallb f l = true -> forallb g l = true.
Proof.
  intros Hfg H. rewrite forallb_forall in *. intros x Hx.
  apply Hfg, H, Hx.
Qed.

Lemma digit_pair_char c : Num.is_digit c = true -> pair_char c = true.
Proof. intros H. unfold pair_char. rewrite H. reflexivity. Qed.

Lemma int_text_chars z :
  small z = true ->
  forallb (fun c => Num.is_digit c || (c =? 45)) (int_text z) = true.
Proof.
  unfold small. intros Hz. apply Z.ltb_lt in Hz.
  rewrite (int_text_decimal z Hz), forallb_app.
  apply andb_true_iff. split.
  - destruct (z <? 0)%Z; reflexivity.
  - apply (forallb_weaken Num.is_digit); [|apply dec_str_digits].
    intros c H. rewrite H. reflexivity.
Qed.

Lemma int_text_not_nil z : small z = true -> int_text z <> [].
Proof.
  unfold small. intros Hz. apply Z.ltb_lt in Hz.
  rewrite (int_text_decimal z Hz). unfold Num.dec_str.
  destruct (to_digits_spec (Z.abs_N z)) as [d [r [E _]]]. rewrite E.
  destruct (z <? 0)%Z; discriminate.
Qed.

Lemma int_text_no_comma z :
  small z = true -> includes [44] (int_text z) = false.
Proof.
  intros Hz. rewrite includes_single. apply existsb_false_In.
  intros c Hc. pose proof (int_text_chars z Hz) as H.
  rewrite forallb_forall in H. specialize (H c Hc).
  destruct (N.eqb_spec 44 c) as [<-|]; [discriminate | reflexivity].
Qed.

Lemma int_pair_chars a b :
  small a = true -> small b = true ->
  forallb pair_char (int_text a ++ lit "," ++ int_text b) = true.
Proof.
  intros Ha Hb. rewrite !forallb_app.
  assert (H : forall z, small z = true ->
                        forallb pair_char (int_text z) = true).
  { intros z Hz.
    apply (forallb_weaken (fun c => Num.is_digit c || (c =? 45)));
      [|apply int_text_chars; exact Hz].
    intros c Hc. unfold pair_char. rewrite Hc. reflexivity. }
  rewrite (H a Ha), (H b Hb). reflexivity.
Qed.

Lemma pair_char_cases c :
  pair_char c = true -> 48 <= c <= 57 \/ c = 45 \/ c = 44.
Proof.
  unfold pair_char, Num.is_digit. intros H.
  apply orb_true_iff in H. destruct H as [H|H].
  - apply orb_true_iff in H. destruct H as [H|H].
    + apply andb_true_iff in H. destruct H as [H1 H2].
      apply N.leb_le in H1, H2. lia.
    + apply N.eqb_eq in H. lia.
  - apply N.eqb_eq in H. lia.
Qed.

Lemma pair_char_plain c : pair_char c = true -> json_plain c = true.
Proof.
  intros H. pose proof (pair_char_cases c H) as Hc. unfold json_plain.
  repeat (apply andb_true_iff; split).
  - apply N.leb_le. lia.
  - apply negb_true_iff, N.eqb_neq. lia.
  - apply negb_true_iff, N.eqb_neq. lia.
  - apply N.ltb_lt. lia.
Qed.

Lemma escape_plain s :
  forallb json_plain s = true -> JSON.escape false s = s.
Proof.
  induction s as [|c s IH]; [reflexivity|].
  cbn [forallb]. intros H. apply andb_true_iff in H. destruct H as [Hc Hs].
  unfold json_plain in Hc.
  repeat (apply andb_true_iff in Hc; destruct Hc as [Hc ?]).
  repeat match goal with
         | E : negb _ = true |- _ => apply negb_true_iff in E
         end.
  match goal with E : (c <? 55296) = true |- _ => apply N.ltb_lt in E end.
  apply N.leb_le in Hc.
  cbn [JSON.escape]. unfold JSON.is_high, JSON.is_low.
  replace (55296 <=? c) with false by (symmetry; apply N.leb_gt; lia).
  replace (56320 <=? c) with false by (symmetry; apply N.leb_gt; lia).
  cbn [andb orb]. unfold JSON.esc1.
  match goal with E : (c =? 34) = false |- _ => rewrite E end.
  match goal with E : (c =? 92) = false |- _ => rewrite E end.
  replace (c =? 8) with false by (symmetry; apply N.eqb_neq; lia).
  replace (c =? 12) with false by (symmetry; apply N.eqb_neq; lia).
  replace (c =? 10) with false by (symmetry; apply N.eqb_neq; lia).
  replace (c =? 13) with false by (symmetry; apply N.eqb_neq; lia).
  replace (c =? 9) with false by (symmetry; apply N.eqb_neq; lia).
  replace (c <? 32) with false by (symmetry; apply N.ltb_ge; lia).
  cbn [app]. rewrite (IH Hs). reflexivity.
Qed.

Lemma quote_pair a b :
  small a = true -> small b = true ->
  JSON.quote (int_text a ++ lit "," ++ int_text b)
  = dq ++ (int_text a ++ lit "," ++ int_text b) ++ dq.
Proof.
  intros Ha Hb. unfold JSON.quote. rewrite escape_plain; [reflexivity|].
  apply (forallb_weaken pair_char); [exact pair_char_plain|].
  apply int_pair_chars; assumption.
Qed.

Lemma metadata_text x y w h :
  small x = true -> small y = true -> small w = true -> small h = true ->
  JSON.stringify (metadata_value x y w h) = Some (twee_metadata x y w h).
Proof.
  intros Hx Hy Hw Hh. unfold metadata_value. rewrite stringify_obj.
  cbn [compact_object_items JSON.stringify].
  rewrite (quote_pair x y Hx Hy), (quote_pair w h Hw Hh).
  unfold twee_metadata. f_equal. cbn [join].
  change (JSON.quote (lit "position")) with (litq "`position`").
  change (JSON.quote (lit "size")) with (litq "`size`").
  rewrite <- !app_assoc. reflexivity.
Qed.

Lemma metadata_parses x y w h :
  small x = true -> small y = true -> small w = true -> small h = true ->
  JSON.parse (twee_metadata x y w h) = Some (metadata_value x y w h).
Proof.
  intros Hx Hy Hw Hh.
  destruct (compact_roundtrip (metadata_value x y w h) eq_refl)
    as [t [Es Ep]].
  rewrite (metadata_text x y w h Hx Hy Hw Hh) in Es. inversion Es. subst t.
  exact Ep.
Qed.

Lemma split_pair a b :
  small a = true ->  small b = true ->
  split (lit ",") (int_text a ++ lit "," ++ int_text b)
  = [int_text a; int_text b].
Proof.
  intros Ha Hb. change (lit ",") with [44].
  change (int_text a ++ [44] ++ int_text b)
    with (int_text a ++ 44 :: int_text b).
  rewrite (split_cut [44] _ (int_text a) (int_text b)
             ltac:(discriminate)
             (cut_first_1 _ _ _ (int_text_no_comma a Ha))).
  rewrite (split_none _ _ (cut_none_includes _ _ (int_text_no_comma b Hb))).
  reflexivity.
Qed.

(** The metadata that [generateTwee] writes for four integers is read
    back by the metadata reader of [parseTwee] as the same integers,
    but for an integer that is zero, which is read as the default. *)
Lemma read_metadata_back x y w h dx dy dw dh :
  small x = true -> small y = true -> small w = true -> small h = true ->
  Twee.read_metadata (twee_metadata x y w h) dx dy dw dh
  = (nonzero_or x dx, nonzero_or y dy, nonzero_or w dw, nonzero_or h dh).
Proof.
  intros Hx Hy Hw Hh.
  rewrite (read_metadata_texts _ _ _ _ dx dy dw dh
             (metadata_parses x y w h Hx Hy Hw Hh) eq_refl eq_refl).
  rewrite (split_pair x y Hx Hy), (split_pair w h Hw Hh).
  cbn [nth_error]. rewrite !int_or_int_text by assumption. reflexivity.
Qed.

(** *** The tags *)

Lemma plain_tag_no_space t : plain_tag t = true -> includes [32] t = false.
Proof.
  unfold plain_tag. intros H. apply andb_true_iff in H. destruct H as [_ H].
  rewrite includes_single. apply existsb_false_In. intros c Hc.
  rewrite forallb_forall in H. specialize (H c Hc).
  apply andb_true_iff in H. destruct H as [H _].
  apply andb_true_iff in H. destruct H as [H _].
  apply negb_true_iff in H. rewrite N.eqb_sym. exact H.
Qed.

Lemma split_join_tags tags :
  tags <> [] -> forallb plain_tag tags = true ->
  split (lit " ") (join (lit " ") tags) = tags.
Proof.
  change (lit " ") with [32].
  induction tags as [|t tags IH]; [congruence|]. intros _ H.
  cbn [forallb] in H. apply andb_true_iff in H. destruct H as [Ht Hs].
  pose proof (plain_tag_no_space t Ht) as Hns.
  destruct tags as [|t2 tags].
  - cbn [join]. apply split_none. apply cut_none_includes. exact Hns.
  - rewrite join_cons2.
    change (t ++ [32] ++ join [32] (t2 :: tags))
      with (t ++ 32 :: join [32] (t2 :: tags)).
    rewrite (split_cut [32] _ t (join [32] (t2 :: tags))
               ltac:(discriminate) (cut_first_1 _ _ _ Hns)).
    rewrite IH by (discriminate || exact Hs). reflexivity.
Qed.

Lemma filter_plain_tags tags :
  forallb plain_tag tags = true -> filter Twee.nonempty tags = tags.
Proof.
  induction tags as [|t tags IH]; [reflexivity|].
  cbn [forallb filter]. intros H. apply andb_true_iff in H.
  destruct H as [Ht Hs]. unfold plain_tag in Ht.
  apply andb_true_iff in Ht. destruct Ht as [Ht _]. rewrite Ht.
  rewrite (IH Hs). reflexivity.
Qed.

Lemma join_tags_chars tags :
  forallb plain_tag tags = true ->
  forallb (noneof "]") (join (lit " ") tags) = true.
Proof.
  induction tags as [|t tags IH]; [reflexivity|].
  cbn [forallb]. intros H. apply andb_true_iff in H. destruct H as [Ht Hs].
  assert (Htc : forallb (noneof "]") t = true).
  { unfold plain_tag in Ht. apply andb_true_iff in Ht.
    destruct Ht as [_ Ht].
    apply (forallb_weaken
             (fun c => negb (c =? 32) && negb (c =? 93) && negb (c =? 10)));
      [|exact Ht].
    intros c Hc. apply andb_true_iff in Hc. destruct Hc as [Hc _].
    apply andb_true_iff in Hc. destruct Hc as [_ Hc].
    unfold noneof. change (lit "]") with [93]. cbn [existsb].
    rewrite orb_false_r. exact Hc. }
  destruct tags as [|t2 tags]; [exact Htc|].
  rewrite join_cons2, !forallb_app, Htc, (IH Hs). reflexivity.
Qed.

Lemma join_tags_no_nl tags :
  forallb plain_tag tags = true ->
  forallb (fun c => negb (c =? 10)) (join (lit " ") tags) = true.
Proof.
  induction tags as [|t tags IH]; [reflexivity|].
  cbn [forallb]. intros H. apply andb_true_iff in H. destruct H as [Ht Hs].
  assert (Htc : forallb (fun c => negb (c =? 10)) t = true).
  { unfold plain_tag in Ht. apply andb_true_iff in Ht.
    destruct Ht as [_ Ht].
    apply (forallb_weaken
             (fun c => negb (c =? 32) && negb (c =? 93) && negb (c =? 10)));
      [|exact Ht].
    intros c Hc. apply andb_true_iff in Hc. destruct Hc as [_ Hc]. exact Hc. }
  destruct tags as [|t2 tags]; [exact Htc|].
  rewrite join_cons2, !forallb_app, Htc, (IH Hs). reflexivity.
Qed.

Lemma join_tags_not_nil tags :
  tags <> [] -> forallb plain_tag tags = true -> join (lit " ") tags <> [].
Proof.
  destruct tags as [|t tags]; [congruence|]. intros _ H.
  cbn [forallb] in H. apply andb_true_iff in H. destruct H as [Ht _].
  unfold plain_tag in Ht. apply andb_true_iff in Ht. destruct Ht as [Ht _].
  destruct t as [|c t]; [discriminate|].
  destruct tags; discriminate.
Qed.

(** *** The matcher on a header line *)

Lemma star_greedy_stop {R} (p : N -> bool) (k : str -> option R) r a b :
  forallb p a = true ->
  match b with [] => True | c :: _ => p c = false end ->
  k b = Some r ->
  star_greedy p (a ++ b) k = Some r.
Proof.
  intros Ha Hb Hk. induction a as [|x a IH].
  - cbn [app]. destruct b as [|c b]; cbn [star_greedy]; [exact Hk|].
    rewrite Hb. exact Hk.
  - cbn [forallb] in Ha. apply andb_true_iff in Ha. destruct Ha as [Hx Ha].
    cbn [app star_greedy]. rewrite Hx, (IH Ha). reflexivity.
Qed.

Lemma star_greedy_last {R} (p : N -> bool) (k : str -> option R) r a x :
  forallb p a = true -> p x = true ->
  k [] = None -> k [x] = Some r ->
  star_greedy p (a ++ [x]) k = Some r.
Proof.
  intros Ha Hx Hnil Hk. induction a as [|y a IH].
  - cbn [app star_greedy]. rewrite Hx, Hnil. exact Hk.
  - cbn [forallb] in Ha. apply andb_true_iff in Ha. destruct Ha as [Hy Ha].
    cbn [app star_greedy]. rewrite Hy, (IH Ha). reflexivity.
Qed.

Lemma star_lazy_skip {R} (p : N -> bool) (k : str -> option R) b :
  forall a,
    forallb p a = true ->
    (forall a1 a2, a = a1 ++ a2 -> a2 <> [] -> k (a2 ++ b) = None) ->
    star_lazy p (a ++ b) k = star_lazy p b k.
Proof.
  induction a as [|x a IH]; intros Ha Hk; [reflexivity|].
  cbn [forallb] in Ha. apply andb_true_iff in Ha. destruct Ha as [Hx Ha].
  pose proof (Hk [] (x :: a) eq_refl ltac:(discriminate)) as H0.
  cbn [app] in H0. cbn [app star_lazy]. rewrite H0, Hx.
  apply IH; [exact Ha|].
  intros a1 a2 E Hne. apply (Hk (x :: a1) a2); [rewrite E; reflexivity|].
  exact Hne.
Qed.

Lemma star_lazy_here {R} (p : N -> bool) (k : str -> option R) b r :
  k b = Some r -> star_lazy p b k = Some r.
Proof. intros H. destruct b; cbn [star_lazy]; rewrite H; reflexivity. Qed.

Lemma blocked_head s :
  blocked s -> exists h t, s = h :: t /\ h <> 91 /\ h <> 123.
Proof.
  intros [ws [c [rest [-> [Hws [Hc [H1 H2]]]]]]].
  destruct ws as [|w ws].
  - exists c, rest. repeat split; assumption.
  - exists w, (ws ++ c :: rest). split; [reflexivity|].
    cbn [forallb] in Hws. apply andb_true_iff in Hws.
    destruct Hws as [Hw _]. split; intros ->; discriminate.
Qed.

Lemma blocked_tail h t : blocked (h :: t) -> is_ws h = true -> blocked t.
Proof.
  intros [ws [c [rest [E [Hws [Hc [H1 H2]]]]]]] Hh.
  destruct ws as [|w ws].
  - cbn [app] in E. inversion E; subst. congruence.
  - cbn [app] in E. inversion E; subst.
    cbn [forallb] in Hws. apply andb_true_iff in Hws.
    exists ws, c, rest. repeat split; tauto.
Qed.

Lemma star_greedy_blocked {R} (k : str -> option R) :
  (forall s, blocked s -> k s = None) ->
  forall s, blocked s -> star_greedy is_ws s k = None.
Proof.
  intros Hk. induction s as [|h t IH]; intros Hb.
  - cbn [star_greedy]. apply Hk. exact Hb.
  - cbn [star_greedy]. destruct (is_ws h) eqn:Eh.
    + rewrite (IH (blocked_tail _ _ Hb Eh)). apply Hk. exact Hb.
    + apply Hk. exact Hb.
Qed.

(** The pattern after the name fails on a text that is blocked. *)
Lemma header_tail_blocked {R} s cs (k : str -> caps -> option R) :
  blocked s -> run header_tail s cs k = None.
Proof.
  intros Hb. unfold header_tail. cbn [Cats run].
  apply star_greedy_blocked; [|exact Hb]. clear s Hb. intros s Hb.
  destruct (blocked_head s Hb) as [h [t [-> [H91 H123]]]].
  cbn [Lit Lit_ lit List.map list_ascii_of_string run].
  change (N_of_ascii "[") with 91. change (N_of_ascii "{") with 123.
  apply N.eqb_neq in H91, H123.
  rewrite (N.eqb_sym 91 h), H91.
  apply star_greedy_blocked; [|exact Hb]. clear h t Hb H91 H123. intros s Hb.
  destruct (blocked_head s Hb) as [h [t [-> [H91 H123]]]].
  apply N.eqb_neq in H91, H123.
  rewrite (N.eqb_sym 123 h), H123.
  apply star_greedy_blocked; [|exact Hb]. clear h t Hb H91 H123. intros s Hb.
  destruct (blocked_head s Hb) as [h [t [-> _]]]. reflexivity.
Qed.

Lemma firstn_prefix (a b : str) :
  firstn (List.length (a ++ b) - List.length b) (a ++ b) = a.
Proof.
  rewrite length_app.
  replace (List.length a + List.length b - List.length b)%nat
    with (List.length a + 0)%nat by lia.
  rewrite firstn_app_2. cbn [firstn]. apply app_nil_r.
Qed.

Lemma pair_char_dot c : pair_char c = true -> dot c = true.
Proof.
  intros H. pose proof (pair_char_cases c H) as Hc.
  unfold dot. apply negb_true_iff.
  repeat (apply orb_false_iff; split); apply N.eqb_neq; lia.
Qed.

Lemma metadata_shape x y w h :
  small x = true -> small y = true -> small w = true -> small h = true ->
  exists body,
    twee_metadata x y w h = 123 :: body ++ [125] /\
    forallb dot body = true.
Proof.
  intros Hx Hy Hw Hh.
  exists (litq "`position`:`" ++ (int_text x ++ lit "," ++ int_text y) ++
          litq "`,`size`:`" ++ (int_text w ++ lit "," ++ int_text h) ++ [34]).
  split.
  - unfold twee_metadata.
    change (litq "{`position`:`") with (123 :: litq "`position`:`").
    change (litq "`}") with ([34] ++ [125]).
    cbn [app]. rewrite <- !app_assoc. reflexivity.
  - rewrite forallb_app. apply andb_true_iff. split; [reflexivity|].
    rewrite forallb_app. apply andb_true_iff. split;
      [exact (forallb_weaken _ _ _ pair_char_dot (int_pair_chars x y Hx Hy))|].
    rewrite forallb_app. apply andb_true_iff. split; [reflexivity|].
    rewrite forallb_app. apply andb_true_iff. split;
      [exact (forallb_weaken _ _ _ pair_char_dot (int_pair_chars w h Hw Hh))|].
    reflexivity.
Qed.

(** The metadata and the end of the line. *)
Lemma run_metadata {R} body cs (k : str -> caps -> option R) r :
  forallb dot body = true ->
  k [] ((3%nat, 123 :: body ++ [125]) :: cs) = Some r ->
  run (Cats [Opt (Grp 3 (Cats [Lit "{"; Star true dot; Lit "}"]));
             Star true is_ws; Eol])
    (123 :: body ++ [125]) cs k = Some r.
Proof.
  intros Hd Hk.
  cbn [Cats Lit Lit_ lit List.map list_ascii_of_string run].
  change (N_of_ascii "{") with 123. change (N_of_ascii "}") with 125.
  change (123 =? 123) with true. cbv iota.
  rewrite (star_greedy_last dot _ r body 125 Hd eq_refl); [reflexivity| |].
  - reflexivity.
  - change (125 =? 125) with true. cbv iota. cbn [star_greedy run].
    cbn [List.length]. rewrite Nat.sub_0_r.
    change (S (List.length (body ++ [125])))
      with (List.length (123 :: body ++ [125])).
    rewrite firstn_all. exact Hk.
Qed.

Lemma run_ws_metadata {R} ws body cs (k : str -> caps -> option R) r :
  forallb is_ws ws = true -> forallb dot body = true ->
  k [] ((3%nat, 123 :: body ++ [125]) :: cs) = Some r ->
  run (Cats [Star true is_ws;
             Opt (Grp 3 (Cats [Lit "{"; Star true dot; Lit "}"]));
             Star true is_ws; Eol])
    (ws ++ 123 :: body ++ [125]) cs k = Some r.
Proof.
  intros Hws Hd Hk.
  change (star_greedy is_ws (ws ++ 123 :: body ++ [125])
            (fun s1 =>
               run (Cats [Opt (Grp 3 (Cats [Lit "{"; Star true dot; Lit "}"]));
                          Star true is_ws; Eol]) s1 cs k) = Some r).
  apply star_greedy_stop; [exact Hws | reflexivity|].
  apply run_metadata; assumption.
Qed.

Lemma run_brackets {R} tt rest cs (K : str -> caps -> option R) r :
  forallb (noneof "]") tt = true ->
  K rest ((2%nat, tt) :: cs) = Some r ->
  run (Cats [Lit "["; Grp 2 (Star true (noneof "]")); Lit "]"])
    (91 :: tt ++ 93 :: rest) cs K = Some r.
Proof.
  intros Ht HK.
  cbn [Cats Lit Lit_ lit List.map list_ascii_of_string run].
  change (N_of_ascii "[") with 91. change (N_of_ascii "]") with 93.
  change (91 =? 91) with true. cbv iota.
  apply star_greedy_stop; [exact Ht | reflexivity|].
  change (93 =? 93) with true. cbv iota.
  rewrite firstn_prefix. exact HK.
Qed.

Lemma run_header_tail_plain {R} body cs (k : str -> caps -> option R) r :
  forallb dot body = true ->
  k [] ((3%nat, 123 :: body ++ [125]) :: cs) = Some r ->
  run header_tail (32 :: 123 :: body ++ [125]) cs k = Some r.
Proof.
  intros Hd Hk. unfold header_tail.
  change (star_greedy is_ws ([32] ++ 123 :: body ++ [125])
            (fun s1 =>
               run (Cats [Opt (Cats [Lit "["; Grp 2 (Star true (noneof "]"));
                                     Lit "]"]);
                          Star true is_ws;
                          Opt (Grp 3 (Cats [Lit "{"; Star true dot; Lit "}"]));
                          Star true is_ws; Eol]) s1 cs k) = Some r).
  apply star_greedy_stop; [reflexivity | reflexivity|].
  change (match run (Cats [Lit "["; Grp 2 (Star true (noneof "]")); Lit "]"])
                  (123 :: body ++ [125]) cs
                  (fun s2 c2 =>
                     run (Cats [Star true is_ws;
                                Opt (Grp 3 (Cats [Lit "{"; Star true dot;
                                                  Lit "}"]));
                                Star true is_ws; Eol]) s2 c2 k) with
          | Some r0 => Some r0
          | None =>
              run (Cats [Star true is_ws;
                         Opt (Grp 3 (Cats [Lit "{"; Star true dot; Lit "}"]));
                         Star true is_ws; Eol]) (123 :: body ++ [125]) cs k
          end = Some r).
  replace (run (Cats [Lit "["; Grp 2 (Star true (noneof "]")); Lit "]"])
             (123 :: body ++ [125]) cs _) with (@None R) by reflexivity.
  apply (run_ws_metadata []); [reflexivity | exact Hd | exact Hk].
Qed.

Lemma run_header_tail_tags {R} tt body cs (k : str -> caps -> option R) r :
  forallb (noneof "]") tt = true -> forallb dot body = true ->
  k [] ((3%nat, 123 :: body ++ [125]) :: (2%nat, tt) :: cs) = Some r ->
  run header_tail (32 :: 91 :: tt ++ 93 :: 32 :: 123 :: body ++ [125]) cs k
  = Some r.
Proof.
  intros Ht Hd Hk. unfold header_tail.
  change (star_greedy is_ws
            ([32] ++ 91 :: tt ++ 93 :: 32 :: 123 :: body ++ [125])
            (fun s1 =>
               run (Cats [Opt (Cats [Lit "["; Grp 2 (Star true (noneof "]"));
                                     Lit "]"]);
                          Star true is_ws;
                          Opt (Grp 3 (Cats [Lit "{"; Star true dot; Lit "}"]));
                          Star true is_ws; Eol]) s1 cs k) = Some r).
  apply star_greedy_stop; [reflexivity | reflexivity|].
  change (match run (Cats [Lit "["; Grp 2 (Star true (noneof "]")); Lit "]"])
                  (91 :: tt ++ 93 :: 32 :: 123 :: body ++ [125]) cs
                  (fun s2 c2 =>
                     run (Cats [Star true is_ws;
                                Opt (Grp 3 (Cats [Lit "{"; Star true dot;
                                                  Lit "}"]));
                                Star true is_ws; Eol]) s2 c2 k) with
          | Some r0 => Some r0
          | None =>
              run (Cats [Star true is_ws;
                         Opt (Grp 3 (Cats [Lit "{"; Star true dot; Lit "}"]));
                         Star true is_ws; Eol])
                (91 :: tt ++ 93 :: 32 :: 123 :: body ++ [125]) cs k
          end = Some r).
  rewrite (run_brackets tt (32 :: 123 :: body ++ [125]) cs _ r Ht);
    [reflexivity|].
  apply (run_ws_metadata [32]); [reflexivity | exact Hd | exact Hk].
Qed.

(** *** The name *)

Lemma last_app_suffix (a1 a2 : str) d : a2 <> [] -> last (a1 ++ a2) d = last a2 d.
Proof.
  intros H. induction a1 as [|x a1 IH]; [reflexivity|].
  cbn [app]. destruct (a1 ++ a2) eqn:E.
  - destruct a1, a2; cbn in E; congruence.
  - change (last (x :: n :: l) d) with (last (n :: l) d). exact IH.
Qed.

Lemma suffix_blocked a2 rest :
  a2 <> [] ->
  forallb (fun c => dot c && negb (c =? 91) && negb (c =? 123)) a2 = true ->
  is_ws (last a2 32) = false ->
  blocked (a2 ++ rest).
Proof.
  induction a2 as [|c a2 IH]; [congruence|]. intros _ Hc Hl.
  cbn [forallb] in Hc. apply andb_true_iff in Hc. destruct Hc as [Hc Hs].
  apply andb_true_iff in Hc. destruct Hc as [Hc H123].
  apply andb_true_iff in Hc. destruct Hc as [_ H91].
  apply negb_true_iff, N.eqb_neq in H91, H123.
  destruct (is_ws c) eqn:Ec.
  - destruct a2 as [|c2 a2]; [cbn [last] in Hl; congruence|].
    destruct (IH ltac:(discriminate) Hs Hl)
      as [ws [x [r [E [Hws [Hx [Hx1 Hx2]]]]]]].
    exists (c :: ws), x, r. split.
    { change ((c :: c2 :: a2) ++ rest) with (c :: ((c2 :: a2) ++ rest)).
      rewrite E. reflexivity. }
    cbn [forallb]. rewrite Ec, Hws. repeat split; assumption.
  - exists [], c, (a2 ++ rest). repeat split; assumption.
Qed.

Lemma plain_name_trim n : plain_name n = true -> trim n = n.
Proof.
  unfold plain_name. intros H.
  apply andb_true_iff in H. destruct H as [H _].
  apply andb_true_iff in H. destruct H as [Hh Hl].
  destruct n as [|c n]; [discriminate|].
  apply negb_true_iff in Hh, Hl.
  unfold trim. rewrite (trimStart_keeps _ _ Hh).
  unfold trimEnd.
  assert (Hr : exists r, rev (c :: n) = last (c :: n) 32 :: r).
  { destruct (exists_last (l := c :: n) ltac:(discriminate)) as [l' [x E]].
    rewrite E, last_last, rev_app_distr. exists (rev l'). reflexivity. }
  destruct Hr as [r Hr]. rewrite Hr, (trimStart_keeps _ _ Hl), <- Hr.
  apply rev_involutive.
Qed.

(** The header pattern on the line [:: name], tags and metadata. *)
Lemma header_match_line name tail caps :
  plain_name name = true ->
  (forall (k : str -> Regex.caps -> option found) r,
      k [] (caps ++ [(1%nat, name)]) = Some r ->
      run header_tail tail [(1%nat, name)] k = Some r) ->
  exists m,
    Twee.headerMatch (lit ":: " ++ name ++ tail) = Some m /\
    m_caps m = caps ++ [(1%nat, name)].
Proof.
  intros Hn Htail. unfold Twee.headerMatch, match_here.
  set (line := lit ":: " ++ name ++ tail).
  set (kfin := fun (s1 : str) (cs : Regex.caps) =>
                 Some {| m_text := firstn (List.length line - List.length s1)
                                     line;
                         m_caps := cs; m_rest := s1 |}).
  exists {| m_text := firstn (List.length line - 0) line;
            m_caps := caps ++ [(1%nat, name)]; m_rest := [] |}.
  split; [|reflexivity].
  unfold plain_name in Hn.
  apply andb_true_iff in Hn. destruct Hn as [Hn Hchars].
  apply andb_true_iff in Hn. destruct Hn as [Hh Hl].
  destruct name as [|n0 name'] eqn:En; [discriminate|].
  apply negb_true_iff in Hh, Hl.
  pose proof Hchars as Hchars0. cbn [forallb] in Hchars0.
  apply andb_true_iff in Hchars0. destruct Hchars0 as [Hn0 Hrest].
  apply andb_true_iff in Hn0. destruct Hn0 as [Hn0 _].
  apply andb_true_iff in Hn0. destruct Hn0 as [Hdot0 _].
  unfold line at 1.
  change (lit ":: " ++ (n0 :: name') ++ tail)
    with (58 :: 58 :: ([32] ++ (n0 :: name' ++ tail))).
  change Twee.header
    with (Cat (Lit "::")
            (Cat (Star true is_ws)
               (Cat (Grp 1 (Plus false dot)) header_tail))).
  set (res := {| m_text := firstn (List.length line - 0) line;
                 m_caps := caps ++ [(1%nat, n0 :: name')];
                 m_rest := [] |}).
  change (star_greedy is_ws ([32] ++ n0 :: name' ++ tail)
            (fun s1 =>
               run (Cat (Grp 1 (Plus false dot)) header_tail) s1 [] kfin)
          = Some res).
  apply star_greedy_stop; [reflexivity | exact Hh|].
  change ((if dot n0
           then star_lazy dot (name' ++ tail)
                  (fun s1 =>
                     run header_tail s1
                       [(1%nat,
                         firstn (List.length (n0 :: name' ++ tail)
                                 - List.length s1) (n0 :: name' ++ tail))]
                       kfin)
           else None) = Some res).
  rewrite Hdot0.
  rewrite star_lazy_skip.
  - apply star_lazy_here.
    change (n0 :: name' ++ tail) with ((n0 :: name') ++ tail).
    rewrite firstn_prefix. apply Htail. reflexivity.
  - apply (forallb_weaken
             (fun c => dot c && negb (c =? 91) && negb (c =? 123)));
      [|exact Hrest].
    intros c Hc. apply andb_true_iff in Hc. destruct Hc as [Hc _].
    apply andb_true_iff in Hc. tauto.
  - intros a1 a2 E Hne. apply header_tail_blocked.
    apply suffix_blocked; [exact Hne | |].
    + rewrite E, forallb_app in Hrest. apply andb_true_iff in Hrest. tauto.
    + assert (El : last (n0 :: name') 32 = last a2 32).
      { rewrite E. change (n0 :: a1 ++ a2) with ((n0 :: a1) ++ a2).
        apply last_app_suffix. exact Hne. }
      rewrite <- El. exact Hl.
Qed.

Lemma nonzero_or_size v : nonzero_or (int_or_100 v) 100 = int_or_100 v.
Proof.
  unfold nonzero_or, int_or_100. destruct (v =? 0)%Z eqn:E; [reflexivity|].
  rewrite E. reflexivity.
Qed.

Lemma twee_block_header p :
  twee_block p = twee_header p ++ nl ++ p_content p ++ nl ++ nl.
Proof.
  unfold twee_block, twee_header, twee_tags, twee_position. cbv zeta.
  rewrite <- !app_assoc. reflexivity.
Qed.

(** *** Sizes that are integers *)

Lemma of_Z_is_zero w : Num.is_zero (Num.of_Z w) = (w =? 0)%Z.
Proof.
  destruct (Z.eq_dec w 0) as [->|H]; [reflexivity|].
  destruct (of_Z_digits w H) as [d [ys [k [_ [_ ->]]]]].
  symmetry. apply Z.eqb_neq. exact H.
Qed.

Lemma size_text_of_Z w : size_text (Num.of_Z w) = int_text (int_or_100 w).
Proof.
  unfold size_text, num_or, int_or_100, int_text. rewrite of_Z_is_zero.
  destruct (w =? 0)%Z; reflexivity.
Qed.

Lemma twee_position_integer p w h :
  p_width p = Num.of_Z w -> p_height p = Num.of_Z h ->
  twee_position p
  = twee_metadata (round_or_100 (p_x p)) (round_or_100 (p_y p))
      (int_or_100 w) (int_or_100 h).
Proof.
  intros Hw Hh. unfold twee_position, twee_metadata.
  rewrite Hw, Hh, !size_text_of_Z. reflexivity.
Qed.

Lemma small_or_100 w : small w = true -> small (int_or_100 w) = true.
Proof.
  unfold int_or_100. destruct (w =? 0)%Z; [reflexivity | tauto].
Qed.

(** *** The header is one line *)

Lemma no_char_includes a s :
  forallb (fun c => negb (c =? a)) s = true -> includes [a] s = false.
Proof.
  intros H. rewrite includes_single. apply existsb_false_In. intros c Hc.
  rewrite forallb_forall in H. specialize (H c Hc).
  apply negb_true_iff in H. rewrite N.eqb_sym. exact H.
Qed.

Lemma dot_no_nl c : dot c = true -> negb (c =? 10) = true.
Proof. unfold dot. destruct (c =? 10); [discriminate | reflexivity]. Qed.

Lemma twee_header_one_line p w h :
  plain_name (p_name p) = true ->
  forallb plain_tag (p_tags p) = true ->
  small (round_or_100 (p_x p)) = true ->
  small (round_or_100 (p_y p)) = true ->
  p_width p = Num.of_Z w -> p_height p = Num.of_Z h ->
  small w = true -> small h = true ->
  includes nl (twee_header p) = false.
Proof.
  intros Hn Ht Hx Hy Ew Eh Hw Hh. apply no_char_includes.
  unfold twee_header. rewrite (twee_position_integer p w h Ew Eh).
  destruct (metadata_shape _ _ _ _ Hx Hy (small_or_100 w Hw)
              (small_or_100 h Hh)) as [body [-> Hbody]].
  rewrite !forallb_app.
  apply andb_true_iff. split; [reflexivity|].
  apply andb_true_iff. split.
  { unfold plain_name in Hn. apply andb_true_iff in Hn.
    destruct Hn as [_ Hn].
    apply (forallb_weaken
             (fun c => dot c && negb (c =? 91) && negb (c =? 123)));
      [|exact Hn].
    intros c Hc. apply andb_true_iff in Hc. destruct Hc as [Hc _].
    apply andb_true_iff in Hc. destruct Hc as [Hc _].
    apply dot_no_nl. exact Hc. }
  apply andb_true_iff. split.
  { unfold twee_tags. destruct (p_tags p) as [|t ts] eqn:Et; [reflexivity|].
    rewrite !forallb_app, (join_tags_no_nl _ Ht). reflexivity. }
  apply andb_true_iff. split; [reflexivity|].
  cbn [forallb]. rewrite forallb_app.
  rewrite (forallb_weaken dot (fun c => negb (c =? 10)) body dot_no_nl
             Hbody).
  reflexivity.
Qed.

Lemma safe_small z : safe_integer z = true -> small z = true.
Proof.
  unfold safe_integer, small. intros H. apply Z.ltb_lt in H.
  apply Z.ltb_lt. assert (2 ^ 53 < 10 ^ 21)%Z by reflexivity. lia.
Qed.

(** [parseTwee] reads back the header line that [generateTwee] writes
    for a passage. The header is the first of the lines into which
    [parseTwee] cuts the block of the passage; the pattern of a header
    matches it; and the name, the tags and the coordinates that the
    loop takes from the match are those of the passage. This holds for
    a name with no white space at either end, no line break and no
    opening bracket or brace, for tags that are not empty and hold no
    space, no closing bracket and no line feed, for a position whose
    rounded coordinates are below [2^53], and for a width and a height
    that are integers below [2^53]: the integers that a number holds
    exactly. A coordinate that is written as
    zero is read as the grid position of the passage, which is the
    default, and a size that is zero is written and read as 100. *)
Theorem twee_header_read_back (p : Passage) (i : nat) (w h : Z) :
  plain_name (p_name p) = true ->
  forallb plain_tag (p_tags p) = true ->
  safe_integer (round_or_100 (p_x p)) = true ->
  safe_integer (round_or_100 (p_y p)) = true ->
  p_width p = Num.of_Z w -> p_height p = Num.of_Z h ->
  safe_integer w = true -> safe_integer h = true ->
  split nl (twee_block p)
  = twee_header p :: split nl (p_content p ++ nl ++ nl) /\
  exists m,
    Twee.headerMatch (twee_header p) = Some m /\
    Twee.header_name m = p_name p /\
    Twee.header_tags m = p_tags p /\
    Twee.header_coords i m
    = (nonzero_or (round_or_100 (p_x p)) (Twee.grid_x i),
       nonzero_or (round_or_100 (p_y p)) (Twee.grid_y i),
       int_or_100 w, int_or_100 h).
Proof.
  intros Hn Ht Hx Hy Ew Eh Hw0 Hh0.
  apply safe_small in Hx, Hy, Hw0, Hh0.
  split.
  { rewrite twee_block_header.
    apply (split_cut nl _ (twee_header p) (p_content p ++ nl ++ nl));
      [discriminate|].
    apply (cut_first_1 10 (twee_header p)).
    apply (twee_header_one_line p w h); assumption. }
  pose proof (small_or_100 w Hw0) as Hw.
  pose proof (small_or_100 h Hh0) as Hh.
  unfold twee_header. rewrite (twee_position_integer p w h Ew Eh).
  set (x := round_or_100 (p_x p)) in *.
  set (y := round_or_100 (p_y p)) in *.
  set (W := int_or_100 w) in *.
  set (H := int_or_100 h) in *.
  destruct (metadata_shape x y W H Hx Hy Hw Hh) as [body [EM Hbody]].
  assert (Hco : forall M,
            M = twee_metadata x y W H ->
            match M with
            | [] => (Twee.grid_x i, Twee.grid_y i, 100%Z, 100%Z)
            | _ :: _ =>
                Twee.read_metadata M (Twee.grid_x i) (Twee.grid_y i) 100 100
            end
            = (nonzero_or x (Twee.grid_x i), nonzero_or y (Twee.grid_y i),
               W, H)).
  { intros M ->. rewrite EM at 1.
    rewrite (read_metadata_back x y W H _ _ _ _ Hx Hy Hw Hh).
    unfold W, H. rewrite !nonzero_or_size. reflexivity. }
  unfold twee_tags.
  destruct (p_tags p) as [|t ts] eqn:Etags.
  - destruct (header_match_line (p_name p)
                (lit " " ++ twee_metadata x y W H)
                [(3%nat, twee_metadata x y W H)] Hn) as [m [Hm Hcaps]].
    { intros k r Hk. rewrite EM in Hk |- *.
      apply run_header_tail_plain; assumption. }
    exists m. cbn [app]. split; [exact Hm|].
    unfold Twee.header_name, Twee.header_tags, Twee.header_coords, group.
    rewrite Hcaps. cbn [app cap Nat.eqb].
    split; [apply plain_name_trim; exact Hn|]. split; [reflexivity|].
    apply (Hco _ eq_refl).
  - set (tt := join (lit " ") (t :: ts)).
    assert (Htt : forallb (noneof "]") tt = true)
      by (apply join_tags_chars; exact Ht).
    assert (Htt0 : tt <> [])
      by (apply (join_tags_not_nil (t :: ts)); [discriminate | exact Ht]).
    destruct (header_match_line (p_name p)
                ((lit " [" ++ tt ++ lit "]") ++ lit " " ++
                 twee_metadata x y W H)
                [(3%nat, twee_metadata x y W H); (2%nat, tt)] Hn)
      as [m [Hm Hcaps]].
    { intros k r Hk. rewrite EM in Hk |- *.
      change ((lit " [" ++ tt ++ lit "]") ++ lit " " ++ 123 :: body ++ [125])
        with (32 :: 91 :: ((tt ++ [93]) ++ 32 :: 123 :: body ++ [125])).
      rewrite <- app_assoc.
      apply run_header_tail_tags; assumption. }
    exists m. split; [exact Hm|].
    unfold Twee.header_name, Twee.header_tags, Twee.header_coords, group.
    rewrite Hcaps. cbn [app cap Nat.eqb].
    split; [apply plain_name_trim; exact Hn|]. split.
    + destruct tt as [|c0 tt0] eqn:Ett; [congruence|]. rewrite <- Ett.
      unfold tt. rewrite (split_join_tags (t :: ts) ltac:(discriminate) Ht).
      apply filter_plain_tags. exact Ht.
    + apply (Hco _ eq_refl).
Qed.

Lemma twee_header_read_back_witness :
  split nl (twee_block cave_start)
  = twee_header cave_start :: split nl (p_content cave_start ++ nl ++ nl) /\
  exists m,
    Twee.headerMatch (twee_header cave_start) = Some m /\
    Twee.header_name m = p_name cave_start /\
    Twee.header_tags m = p_tags cave_start /\
    Twee.header_coords 0 m
    = (nonzero_or (round_or_100 (p_x cave_start)) (Twee.grid_x 0),
       nonzero_or (round_or_100 (p_y cave_start)) (Twee.grid_y 0),
       int_or_100 100, int_or_100 100).
Proof.
  apply (twee_header_read_back cave_start 0 100 100); vm_compute; reflexivity.
Defined.
